(** * quran-flashcards: the navigation state machine, the option shuffler
      and the answer check of [app.js]

    The script keeps its session state in module-level variables
    ([currentAyahIndex], [currentWordIndex], [isMcqMode], [audio]) and in the
    page.  The embedding gathers all of it in one record, [World], and every
    function of the script becomes a [Handler]: a state transformer that may
    stop early when JavaScript would raise a [TypeError]; whatever was
    assigned before the error stays assigned, as it does for globals.

    - Positions: [goNext], [goPrev] and [switchMode] are followed through
      [displayCurrentContent], which never touches the position; the results
      are stated on [position (exec ...)], the position a call leaves behind,
      and [navigation_returns] shows that in a well-formed session the calls
      run to their end.
    - The shuffle: the arrays of strings live in a heap, so that the copy
      made by [displayMcqWord] and the in-place work of [shuffleArray] can be
      told apart; the draws are doubles, and an index is the integer part
      of the product as the multiplication rounds it ([scaled]); the loop is
      related to [shuffled], the same loop on a list with the indices given,
      for which choices and permutations are shown to correspond one to
      one.
    - The answer check: [checkAnswer] acts on the option buttons, the
      feedback element and the queue of timers.
    - Sessions: [handle] gives what the script runs on an event, and [run]
      a sequence of events; what the page shows, the state of the buttons
      and the option buttons are followed through every event after
      [loadSurahData].
    - The service worker of [sw.js]: its three listeners are promise chains
      over the cache storage ([Job]), with the network as a parameter. *)

From Stdlib Require Import ZArith.
From stdpp Require Import gmap strings list pretty.

Local Open Scope string_scope.
Local Open Scope Z_scope.

(** ** The data of [data/surahs.json] *)

(** Arrays of strings that the script can reach live in a heap and are named
    by their location: [shuffleArray] works on its argument in place, so
    which array is passed matters. *)
Abbreviation loc := positive.

Record Word := {
  word_arabic : string;
  word_transliteration : string;
  word_meaning : string;
  word_options : loc;            (* word.options, an array of strings *)
}.

Record Ayah := {
  ayah_number : Z;
  ayah_arabic : string;
  ayah_transliteration : string;
  ayah_meaning : string;
  ayah_words : list Word;
}.

Record Surah := {
  surah_number : Z;
  surah_ayahs : list Ayah;
}.

(** [a[i]] for a number [i]: [undefined] ([None]) outside the array. *)
Definition index {A} (a : list A) (i : Z) : option A :=
  if i <? 0 then None else a !! Z.to_nat i.

(** [a.length] *)
Definition len {A} (a : list A) : Z := Z.of_nat (length a).

(** ** The page *)

(** The elements the script looks up by id, under the names of its constants. *)
Inductive ElemId :=
  | flashcard | flashcardView | arabicText | transliteration | meaning
  | mcqView | mcqArabic | mcqTransliteration | mcqOptions | mcqFeedback
  | currentAyahSpan | totalAyahsSpan | wordProgress | prevBtn | nextBtn
  | playAudioBtn | tabFlashcard | tabMcq | mcqAnswers.

#[global] Instance ElemId_eq_dec : EqDecision ElemId.
Proof. solve_decision. Defined.

Record Element := {
  textContent : string;
  classList : list string;
  disabled : bool;
}.

(** A button of the option list, with the arguments its click listener
    passes to [checkAnswer]. *)
Record OptionButton := {
  button : Element;
  click_selected : string;
  click_correct : string;
}.

(** What a pending [setTimeout] will call. *)
Inductive Callback := CallGoNext.

Record Timer := { timer_callback : Callback; timer_delay : Z }.

(** An [Audio] object: its source and whether it is playing. *)
Record Player := { player_src : string; player_playing : bool }.

(** ** The results of [Math.random()] *)

(** A double in [0, 1), as [Math.random()] returns one: the number
    [mantissa / 2 ^ places].  Every double in [0, 1) is of this form with
    [0 <= mantissa < 2 ^ 53] and [53 <= places <= 1074]: a normal double in
    [2 ^ -k, 2 ^ (1 - k)) is [m / 2 ^ (k + 52)] with [2 ^ 52 <= m < 2 ^ 53],
    and a subnormal one is [m / 2 ^ 1074] with [m < 2 ^ 52]. *)
Record Double := { mantissa : Z; places : Z }.

Definition unit_double (r : Double) : bool :=
  (0 <=? mantissa r) && (mantissa r <? 2 ^ 53)
  && (53 <=? places r) && (places r <=? 1074).

(** ** The state of a session *)

Record World := {
  currentAyahIndex : Z;
  currentWordIndex : Z;
  isMcqMode : bool;
  audio : option Player;               (* null until the first recitation *)
  heap : gmap positive (list string);  (* the string arrays *)
  randomDraws : nat -> Double;              (* the results of the coming Math.random() calls *)
  page : ElemId -> Element;            (* the elements found by id *)
  optionButtons : list OptionButton;   (* the children of mcqOptions *)
  timers : list Timer;                 (* pending setTimeout calls *)
  chimes : nat;                        (* success sounds played so far *)
}.

(** The three variables the navigation is about. *)
Definition position (w : World) : Z * Z * bool :=
  (currentAyahIndex w, currentWordIndex w, isMcqMode w).

(** ** Handlers *)

(** The result is [None] when the function stopped on an error. *)
Definition Handler (A : Type) : Type := World -> World * option A.

#[global] Instance Handler_ret : MRet Handler := fun A a w => (w, Some a).

#[global] Instance Handler_bind : MBind Handler := fun A B f m w =>
  match m w with
  | (w', Some a) => f a w'
  | (w', None) => (w', None)
  end.

(** The world a handler leaves behind, whether it returned or raised. *)
Definition exec {A} (m : Handler A) (w : World) : World := fst (m w).

(** Whether the handler ran to its end. *)
Definition returns {A} (m : Handler A) (w : World) : bool :=
  match snd (m w) with Some _ => true | None => false end.

(** Handlers that never stop on an error. *)
Definition total {A} (m : Handler A) : Prop := forall w, is_Some (snd (m w)).

(** [m] keeps the property [P] of the world, whether it returns or stops on
    an error. *)
Definition keeps {A} (P : World -> Prop) (m : Handler A) : Prop :=
  forall w, P w -> P (exec m w).

(** [m] never changes the observation [f] of the world, whether it returns
    or stops on an error. *)
Definition preserves {T A} (f : World -> T) (m : Handler A) : Prop :=
  forall w, f (exec m w) = f w.

Definition get : Handler World := fun w => (w, Some w).

Definition modify (f : World -> World) : Handler unit := fun w => (f w, Some tt).

(** Reading a property of [o]: a [TypeError] when [o] is [undefined]. *)
Definition defined {A} (o : option A) : Handler A := fun w => (w, o).

Definition skip : Handler unit := mret tt.

(** *** Assignments to the variables *)

(** The world after [x = v], for each variable [x]. *)

Definition with_currentAyahIndex (i : Z) (w : World) : World :=
  {| currentAyahIndex := i; currentWordIndex := currentWordIndex w;
     isMcqMode := isMcqMode w; audio := audio w; heap := heap w;
     randomDraws := randomDraws w; page := page w;
     optionButtons := optionButtons w; timers := timers w;
     chimes := chimes w |}.

Definition with_currentWordIndex (i : Z) (w : World) : World :=
  {| currentAyahIndex := currentAyahIndex w; currentWordIndex := i;
     isMcqMode := isMcqMode w; audio := audio w; heap := heap w;
     randomDraws := randomDraws w; page := page w;
     optionButtons := optionButtons w; timers := timers w;
     chimes := chimes w |}.

Definition with_isMcqMode (b : bool) (w : World) : World :=
  {| currentAyahIndex := currentAyahIndex w;
     currentWordIndex := currentWordIndex w; isMcqMode := b;
     audio := audio w; heap := heap w; randomDraws := randomDraws w;
     page := page w; optionButtons := optionButtons w; timers := timers w;
     chimes := chimes w |}.

Definition with_audio (a : option Player) (w : World) : World :=
  {| currentAyahIndex := currentAyahIndex w;
     currentWordIndex := currentWordIndex w; isMcqMode := isMcqMode w;
     audio := a; heap := heap w; randomDraws := randomDraws w;
     page := page w; optionButtons := optionButtons w; timers := timers w;
     chimes := chimes w |}.

Definition with_heap (h : gmap positive (list string)) (w : World) : World :=
  {| currentAyahIndex := currentAyahIndex w;
     currentWordIndex := currentWordIndex w; isMcqMode := isMcqMode w;
     audio := audio w; heap := h; randomDraws := randomDraws w;
     page := page w; optionButtons := optionButtons w; timers := timers w;
     chimes := chimes w |}.

Definition with_randomDraws (r : nat -> Double) (w : World) : World :=
  {| currentAyahIndex := currentAyahIndex w;
     currentWordIndex := currentWordIndex w; isMcqMode := isMcqMode w;
     audio := audio w; heap := heap w; randomDraws := r; page := page w;
     optionButtons := optionButtons w; timers := timers w;
     chimes := chimes w |}.

Definition with_page (d : ElemId -> Element) (w : World) : World :=
  {| currentAyahIndex := currentAyahIndex w;
     currentWordIndex := currentWordIndex w; isMcqMode := isMcqMode w;
     audio := audio w; heap := heap w; randomDraws := randomDraws w;
     page := d; optionButtons := optionButtons w; timers := timers w;
     chimes := chimes w |}.

Definition with_optionButtons (bs : list OptionButton) (w : World) : World :=
  {| currentAyahIndex := currentAyahIndex w;
     currentWordIndex := currentWordIndex w; isMcqMode := isMcqMode w;
     audio := audio w; heap := heap w; randomDraws := randomDraws w;
     page := page w; optionButtons := bs; timers := timers w;
     chimes := chimes w |}.

Definition with_timers (ts : list Timer) (w : World) : World :=
  {| currentAyahIndex := currentAyahIndex w;
     currentWordIndex := currentWordIndex w; isMcqMode := isMcqMode w;
     audio := audio w; heap := heap w; randomDraws := randomDraws w;
     page := page w; optionButtons := optionButtons w; timers := ts;
     chimes := chimes w |}.

Definition with_chimes (n : nat) (w : World) : World :=
  {| currentAyahIndex := currentAyahIndex w;
     currentWordIndex := currentWordIndex w; isMcqMode := isMcqMode w;
     audio := audio w; heap := heap w; randomDraws := randomDraws w;
     page := page w; optionButtons := optionButtons w; timers := timers w;
     chimes := n |}.

Definition set_currentAyahIndex (i : Z) : Handler unit :=
  modify (with_currentAyahIndex i).

Definition set_currentWordIndex (i : Z) : Handler unit :=
  modify (with_currentWordIndex i).

Definition set_isMcqMode (b : bool) : Handler unit :=
  modify (with_isMcqMode b).

Definition set_audio (a : option Player) : Handler unit :=
  modify (with_audio a).

Definition set_heap (h : gmap positive (list string)) : Handler unit :=
  modify (with_heap h).

Definition set_randomDraws (r : nat -> Double) : Handler unit :=
  modify (with_randomDraws r).

Definition set_page (d : ElemId -> Element) : Handler unit :=
  modify (with_page d).

Definition set_optionButtons (bs : list OptionButton) : Handler unit :=
  modify (with_optionButtons bs).

Definition set_timers (ts : list Timer) : Handler unit :=
  modify (with_timers ts).

Definition set_chimes (n : nat) : Handler unit :=
  modify (with_chimes n).

(** *** The page's primitives *)

(** The world after a method call on, or an assignment to a property of,
    the element [e]. *)
Definition with_element (e : ElemId) (f : Element -> Element) (w : World)
  : World :=
  with_page (fun e' => if decide (e' = e) then f (page w e') else page w e') w.

Definition update_element (e : ElemId) (f : Element -> Element) : Handler unit :=
  modify (with_element e f).

Definition with_textContent (s : string) (el : Element) : Element :=
  {| textContent := s; classList := classList el; disabled := disabled el |}.

Definition with_classList (cs : list string) (el : Element) : Element :=
  {| textContent := textContent el; classList := cs; disabled := disabled el |}.

Definition with_disabled (b : bool) (el : Element) : Element :=
  {| textContent := textContent el; classList := classList el; disabled := b |}.

Definition has_class (c : string) (el : Element) : bool :=
  bool_decide (c ∈ classList el).

(** [el.classList.add(c)]: a token list holds a token once. *)
Definition classList_add (c : string) (el : Element) : Element :=
  if has_class c el then el else with_classList (classList el ++ [c]) el.

(** [el.classList.remove(c)] *)
Definition classList_remove (c : string) (el : Element) : Element :=
  with_classList (filter (fun c' => c' ≠ c) (classList el)) el.

(** [el.classList.toggle(c, force)] *)
Definition classList_force (c : string) (force : bool) (el : Element) : Element :=
  if force then classList_add c el else classList_remove c el.

(** [el.classList.toggle(c)] *)
Definition classList_toggle (c : string) (el : Element) : Element :=
  if has_class c el then classList_remove c el else classList_add c el.

(** [String(n).padStart(3, '0')] *)
Definition padStart3 (s : string) : string :=
  String.concat "" (replicate (3 - String.length s)%nat "0") ++ s.

(** [Math.random()]: takes the next draw. *)
Definition Math_random : Handler Double :=
  w ← get;
  set_randomDraws (fun n => randomDraws w (S n));;
  mret (randomDraws w 0%nat).

(** [setTimeout(() => { goNext(); }, delay)] *)
Definition setTimeout (cb : Callback) (delay : Z) : Handler unit :=
  w ← get;
  set_timers (timers w ++ [{| timer_callback := cb; timer_delay := delay |}]).

(** [for x of xs: body x], in order; an error ends the loop. *)
Fixpoint forEach {A} (xs : list A) (body : A -> Handler unit) : Handler unit :=
  match xs with
  | [] => skip
  | x :: xs' => body x;; forEach xs' body
  end.

(** *** Arrays of strings *)

(** The elements of the array at [array]. *)
Definition read_array (array : loc) : Handler (list string) :=
  w ← get; defined (heap w !! array).

Definition write_array (array : loc) (xs : list string) : Handler unit :=
  w ← get; set_heap (<[array := xs]> (heap w)).

(** [[...array]]: a new array with the same elements. *)
Definition spread (array : loc) : Handler loc :=
  xs ← read_array array;
  w ← get;
  let copy := fresh (dom (heap w)) in
  write_array copy xs;;
  mret copy.

(** [[array[i], array[j]] = [array[j], array[i]]].  The right-hand side is
    read first; then [array[i]] and [array[j]] are assigned in this order.
    The arrays of the model are dense: when [i] or [j] is not an index of the
    array (JavaScript would then store [undefined] or grow the array) the
    handler stops. *)
Definition swap (array : loc) (i j : nat) : Handler unit :=
  xs ← read_array array;
  aj ← defined (xs !! j);
  ai ← defined (xs !! i);
  write_array array (<[j := ai]> (<[i := aj]> xs)).

(** The rounding of a double operation, on the mantissa: the integer of at
    most 53 significant bits that is nearest to [m >= 0], and of two that
    are equally near the one whose last kept bit is 0.  With [s] the number
    of bits to drop, [m] lies between [q * 2 ^ s] and [(q + 1) * 2 ^ s]. *)
Definition round53 (m : Z) : Z :=
  let s := Z.log2 m - 52 in
  if s <=? 0 then m
  else
    let q := m / 2 ^ s in
    let rest := m mod 2 ^ s in
    let half := 2 ^ (s - 1) in
    if (rest <? half) || ((rest =? half) && Z.even q)
    then q * 2 ^ s else (q + 1) * 2 ^ s.

(** [Math.floor(r * (i + 1))] for the double [r].  The array has fewer than
    [2 ^ 32] elements, so that [i + 1] is exact; the exact product is
    [mantissa * (i + 1) / 2 ^ places], which the multiplication rounds to
    the nearest double, [round53 (mantissa * (i + 1)) / 2 ^ places] (it is
    at least [2 ^ -1021] when bits are dropped, so it is rounded as a
    normal number); [Math.floor] takes the integer part. *)
Definition scaled (r : Double) (i : nat) : nat :=
  Z.to_nat (round53 (mantissa r * (Z.of_nat i + 1)) / 2 ^ places r).

(** The loop of [shuffleArray] from index [i] down to 1. *)
Fixpoint shuffle_loop (array : loc) (i : nat) : Handler unit :=
  match i with
  | O => skip
  | S i' =>
      r ← Math_random;
      let j := scaled r i in
      swap array i j;;
      shuffle_loop array i'
  end.

(** [shuffleArray(array)].  The loop starts at [array.length - 1] and runs
    while [i > 0], so it does nothing for an array of length 0 or 1. *)
Definition shuffleArray (array : loc) : Handler loc :=
  xs ← read_array array;
  shuffle_loop array (length xs - 1)%nat;;
  mret array.

(** *** The shuffle in terms of the indices drawn *)

(** The indices [j] that the loop computes from index [i] down to 1, given
    the results of the calls of [Math.random()]. *)
Fixpoint drawn_indices (draws : nat -> Double) (i : nat) : list nat :=
  match i with
  | O => []
  | S i' => scaled (draws 0%nat) i :: drawn_indices (fun n => draws (S n)) i'
  end.

(** [Math.random()] returns a double in [0, 1). *)
Definition unit_draws (draws : nat -> Double) : Prop :=
  forall n, unit_double (draws n) = true.

(** A sequence of choices for the steps [i], ..., 1: the choice at step [k]
    is an index in [0, k]. *)
Fixpoint valid_choices (i : nat) (js : list nat) : bool :=
  match i, js with
  | O, [] => true
  | S i', j :: js' => (j <=? i)%nat && valid_choices i' js'
  | _, _ => false
  end.

(** All valid sequences of choices for the steps [i], ..., 1. *)
Fixpoint choice_sequences (i : nat) : list (list nat) :=
  match i with
  | O => [[]]
  | S i' => j ← seq 0 (S i); (fun js => j :: js) <$> choice_sequences i'
  end.

(** The swap of [swap], on the elements of the array. *)
Definition swapped {A} (xs : list A) (i j : nat) : option (list A) :=
  aj ← xs !! j;
  ai ← xs !! i;
  Some (<[j := ai]> (<[i := aj]> xs)).

(** The loop of [shuffleArray] on the elements of the array, with the
    indices [js] in place of the draws. *)
Fixpoint shuffled {A} (js : list nat) (i : nat) (xs : list A) {struct i}
  : option (list A) :=
  match i, js with
  | O, _ => Some xs
  | S i', j :: js' => xs' ← swapped xs i j; shuffled js' i' xs'
  | S _, [] => None
  end.

(** A draw that leads step [i] to the choice [j]: the least multiple of
    [2 ^ -53] that is at least [(j + 1/2) / (i + 1)]. *)
Definition draw_for (i j : nat) : Double :=
  {| mantissa :=
       ((2 * Z.of_nat j + 1) * 2 ^ 52 + Z.of_nat i) / (Z.of_nat i + 1);
     places := 53 |}.

(** Draws that lead the loop from [i] to the choices [js]. *)
Fixpoint draws_for (i : nat) (js : list nat) : nat -> Double :=
  match i, js with
  | S i', j :: js' =>
      fun n =>
        match n with
        | O => draw_for i j
        | S n' => draws_for i' js' n'
        end
  | _, _ => fun _ => {| mantissa := 0; places := 53 |}
  end.

(** The session as the script starts it (first verse, first word, flashcard
    mode, no player), given the arrays of the data and the draws to come. *)
Definition start (h : gmap positive (list string)) (draws : nat -> Double)
  : World :=
  {| currentAyahIndex := 0; currentWordIndex := 0; isMcqMode := false;
     audio := None; heap := h; randomDraws := draws;
     page := fun _ => {| textContent := ""; classList := []; disabled := false |};
     optionButtons := []; timers := []; chimes := 0 |}.

(** The array [xs] rearranged by [p], a list of positions: at each place
    the element that [xs] has at the position named there. *)
Definition arranged (p : list nat) (xs : list string) : list string :=
  (fun k => default "" (xs !! k)) <$> p.

(** The choices [js] make [shuffleArray] rearrange an array of [n] elements
    by [p]: some draws in [0, 1) lead to these choices, and whenever an
    array holds [n] elements and the indices drawn are [js], the call
    returns (the array itself) and the array then holds the elements
    rearranged by [p]. *)
Definition reaches (n : nat) (p : list nat) (js : list nat) : Prop :=
  valid_choices (n - 1) js = true
  /\ (exists draws, unit_draws draws /\ drawn_indices draws (n - 1) = js)
  /\ forall w array xs,
       length xs = n ->
       heap w !! array = Some xs ->
       unit_draws (randomDraws w) ->
       drawn_indices (randomDraws w) (n - 1) = js ->
       snd (shuffleArray array w) = Some array
       /\ heap (exec (shuffleArray array) w) !! array = Some (arranged p xs).

(** ** The functions of the script *)

Section App.

(** The surah held by [surahData] once [loadSurahData] has resolved; the
    script never assigns it again. *)
Variable surahData : Surah.

(** [surahData.ayahs[currentAyahIndex]] *)
Definition currentAyah : Handler (option Ayah) :=
  w ← get; mret (index (surah_ayahs surahData) (currentAyahIndex w)).

Definition displayFlashcard : Handler unit :=
  a ← currentAyah;
  ayah ← defined a;
  update_element arabicText (with_textContent (ayah_arabic ayah));;
  update_element transliteration (with_textContent (ayah_transliteration ayah));;
  update_element meaning (with_textContent (ayah_meaning ayah));;
  update_element flashcard (classList_remove "flipped").

(** One button of the option list, as [displayMcqWord] creates it. *)
Definition new_option_button (option correct : string) : OptionButton :=
  {| button := {| textContent := option; classList := ["mcq-option"];
                  disabled := false |};
     click_selected := option;
     click_correct := correct |}.

Definition displayMcqWord : Handler unit :=
  a ← currentAyah;
  ayah ← defined a;
  w ← get;
  word ← defined (index (ayah_words ayah) (currentWordIndex w));
  update_element mcqArabic (with_textContent (word_arabic word));;
  update_element mcqTransliteration
    (with_textContent (word_transliteration word));;
  update_element mcqFeedback (with_textContent "");;
  update_element mcqFeedback (with_classList ["feedback"]);;
  copy ← spread (word_options word);
  shuffledOptions ← shuffleArray copy;
  set_optionButtons [];;
  options ← read_array shuffledOptions;
  forEach options (fun option =>
    w' ← get;
    set_optionButtons
      (optionButtons w' ++ [new_option_button option (word_meaning word)])).

Definition updateProgress : Handler unit :=
  w ← get;
  update_element currentAyahSpan
    (with_textContent (pretty (currentAyahIndex w + 1)));;
  if isMcqMode w then
    a ← currentAyah;
    ayah ← defined a;
    let totalWords := len (ayah_words ayah) in
    update_element wordProgress
      (with_textContent
         ("(Word " ++ pretty (currentWordIndex w + 1) ++ "/"
            ++ pretty totalWords ++ ")"))
  else
    update_element wordProgress (with_textContent "").

Definition updateButtons : Handler unit :=
  w ← get;
  if isMcqMode w then
    a ← currentAyah;
    ayah ← defined a;
    let totalWords := len (ayah_words ayah) in
    let isFirstWord :=
      (currentAyahIndex w =? 0) && (currentWordIndex w =? 0) in
    let isLastWord :=
      (currentAyahIndex w =? len (surah_ayahs surahData) - 1)
      && (currentWordIndex w =? totalWords - 1) in
    update_element prevBtn (with_disabled isFirstWord);;
    update_element nextBtn (with_disabled isLastWord);;
    update_element nextBtn (with_textContent "Next →")
  else
    let isLast := currentAyahIndex w =? len (surah_ayahs surahData) - 1 in
    update_element prevBtn (with_disabled (currentAyahIndex w =? 0));;
    update_element nextBtn (with_disabled false);;
    update_element nextBtn
      (with_textContent (if isLast then "↺ Restart" else "Next →")).

(** [playRecitation()].  The numbers of the data are integers, and
    [String(n)] is written [pretty n]: its decimal writing, which is what
    [String] gives for the safe integers ([safe_integer] below). *)
Definition playRecitation : Handler unit :=
  w ← get;
  match audio w with
  | Some p =>
      set_audio (Some {| player_src := player_src p; player_playing := false |})
  | None => skip
  end;;
  let surahNum := padStart3 (pretty (surah_number surahData)) in
  a ← currentAyah;
  ayah ← defined a;
  let ayahNum := padStart3 (pretty (ayah_number ayah)) in
  let audioUrl :=
    "https://everyayah.com/data/Husary_128kbps/" ++ surahNum ++ ayahNum
      ++ ".mp3" in
  set_audio (Some {| player_src := audioUrl; player_playing := true |}).

Definition displayCurrentContent (autoplay : bool) : Handler unit :=
  w ← get;
  (if isMcqMode w then
     displayMcqWord
   else
     displayFlashcard;;
     if autoplay then playRecitation else skip);;
  updateProgress;;
  updateButtons.

Definition loadSurahData : Handler unit :=
  update_element totalAyahsSpan
    (with_textContent (pretty (len (surah_ayahs surahData))));;
  displayCurrentContent true.

Definition goNext : Handler unit :=
  w ← get;
  if isMcqMode w then
    a ← currentAyah;
    ayah ← defined a;
    let totalWords := len (ayah_words ayah) in
    if currentWordIndex w <? totalWords - 1 then
      set_currentWordIndex (currentWordIndex w + 1);;
      displayCurrentContent true
    else if currentAyahIndex w <? len (surah_ayahs surahData) - 1 then
      set_currentAyahIndex (currentAyahIndex w + 1);;
      set_currentWordIndex 0;;
      displayCurrentContent true
    else
      skip
  else
    (if currentAyahIndex w <? len (surah_ayahs surahData) - 1 then
       set_currentAyahIndex (currentAyahIndex w + 1)
     else
       set_currentAyahIndex 0);;
    displayCurrentContent true.

Definition goPrev : Handler unit :=
  w ← get;
  if isMcqMode w then
    if currentWordIndex w >? 0 then
      set_currentWordIndex (currentWordIndex w - 1);;
      displayCurrentContent true
    else if currentAyahIndex w >? 0 then
      set_currentAyahIndex (currentAyahIndex w - 1);;
      a ← currentAyah;
      ayah ← defined a;
      set_currentWordIndex (len (ayah_words ayah) - 1);;
      displayCurrentContent true
    else
      skip
  else
    if currentAyahIndex w >? 0 then
      set_currentAyahIndex (currentAyahIndex w - 1);;
      displayCurrentContent true
    else
      skip.

Definition flipCard : Handler unit :=
  w ← get;
  if negb (isMcqMode w) then
    update_element flashcard (classList_toggle "flipped")
  else
    skip.

Definition switchMode (newIsMcq : bool) : Handler unit :=
  set_isMcqMode newIsMcq;;
  w ← get;
  update_element tabFlashcard (classList_force "active" (negb (isMcqMode w)));;
  update_element tabMcq (classList_force "active" (isMcqMode w));;
  update_element flashcardView (classList_force "hidden" (isMcqMode w));;
  update_element mcqView (classList_force "hidden" (negb (isMcqMode w)));;
  update_element mcqAnswers (classList_force "hidden" (negb (isMcqMode w)));;
  update_element playAudioBtn (classList_force "hidden" (isMcqMode w));;
  (if isMcqMode w then set_currentWordIndex 0 else skip);;
  displayCurrentContent false.

(** The chime itself (three oscillators of the Web Audio API) is outside the
    model; the world counts how often it was started. *)
Definition playSuccessSound : Handler unit :=
  w ← get; set_chimes (S (chimes w)).

(** The positions, among the buttons [bs], of those of class [mcq-option]. *)
Definition selected_positions (bs : list OptionButton) : list nat :=
  fst <$> filter (fun ib => has_class "mcq-option" (button ib.2) = true)
            (imap pair bs).

(** [mcqOptions.querySelectorAll('.mcq-option')]: the buttons found, each
    named by its position among the children of [mcqOptions].  The result is
    a static list: classes added later do not change it. *)
Definition querySelectorAll_mcq_option : Handler (list nat) :=
  w ← get; mret (selected_positions (optionButtons w)).

(** An assignment to, or a method call on, the button at position [i]. *)
Definition on_button (f : Element -> Element) (b : OptionButton) : OptionButton :=
  {| button := f (button b); click_selected := click_selected b;
     click_correct := click_correct b |}.

(** What the last loop of [checkAnswer] does to a button it visits. *)
Definition reveal (correct : string) (b : OptionButton) : OptionButton :=
  if String.eqb (textContent (button b)) correct
  then on_button (classList_add "correct") b else b.

Definition update_button (i : nat) (f : Element -> Element) : Handler unit :=
  w ← get; set_optionButtons (alter (on_button f) i (optionButtons w)).

(** [checkAnswer(selected, correct, buttonElement)]; [buttonElement] is the
    position of the clicked button among the children of [mcqOptions]. *)
Definition checkAnswer (selected correct : string) (buttonElement : nat)
  : Handler unit :=
  allButtons ← querySelectorAll_mcq_option;
  forEach allButtons (fun btn => update_button btn (with_disabled true));;
  if String.eqb selected correct then
    update_button buttonElement (classList_add "correct");;
    update_element mcqFeedback (with_textContent "✓ Correct!");;
    update_element mcqFeedback (classList_add "correct");;
    playSuccessSound;;
    setTimeout CallGoNext 1000
  else
    update_button buttonElement (classList_add "wrong");;
    update_element mcqFeedback
      (with_textContent ("✗ Correct answer: " ++ correct));;
    update_element mcqFeedback (classList_add "wrong");;
    forEach allButtons (fun btn =>
      w ← get;
      match optionButtons w !! btn with
      | Some b =>
          if String.eqb (textContent (button b)) correct then
            update_button btn (classList_add "correct")
          else
            skip
      | None => skip   (* not reached: the list holds positions of buttons *)
      end).

(** *** The event listeners *)

Inductive Event :=
  | ClickFlashcard | ClickNext | ClickPrev | ClickPlayAudio
  | ClickTabFlashcard | ClickTabMcq
  | ClickOption (i : nat)        (* a click on the i-th option button *)
  | KeyDown (key : string)
  | TimerExpires (i : nat).      (* the i-th pending timer is due *)

Definition run_callback (cb : Callback) : Handler unit :=
  match cb with CallGoNext => goNext end.

(** What the script runs on an event.  A disabled button sends no click;
    a timer that is due leaves the queue and its callback runs. *)
Definition handle (e : Event) : Handler unit :=
  w ← get;
  match e with
  | ClickFlashcard => flipCard
  | ClickNext => if disabled (page w nextBtn) then skip else goNext
  | ClickPrev => if disabled (page w prevBtn) then skip else goPrev
  | ClickPlayAudio => playRecitation
  | ClickTabFlashcard => switchMode false
  | ClickTabMcq => switchMode true
  | ClickOption i =>
      match optionButtons w !! i with
      | Some b =>
          if disabled (button b) then skip
          else checkAnswer (click_selected b) (click_correct b) i
      | None => skip
      end
  | KeyDown key =>
      if String.eqb key "ArrowRight" then goNext
      else if String.eqb key "ArrowLeft" then goPrev
      else if String.eqb key " " then flipCard
      else skip
  | TimerExpires i =>
      match timers w !! i with
      | Some t => set_timers (delete i (timers w));; run_callback (timer_callback t)
      | None => skip
      end
  end.

End App.

(** ** Positions *)

(** The state at load: first verse, first word, flashcard mode. *)
Definition initial (w : World) : Prop := position w = (0, 0, false).

Section Positions.

Variable surahData : Surah.

(** [verseIndex] is an index into the corpus. *)
Definition ayahIndex_valid (w : World) : bool :=
  (0 <=? currentAyahIndex w) && (currentAyahIndex w <? len (surah_ayahs surahData)).

(** [wordIndex] is an index into the word list of the verse at [verseIndex]. *)
Definition wordIndex_valid (w : World) : bool :=
  match index (surah_ayahs surahData) (currentAyahIndex w) with
  | Some ayah =>
      (0 <=? currentWordIndex w) && (currentWordIndex w <? len (ayah_words ayah))
  | None => false
  end.

(** The index of the last verse, and of the last word of the current verse. *)
Definition lastAyahIndex : Z := len (surah_ayahs surahData) - 1.

(** (-1 stands for "no such verse".) *)
Definition lastWordIndexAt (i : Z) : Z :=
  match index (surah_ayahs surahData) i with
  | Some ayah => len (ayah_words ayah) - 1
  | None => -1
  end.

Definition lastWordIndex (w : World) : Z :=
  lastWordIndexAt (currentAyahIndex w).

(** The position is the last word of the last verse. *)
Definition atLastWord (w : World) : bool :=
  (currentAyahIndex w =? lastAyahIndex) && (currentWordIndex w =? lastWordIndex w).

(** Every verse has at least one word, and there is at least one verse (the
    session starts on the first one). *)
Definition well_formed : bool :=
  negb (bool_decide (surah_ayahs surahData = []))
  && forallb (fun ayah => negb (bool_decide (ayah_words ayah = [])))
       (surah_ayahs surahData).

(** The verse index is valid, and in quiz mode so is the word index. *)
Definition position_ok (w : World) : Prop :=
  ayahIndex_valid w = true /\ (isMcqMode w = true -> wordIndex_valid w = true).

(** Every [options] array of the data is in the heap. *)
Definition arrays_allocated (w : World) : Prop :=
  forall ayah word,
    ayah ∈ surah_ayahs surahData -> word ∈ ayah_words ayah ->
    is_Some (heap w !! word_options word).

(** What the script relies on besides the position: the arrays of the data
    exist and [Math.random()] keeps to its range. *)
Definition resources_ok (w : World) : Prop :=
  arrays_allocated w /\ unit_draws (randomDraws w).

(** A session in which the script runs without error. *)
Definition session_ok (w : World) : Prop := position_ok w /\ resources_ok w.

(** The states that [goNext], [goPrev] and [switchMode] reach from [w0]. *)
Inductive reachable (w0 : World) : World -> Prop :=
  | reachable_start : reachable w0 w0
  | reachable_next w :
      reachable w0 w -> reachable w0 (exec (goNext surahData) w)
  | reachable_prev w :
      reachable w0 w -> reachable w0 (exec (goPrev surahData) w)
  | reachable_switch w b :
      reachable w0 w -> reachable w0 (exec (switchMode surahData b) w).

End Positions.


(** ** A small session *)

Definition sample_options : list string :=
  ["In the name"; "Praise"; "Lord"; "Mercy"].

Definition sample_word (meaning : string) (options : loc) : Word :=
  {| word_arabic := "w"; word_transliteration := "t";
     word_meaning := meaning; word_options := options |}.

Definition sample_ayah (number : Z) (words : list Word) : Ayah :=
  {| ayah_number := number; ayah_arabic := "A"; ayah_transliteration := "T";
     ayah_meaning := "M"; ayah_words := words |}.

(** Two verses, of two words and of one word. *)
Definition two_verses : Surah :=
  {| surah_number := 1;
     surah_ayahs :=
       [sample_ayah 1 [sample_word "In the name" 1%positive;
                       sample_word "Praise" 2%positive];
        sample_ayah 2 [sample_word "Lord" 3%positive]] |}.

(** Three verses of one word. *)
Definition three_verses : Surah :=
  {| surah_number := 1;
     surah_ayahs :=
       [sample_ayah 1 [sample_word "In the name" 1%positive];
        sample_ayah 2 [sample_word "Praise" 2%positive];
        sample_ayah 3 [sample_word "Lord" 3%positive]] |}.

Definition sample_heap : gmap positive (list string) :=
  <[1%positive := sample_options]>
    (<[2%positive := sample_options]> {[3%positive := sample_options]}).

(** Every call of [Math.random()] returns 0.5. *)
Definition half_draws : nat -> Double :=
  fun _ => {| mantissa := 2 ^ 52; places := 53 |}.

(** The double 0.6666666666666666, the one next below 2/3. *)
Definition two_thirds : Double :=
  {| mantissa := 6004799503160661; places := 53 |}.

Definition sample_start : World := start sample_heap half_draws.

(** The sample session at a given position. *)
Definition sample_at (ayahIndex wordIndex : Z) (mcq : bool) : World :=
  with_currentAyahIndex ayahIndex
    (with_currentWordIndex wordIndex (with_isMcqMode mcq sample_start)).

(** ** The three ways to navigate *)

Inductive Navigation := Next | Previous | Switch (newIsMcq : bool).

Definition navigate (surahData : Surah) (n : Navigation) : Handler unit :=
  match n with
  | Next => goNext surahData
  | Previous => goPrev surahData
  | Switch newIsMcq => switchMode surahData newIsMcq
  end.

(** ** The words in reading order *)

Section Words.

Variable surahData : Surah.

(** The number of words in the first [n] verses. *)
Definition wordsBefore (n : nat) : Z :=
  Z.of_nat
    (sum_list_with (fun ayah => length (ayah_words ayah))
       (take n (surah_ayahs surahData))).

(** The number of words in the corpus. *)
Definition totalWords : Z := wordsBefore (length (surah_ayahs surahData)).

(** The place of the current word among all words, counted from 0. *)
Definition wordNumber (w : World) : Z :=
  wordsBefore (Z.to_nat (currentAyahIndex w)) + currentWordIndex w.

End Words.

(** ** The recitation of a verse *)

(** The integers that a number of the data holds exactly, and for which
    [String(n)] is the decimal writing [pretty n]: those between [-2 ^ 53]
    and [2 ^ 53]. *)
Definition safe_integer (n : Z) : bool := (- 2 ^ 53 <? n) && (n <? 2 ^ 53).

(** The number of the surah and the numbers of its verses are such. *)
Definition numbers_safe (surahData : Surah) : bool :=
  safe_integer (surah_number surahData)
  && forallb (fun ayah => safe_integer (ayah_number ayah))
       (surah_ayahs surahData).

(** The address that [playRecitation] builds from the number of the surah
    and the number of the verse, for numbers that are safe integers. *)
Definition recitationUrl (surahNumber ayahNumber : Z) : string :=
  "https://everyayah.com/data/Husary_128kbps/"
    ++ padStart3 (pretty surahNumber) ++ padStart3 (pretty ayahNumber)
    ++ ".mp3".

(** The three-character codes of the numbers 0 to 999. *)
Definition codes : list string :=
  (fun n => padStart3 (pretty n)) <$> seqZ 0 1000.

(** ** Sessions *)

Section Sessions.

Variable surahData : Surah.

(** The world after the events [es], one after the other. *)
Definition run (es : list Event) (w : World) : World :=
  foldl (fun w e => exec (handle surahData e) w) w es.

(** The two navigation buttons are disabled exactly where [updateButtons]
    disables them at the position of [w]. *)
Definition buttons_agree (w : World) : Prop :=
  disabled (page w prevBtn)
  = (if isMcqMode w
     then (currentAyahIndex w =? 0) && (currentWordIndex w =? 0)
     else currentAyahIndex w =? 0)
  /\ disabled (page w nextBtn)
     = (if isMcqMode w then atLastWord surahData w else false).

End Sessions.

(** ** What the page shows *)

Section Shown.

Variable surahData : Surah.

(** The card shows the verse [ayah]. *)
Definition card_shows (ayah : Ayah) (w : World) : Prop :=
  textContent (page w arabicText) = ayah_arabic ayah
  /\ textContent (page w transliteration) = ayah_transliteration ayah
  /\ textContent (page w meaning) = ayah_meaning ayah.

(** The quiz shows the word [word]. *)
Definition word_shows (word : Word) (w : World) : Prop :=
  textContent (page w mcqArabic) = word_arabic word
  /\ textContent (page w mcqTransliteration) = word_transliteration word.

(** The progress line reads the position of [w], in the verse [ayah]. *)
Definition progress_shows (ayah : Ayah) (w : World) : Prop :=
  textContent (page w currentAyahSpan) = pretty (currentAyahIndex w + 1)
  /\ textContent (page w wordProgress)
     = if isMcqMode w then
         "(Word " ++ pretty (currentWordIndex w + 1) ++ "/"
           ++ pretty (len (ayah_words ayah)) ++ ")"
       else "".

(** The page shows what is at the position of [w]: the verse on the card in
    flashcard mode, the word in quiz mode, and the progress. *)
Definition page_current (w : World) : Prop :=
  exists ayah,
    index (surah_ayahs surahData) (currentAyahIndex w) = Some ayah
    /\ progress_shows ayah w
    /\ if isMcqMode w then
         exists word,
           index (ayah_words ayah) (currentWordIndex w) = Some word
           /\ word_shows word w
       else card_shows ayah w.

(** The option buttons are those of the word [word]: their texts are the
    elements of [word.options] in some order, and the listener of each
    passes its text and the meaning of the word to [checkAnswer]. *)
Definition options_of (word : Word) (w : World) : Prop :=
  (exists options,
     heap w !! word_options word = Some options
     /\ (fun b => textContent (button b)) <$> optionButtons w ≡ₚ options)
  /\ Forall (fun b =>
       click_selected b = textContent (button b)
       /\ click_correct b = word_meaning word
       /\ has_class "mcq-option" (button b) = true) (optionButtons w).

(** In quiz mode the option buttons are those of the current word. *)
Definition options_current (w : World) : Prop :=
  isMcqMode w = true ->
  exists ayah word,
    index (surah_ayahs surahData) (currentAyahIndex w) = Some ayah
    /\ index (ayah_words ayah) (currentWordIndex w) = Some word
    /\ options_of word w.

End Shown.

(** A question nobody has answered: no feedback, and every option button
    enabled and of class [mcq-option] only. *)
Definition fresh_question (w : World) : Prop :=
  textContent (page w mcqFeedback) = ""
  /\ classList (page w mcqFeedback) = ["feedback"]
  /\ Forall (fun b =>
       disabled (button b) = false /\ classList (button b) = ["mcq-option"])
       (optionButtons w).

(** What [checkAnswer] may do to a button: it keeps the text, the listener
    and the class [mcq-option], and does not enable it. *)
Definition answered (b b' : OptionButton) : Prop :=
  textContent (button b') = textContent (button b)
  /\ click_selected b' = click_selected b
  /\ click_correct b' = click_correct b
  /\ has_class "mcq-option" (button b') = has_class "mcq-option" (button b)
  /\ (disabled (button b) = true -> disabled (button b') = true).

(** The event is a click on an enabled option button whose listener passes
    equal strings to [checkAnswer]. *)
Definition answers_correctly (e : Event) (w : World) : bool :=
  match e with
  | ClickOption i =>
      match optionButtons w !! i with
      | Some b =>
          negb (disabled (button b))
          && String.eqb (click_selected b) (click_correct b)
      | None => false
      end
  | _ => false
  end.

(** ** The service worker *)

(** The worker of [sw.js] keeps copies of the files of the app in the cache
    storage of the browser.  A URL is a string; a cache maps URLs to
    responses; the storage holds the named caches in the order of their
    creation, which is the order in which [caches.match] searches them.
    The network is a function: what [fetch] resolves to for a URL, or
    [None] where it rejects. *)

Definition CACHE_NAME : string := "quran-flashcards-v4".

Definition FILES_TO_CACHE : list string :=
  ["/"; "/index.html"; "/style.css"; "/app.js"; "/data/surahs.json";
   "/manifest.json"].

(** A response: whether its status is in the range 200-299, and its body. *)
Record Response := { response_ok : bool; response_body : string }.

Abbreviation Cache := (gmap string Response).

Abbreviation CacheStorage := (list (string * Cache)).

Definition Network : Type := string -> option Response.

(** A promise chain over the cache storage: the storage it leaves, and the
    value it resolves to, [None] when it rejects. *)
Definition Job (A : Type) : Type := CacheStorage -> CacheStorage * option A.

#[global] Instance Job_ret : MRet Job := fun A a cs => (cs, Some a).

#[global] Instance Job_bind : MBind Job := fun A B f m cs =>
  match m cs with
  | (cs', Some a) => f a cs'
  | (cs', None) => (cs', None)
  end.

(** The storage a job leaves behind, and what it resolves to. *)
Definition storage_after {A} (m : Job A) (cs : CacheStorage) : CacheStorage :=
  fst (m cs).

Definition resolves_to {A} (m : Job A) (cs : CacheStorage) : option A :=
  snd (m cs).

(** [caches.keys()] *)
Definition caches_keys : Job (list string) := fun cs => (cs, Some cs.*1).

(** [caches.open(name)]: the cache of that name, created empty when there
    is none.  The cache is handed on by its name. *)
Definition caches_open (name : string) : Job string := fun cs =>
  (if bool_decide (name ∈ cs.*1) then cs else (cs ++ [(name, ∅)])%list, Some name).

(** [caches.delete(key)] *)
Definition caches_delete (key : string) : Job bool := fun cs =>
  (filter (fun c => c.1 ≠ key) cs, Some (bool_decide (key ∈ cs.*1))).

(** The response that [caches.match(request)] finds: that of the first
    cache, in the order of creation, which has one. *)
Fixpoint first_match (request : string) (cs : CacheStorage) : option Response :=
  match cs with
  | [] => None
  | (_, cache) :: cs' =>
      match cache !! request with
      | Some response => Some response
      | None => first_match request cs'
      end
  end.

(** [caches.match(request)] *)
Definition caches_match (request : string) : Job (option Response) :=
  fun cs => (cs, Some (first_match request cs)).

(** [for x of xs: f x], one after the other; this stands for
    [Promise.all(xs.map(f))] where the jobs [f x] do not depend on each
    other's order, as the deletions of different caches do not. *)
Fixpoint Promise_all {A} (xs : list A) (f : A -> Job unit) : Job unit :=
  match xs with
  | [] => mret tt
  | x :: xs' => f x;; Promise_all xs' f
  end.

Section Worker.

Variable network : Network.

(** [fetch(request)] *)
Definition fetch (request : string) : Job Response :=
  fun cs => (cs, network request).

(** The fetch of [url] resolves with a status in the range 200-299. *)
Definition fetched_ok (url : string) : bool :=
  match network url with
  | Some response => response_ok response
  | None => false
  end.

(** [cache.put(url, response)] with the response fetched for [url]. *)
Definition put_fetched (cache : Cache) (url : string) : Cache :=
  match network url with
  | Some response => <[url := response]> cache
  | None => cache
  end.

(** [cache.addAll(urls)] on the cache named [name]: all URLs are fetched;
    when one fetch rejects or has a status outside 200-299 the promise
    rejects and nothing is stored; otherwise every response is stored. *)
Definition cache_addAll (name : string) (urls : list string) : Job unit :=
  fun cs =>
    if forallb fetched_ok urls then
      ((fun c => if decide (c.1 = name)
                 then (c.1, foldl put_fetched c.2 urls) else c) <$> cs,
       Some tt)
    else (cs, None).

(** The listener of [install]: the promise passed to [event.waitUntil]. *)
Definition on_install : Job unit :=
  cache ← caches_open CACHE_NAME;
  cache_addAll cache FILES_TO_CACHE.

(** The listener of [fetch]: the promise passed to [event.respondWith]. *)
Definition on_fetch (request : string) : Job Response :=
  response ← caches_match request;
  match response with
  | Some cached => mret cached      (* [response || ...]: a response is truthy *)
  | None => fetch request
  end.

End Worker.

(** The listener of [activate]: the promise passed to [event.waitUntil]. *)
Definition on_activate : Job unit :=
  keyList ← caches_keys;
  Promise_all keyList (fun key =>
    if bool_decide (key ≠ CACHE_NAME) then caches_delete key;; mret tt
    else mret tt).

(** * Properties *)

(** ** Running handlers *)

Lemma run_bind {A B} (m : Handler A) (k : A -> Handler B) w :
  (m ≫= k) w =
  match m w with (w', Some a) => k a w' | (w', None) => (w', None) end.
Proof. reflexivity. Qed.

Lemma exec_bind {A B} (m : Handler A) (k : A -> Handler B) w :
  exec (m ≫= k) w =
  match snd (m w) with
  | Some a => exec (k a) (exec m w)
  | None => exec m w
  end.
Proof.
  unfold exec. rewrite run_bind. destruct (m w) as [w' [a|]]; reflexivity.
Qed.

Lemma returns_bind {A B} (m : Handler A) (k : A -> Handler B) w :
  returns (m ≫= k) w =
  match snd (m w) with
  | Some a => returns (k a) (exec m w)
  | None => false
  end.
Proof.
  unfold returns, exec. rewrite run_bind. destruct (m w) as [w' [a|]]; reflexivity.
Qed.

(** ** Frames: what a handler leaves alone *)

Section Frames.

Context {T : Type} (f : World -> T).

Lemma preserves_ret {A} (a : A) : preserves f (mret a : Handler A).
Proof. intros w. reflexivity. Qed.

Lemma preserves_skip : preserves f skip.
Proof. intros w. reflexivity. Qed.

Lemma preserves_get : preserves f get.
Proof. intros w. reflexivity. Qed.

Lemma preserves_defined {A} (o : option A) : preserves f (defined o).
Proof. intros w. reflexivity. Qed.

Lemma preserves_bind {A B} (m : Handler A) (k : A -> Handler B) :
  preserves f m -> (forall a, preserves f (k a)) -> preserves f (m ≫= k).
Proof.
  intros Hm Hk w. rewrite exec_bind.
  destruct (snd (m w)) as [a|]; [rewrite Hk|]; apply Hm.
Qed.

Lemma preserves_modify (g : World -> World) :
  (forall w, f (g w) = f w) -> preserves f (modify g).
Proof. intros Hg w. apply Hg. Qed.

Lemma preserves_if {A} (b : bool) (m1 m2 : Handler A) :
  preserves f m1 -> preserves f m2 -> preserves f (if b then m1 else m2).
Proof. destruct b; auto. Qed.

Lemma preserves_forEach {A} (xs : list A) (body : A -> Handler unit) :
  (forall x, preserves f (body x)) -> preserves f (forEach xs body).
Proof.
  intros Hbody. induction xs as [|x xs IH]; simpl.
  - apply preserves_skip.
  - apply preserves_bind; auto.
Qed.

End Frames.

(** Decomposes a frame goal along the structure of the handler; what is left
    are the assignments, to be checked against the observation. *)
Ltac frame_step :=
  match goal with
  | |- preserves _ (mbind _ _) => apply preserves_bind; [|intros ?]
  | |- preserves _ (mret _) => apply preserves_ret
  | |- preserves _ skip => apply preserves_skip
  | |- preserves _ get => apply preserves_get
  | |- preserves _ (defined _) => apply preserves_defined
  | |- preserves _ (forEach _ _) => apply preserves_forEach; intros ?
  | |- preserves _ (if _ then _ else _) => apply preserves_if
  | |- preserves _ (match ?o with Some _ => _ | None => _ end) => destruct o
  | |- preserves _ (modify _) => apply preserves_modify; intros ?; reflexivity
  end.

Ltac frame := repeat frame_step.

(** *** The position is changed by the three assignments only *)

Lemma update_element_position e g : preserves position (update_element e g).
Proof. unfold update_element. frame. Qed.

Lemma update_button_position i g : preserves position (update_button i g).
Proof. unfold update_button, set_optionButtons. frame. Qed.

Lemma read_array_position l : preserves position (read_array l).
Proof. unfold read_array. frame. Qed.

Lemma write_array_position l xs : preserves position (write_array l xs).
Proof. unfold write_array, set_heap. frame. Qed.

Lemma swap_position l i j : preserves position (swap l i j).
Proof.
  unfold swap. frame; auto using read_array_position, write_array_position.
Qed.

Lemma Math_random_position : preserves position Math_random.
Proof. unfold Math_random, set_randomDraws. frame. Qed.

Lemma shuffle_loop_position l i : preserves position (shuffle_loop l i).
Proof.
  induction i as [|i IH]; simpl; frame;
    auto using Math_random_position, swap_position.
Qed.

Lemma shuffleArray_position l : preserves position (shuffleArray l).
Proof.
  unfold shuffleArray. frame;
    auto using read_array_position, shuffle_loop_position.
Qed.

Lemma spread_position l : preserves position (spread l).
Proof.
  unfold spread. frame; auto using read_array_position, write_array_position.
Qed.

Section DisplayFrames.

Variable surahData : Surah.

Lemma currentAyah_position : preserves position (currentAyah surahData).
Proof. unfold currentAyah. frame. Qed.

Lemma displayFlashcard_position : preserves position (displayFlashcard surahData).
Proof.
  unfold displayFlashcard. frame;
    auto using currentAyah_position, update_element_position.
Qed.

Lemma displayMcqWord_position : preserves position (displayMcqWord surahData).
Proof.
  unfold displayMcqWord, set_optionButtons. frame;
    auto using currentAyah_position, update_element_position,
      spread_position, shuffleArray_position, read_array_position.
Qed.

Lemma updateProgress_position : preserves position (updateProgress surahData).
Proof.
  unfold updateProgress. frame;
    auto using currentAyah_position, update_element_position.
Qed.

Lemma updateButtons_position : preserves position (updateButtons surahData).
Proof.
  unfold updateButtons. frame;
    auto using currentAyah_position, update_element_position.
Qed.

Lemma playRecitation_position : preserves position (playRecitation surahData).
Proof.
  unfold playRecitation, set_audio. frame; auto using currentAyah_position.
Qed.

Lemma displayCurrentContent_position autoplay :
  preserves position (displayCurrentContent surahData autoplay).
Proof.
  unfold displayCurrentContent. frame;
    auto using displayMcqWord_position, displayFlashcard_position,
      playRecitation_position, updateProgress_position, updateButtons_position.
Qed.

End DisplayFrames.

(** ** Stepping through a handler *)

Lemma exec_assoc {A B C} (m : Handler A) (k1 : A -> Handler B)
    (k2 : B -> Handler C) w :
  exec ((m ≫= k1) ≫= k2) w = exec (m ≫= fun a => k1 a ≫= k2) w.
Proof.
  unfold exec. rewrite !run_bind. destruct (m w) as [w' [a|]]; reflexivity.
Qed.

Lemma exec_get_bind {B} (k : World -> Handler B) w :
  exec (get ≫= k) w = exec (k w) w.
Proof. reflexivity. Qed.

Lemma exec_ret_bind {A B} (a : A) (k : A -> Handler B) w :
  exec (mret a ≫= k) w = exec (k a) w.
Proof. reflexivity. Qed.

Lemma exec_skip_bind {B} (k : unit -> Handler B) w :
  exec (skip ≫= k) w = exec (k tt) w.
Proof. reflexivity. Qed.

Lemma exec_modify_bind {B} (g : World -> World) (k : unit -> Handler B) w :
  exec (modify g ≫= k) w = exec (k tt) (g w).
Proof. reflexivity. Qed.

Lemma exec_defined_bind {A B} (o : option A) (k : A -> Handler B) w :
  exec (defined o ≫= k) w =
  match o with Some a => exec (k a) w | None => w end.
Proof. destruct o; reflexivity. Qed.

Lemma exec_modify (g : World -> World) w : exec (modify g) w = g w.
Proof. reflexivity. Qed.

Lemma exec_skip w : exec skip w = w.
Proof. reflexivity. Qed.

Lemma exec_if {A} (b : bool) (m1 m2 : Handler A) w :
  exec (if b then m1 else m2) w = if b then exec m1 w else exec m2 w.
Proof. destruct b; reflexivity. Qed.

(** Runs the leading assignments and reads of a handler.  The handler is
    matched as it is written, without unfolding the functions it calls. *)
Ltac step :=
  match goal with
  | |- context [exec (mbind ?k2 (mbind ?k1 ?m)) ?w] =>
      rewrite (exec_assoc m k1 k2 w)
  | |- context [exec (mbind ?k get) ?w] => rewrite (exec_get_bind k w)
  | |- context [exec (mbind ?k (mret ?a)) ?w] => rewrite (exec_ret_bind a k w)
  | |- context [exec (mbind ?k skip) ?w] => rewrite (exec_skip_bind k w)
  | |- context [exec (mbind ?k (modify ?g)) ?w] =>
      rewrite (exec_modify_bind g k w)
  | |- context [exec (mbind ?k (defined ?o)) ?w] =>
      rewrite (exec_defined_bind o k w)
  | |- context [exec (modify ?g) ?w] => rewrite (exec_modify g w)
  | |- context [exec skip ?w] => rewrite (exec_skip w)
  end.

Ltac steps := repeat step.

(** Closes a goal on the position once the assignments have been run. *)
Ltac position_done Hmode :=
  rewrite ?displayCurrentContent_position;
  unfold position;
  cbn [currentAyahIndex currentWordIndex isMcqMode
       with_currentAyahIndex with_currentWordIndex with_isMcqMode];
  rewrite ?Hmode; reflexivity.

Section Navigation.

Variable surahData : Surah.

#[local] Opaque displayCurrentContent.

Lemma switchMode_position b w :
  position (exec (switchMode surahData b) w) =
  (currentAyahIndex w, if b then 0 else currentWordIndex w, b).
Proof.
  unfold switchMode, update_element, set_isMcqMode, set_currentWordIndex.
  steps. destruct b; cbn [isMcqMode with_isMcqMode]; steps;
    rewrite displayCurrentContent_position; reflexivity.
Qed.

(** What [goNext] does to the position, in any state. *)
Lemma goNext_position w :
  position (exec (goNext surahData) w) =
  if isMcqMode w then
    match index (surah_ayahs surahData) (currentAyahIndex w) with
    | Some ayah =>
        if currentWordIndex w <? len (ayah_words ayah) - 1 then
          (currentAyahIndex w, currentWordIndex w + 1, true)
        else if currentAyahIndex w <? len (surah_ayahs surahData) - 1 then
          (currentAyahIndex w + 1, 0, true)
        else position w
    | None => position w
    end
  else
    (if currentAyahIndex w <? len (surah_ayahs surahData) - 1
     then currentAyahIndex w + 1 else 0,
     currentWordIndex w, false).
Proof.
  unfold goNext, currentAyah, set_currentAyahIndex, set_currentWordIndex.
  steps. destruct (isMcqMode w) eqn:Hmode.
  - steps. destruct (index _ _) as [ayah|]; [|reflexivity].
    repeat case_match; steps; position_done Hmode.
  - steps. case_match; steps; position_done Hmode.
Qed.

(** What [goPrev] does to the position, in any state. *)
Lemma goPrev_position w :
  position (exec (goPrev surahData) w) =
  if isMcqMode w then
    if currentWordIndex w >? 0 then
      (currentAyahIndex w, currentWordIndex w - 1, true)
    else if currentAyahIndex w >? 0 then
      match index (surah_ayahs surahData) (currentAyahIndex w - 1) with
      | Some ayah => (currentAyahIndex w - 1, len (ayah_words ayah) - 1, true)
      | None => (currentAyahIndex w - 1, currentWordIndex w, true)
      end
    else position w
  else
    (if currentAyahIndex w >? 0 then currentAyahIndex w - 1
     else currentAyahIndex w,
     currentWordIndex w, false).
Proof.
  unfold goPrev, currentAyah, set_currentAyahIndex, set_currentWordIndex.
  steps. destruct (isMcqMode w) eqn:Hmode.
  - destruct (currentWordIndex w >? 0); [steps; position_done Hmode|].
    destruct (currentAyahIndex w >? 0); [|steps; position_done Hmode].
    steps. cbn [currentAyahIndex with_currentAyahIndex].
    destruct (index _ _) as [ayah|]; steps; position_done Hmode.
  - case_match; steps; position_done Hmode.
Qed.

Lemma index_Some {A} (a : list A) i x :
  index a i = Some x -> 0 <= i < len a.
Proof.
  unfold index, len. destruct (i <? 0) eqn:Hneg; [discriminate|].
  intros Hx%lookup_lt_Some. lia.
Qed.

Lemma index_is_Some {A} (a : list A) i :
  0 <= i < len a -> is_Some (index a i).
Proof.
  unfold index, len. intros Hi. destruct (i <? 0) eqn:Hneg; [lia|].
  apply lookup_lt_is_Some. lia.
Qed.

(** Reads the three variables off an equation on the position. *)
Lemma position_eq w a i m :
  position w = (a, i, m) ->
  currentAyahIndex w = a /\ currentWordIndex w = i /\ isMcqMode w = m.
Proof. unfold position. intros [= -> -> ->]. auto. Qed.

(** C1. In quiz mode, at a position inside the corpus, [goNext] moves to the
    next word of the verse unless the word is the verse's last; from a last
    word it moves to the first word of the next verse unless the verse is
    the last one, and then it changes nothing. *)
Theorem goNext_quiz w :
  isMcqMode w = true ->
  wordIndex_valid surahData w = true ->
  position (exec (goNext surahData) w) =
    if negb (currentWordIndex w =? lastWordIndex surahData w) then
      (currentAyahIndex w, currentWordIndex w + 1, true)
    else if negb (currentAyahIndex w =? lastAyahIndex surahData) then
      (currentAyahIndex w + 1, 0, true)
    else
      (currentAyahIndex w, currentWordIndex w, true).
Proof.
  intros Hmode Hvalid. rewrite goNext_position, Hmode.
  unfold wordIndex_valid, lastWordIndex, lastWordIndexAt, lastAyahIndex,
    position in *.
  destruct (index _ _) as [ayah|] eqn:Hayah; [|discriminate].
  apply index_Some in Hayah. rewrite Hmode.
  repeat case_match; try reflexivity; lia.
Qed.

(** C2. In quiz mode, at a position inside the corpus, [goPrev] moves to the
    previous word of the verse if there is one; from a first word it moves
    to the last word of the previous verse if there is one; otherwise, which
    is at the first word of the first verse, it changes nothing. *)
Theorem goPrev_quiz w :
  isMcqMode w = true ->
  wordIndex_valid surahData w = true ->
  position (exec (goPrev surahData) w) =
    (if currentWordIndex w >? 0 then
       (currentAyahIndex w, currentWordIndex w - 1, true)
     else if currentAyahIndex w >? 0 then
       (currentAyahIndex w - 1,
        lastWordIndexAt surahData (currentAyahIndex w - 1), true)
     else
       position w)
  /\ ((currentWordIndex w >? 0) || (currentAyahIndex w >? 0) = false
      <-> currentAyahIndex w = 0 /\ currentWordIndex w = 0).
Proof.
  intros Hmode Hvalid. rewrite goPrev_position, Hmode.
  unfold wordIndex_valid, lastWordIndexAt in *.
  destruct (index _ (currentAyahIndex w)) as [ayah|] eqn:Hayah; [|discriminate].
  apply index_Some in Hayah. split.
  - repeat case_match; try reflexivity.
    exfalso. eapply is_Some_None.
    match goal with H : index _ _ = None |- _ => rewrite <- H end.
    apply index_is_Some. lia.
  - rewrite orb_false_iff. lia.
Qed.

(** C3. In quiz mode, at a position inside the corpus other than the last
    word of the last verse, [goNext] followed by [goPrev] leads back to the
    position, mode included. *)
Theorem goPrev_goNext w :
  isMcqMode w = true ->
  wordIndex_valid surahData w = true ->
  atLastWord surahData w = false ->
  position (exec (goPrev surahData) (exec (goNext surahData) w)) = position w.
Proof.
  intros Hmode Hvalid Hlast.
  pose proof (goNext_position w) as Hnext.
  rewrite goPrev_position. rewrite Hmode in Hnext.
  unfold atLastWord, wordIndex_valid, lastWordIndex, lastWordIndexAt,
    lastAyahIndex in *.
  destruct (index _ (currentAyahIndex w)) as [ayah|] eqn:Hayah; [|discriminate].
  pose proof (index_Some _ _ _ Hayah) as Hrange.
  destruct (currentWordIndex w <? len (ayah_words ayah) - 1) eqn:Hw.
  - apply position_eq in Hnext as (-> & -> & ->).
    unfold position. rewrite Hmode.
    repeat case_match; try lia. f_equal. f_equal. lia.
  - destruct (currentAyahIndex w <? len (surah_ayahs surahData) - 1) eqn:Ha;
      [|lia].
    apply position_eq in Hnext as (-> & -> & ->).
    replace (currentAyahIndex w + 1 - 1) with (currentAyahIndex w) by lia.
    rewrite Hayah. unfold position. rewrite Hmode.
    repeat case_match; try lia. f_equal. f_equal. lia.
Qed.

(** C4. In flashcard mode [goNext] restarts from the first verse when it is
    on the last one, whereas [goPrev] on the first verse changes nothing;
    before the last verse [goNext] adds one to the verse index, and after
    the first verse [goPrev] takes one off. *)
Theorem review_navigation w :
  isMcqMode w = false ->
  (currentAyahIndex w = lastAyahIndex surahData ->
     position (exec (goNext surahData) w) = (0, currentWordIndex w, false))
  /\ (currentAyahIndex w = 0 ->
     position (exec (goPrev surahData) w) = position w)
  /\ (currentAyahIndex w < lastAyahIndex surahData ->
     position (exec (goNext surahData) w) =
       (currentAyahIndex w + 1, currentWordIndex w, false))
  /\ (0 < currentAyahIndex w ->
     position (exec (goPrev surahData) w) =
       (currentAyahIndex w - 1, currentWordIndex w, false)).
Proof.
  intros Hmode. rewrite goNext_position, goPrev_position, Hmode.
  unfold lastAyahIndex, position. rewrite Hmode.
  repeat split; intros Hi; case_match; try reflexivity; lia.
Qed.

(** C5. [switchMode(true)] enters quiz mode on the first word of the current
    verse, whatever the word index was; [switchMode(false)] enters flashcard
    mode; neither changes the verse index. *)
Theorem switchMode_effect w :
  position (exec (switchMode surahData true) w) = (currentAyahIndex w, 0, true)
  /\ isMcqMode (exec (switchMode surahData false) w) = false
  /\ currentAyahIndex (exec (switchMode surahData false) w) = currentAyahIndex w.
Proof.
  split; [apply switchMode_position|].
  pose proof (switchMode_position false w) as H.
  apply position_eq in H as (-> & _ & ->). auto.
Qed.

(** *** The mode *)

Lemma goNext_mode w : isMcqMode (exec (goNext surahData) w) = isMcqMode w.
Proof.
  pose proof (goNext_position w) as H. unfold position in H.
  destruct (isMcqMode w); [|congruence].
  repeat case_match; congruence.
Qed.

Lemma goPrev_mode w : isMcqMode (exec (goPrev surahData) w) = isMcqMode w.
Proof.
  pose proof (goPrev_position w) as H. unfold position in H.
  destruct (isMcqMode w); [|congruence].
  repeat case_match; congruence.
Qed.

Lemma flipCard_position : preserves position flipCard.
Proof. unfold flipCard. frame; auto using update_element_position. Qed.

Lemma checkAnswer_position selected correct btn :
  preserves position (checkAnswer selected correct btn).
Proof.
  unfold checkAnswer, querySelectorAll_mcq_option, playSuccessSound,
    setTimeout, set_chimes, set_timers.
  frame; auto using update_element_position, update_button_position.
Qed.

(** Of the event listeners, only the two tabs (which call [switchMode])
    can change the mode. *)
Lemma handle_mode e w :
  e <> ClickTabFlashcard -> e <> ClickTabMcq ->
  isMcqMode (exec (handle surahData e) w) = isMcqMode w.
Proof.
  intros Hflash Hmcq. unfold handle. rewrite exec_get_bind.
  assert (Hpos : forall (m : Handler unit) w',
             preserves position m -> isMcqMode (exec m w') = isMcqMode w').
  { intros m w' Hm. specialize (Hm w'). unfold position in Hm. congruence. }
  destruct e; try done; repeat case_match;
    auto using goNext_mode, goPrev_mode, flipCard_position,
      checkAnswer_position, playRecitation_position.
  unfold set_timers, run_callback. steps.
  destruct (timer_callback t). rewrite goNext_mode. reflexivity.
Qed.

(** C10. In flashcard mode [goNext] and [goPrev] leave the word index as it
    is; in either mode they leave the mode as it is, and so does every event
    listener other than the two mode tabs, which call [switchMode]. *)
Theorem navigation_frame w :
  (isMcqMode w = false ->
     currentWordIndex (exec (goNext surahData) w) = currentWordIndex w
     /\ currentWordIndex (exec (goPrev surahData) w) = currentWordIndex w)
  /\ isMcqMode (exec (goNext surahData) w) = isMcqMode w
  /\ isMcqMode (exec (goPrev surahData) w) = isMcqMode w
  /\ (forall e, e <> ClickTabFlashcard -> e <> ClickTabMcq ->
        isMcqMode (exec (handle surahData e) w) = isMcqMode w).
Proof.
  split; [|auto using goNext_mode, goPrev_mode, handle_mode].
  intros Hmode.
  pose proof (goNext_position w) as Hnext.
  pose proof (goPrev_position w) as Hprev.
  rewrite Hmode in Hnext, Hprev.
  apply position_eq in Hnext as (_ & -> & _).
  apply position_eq in Hprev as (_ & -> & _). auto.
Qed.

(** *** The invariant of the position *)

Lemma well_formed_ayahs :
  well_formed surahData = true -> 0 < len (surah_ayahs surahData).
Proof.
  unfold well_formed, len. intros [Hne _]%andb_true_iff.
  apply negb_true_iff, bool_decide_eq_false in Hne.
  destruct (surah_ayahs surahData); [done|]. simpl. lia.
Qed.

Lemma well_formed_words i ayah :
  well_formed surahData = true ->
  index (surah_ayahs surahData) i = Some ayah ->
  0 < len (ayah_words ayah).
Proof.
  unfold well_formed, index, len. intros [_ Hall]%andb_true_iff Hayah.
  destruct (i <? 0); [discriminate|].
  rewrite forallb_forall in Hall.
  apply list_elem_of_lookup_2, list_elem_of_In, Hall in Hayah.
  apply negb_true_iff, bool_decide_eq_false in Hayah.
  destruct (ayah_words ayah); [done|]. simpl. lia.
Qed.

Lemma position_ok_iff w :
  position_ok surahData w <->
  exists ayah,
    index (surah_ayahs surahData) (currentAyahIndex w) = Some ayah
    /\ (isMcqMode w = true -> 0 <= currentWordIndex w < len (ayah_words ayah)).
Proof.
  unfold position_ok, ayahIndex_valid, wordIndex_valid. split.
  - intros [Ha Hw].
    destruct (index_is_Some (surah_ayahs surahData) (currentAyahIndex w))
      as [ayah Hayah]; [lia|].
    exists ayah. split; [done|]. intros Hmode. specialize (Hw Hmode).
    rewrite Hayah in Hw. lia.
  - intros (ayah & Hayah & Hw). rewrite Hayah.
    apply index_Some in Hayah. split; [lia|]. intros Hmode.
    specialize (Hw Hmode). lia.
Qed.

Lemma goNext_position_ok w :
  well_formed surahData = true ->
  position_ok surahData w -> position_ok surahData (exec (goNext surahData) w).
Proof.
  intros Hwf (ayah & Hayah & Hw)%position_ok_iff. apply position_ok_iff.
  pose proof (goNext_position w) as Hnext. rewrite Hayah in Hnext.
  pose proof (index_Some _ _ _ Hayah) as Hrange.
  destruct (isMcqMode w) eqn:Hmode.
  - specialize (Hw eq_refl). repeat case_match.
    + apply position_eq in Hnext as (-> & -> & ->).
      exists ayah. split; [done|]. lia.
    + apply position_eq in Hnext as (-> & -> & ->).
      destruct (index_is_Some (surah_ayahs surahData) (currentAyahIndex w + 1))
        as [ayah' Hayah']; [lia|].
      exists ayah'. split; [done|]. intros _.
      pose proof (well_formed_words _ _ Hwf Hayah'). lia.
    + apply position_eq in Hnext as (-> & -> & ->).
      exists ayah. split; [done|]. rewrite Hmode. auto.
  - apply position_eq in Hnext as (-> & -> & ->).
    pose proof (well_formed_ayahs Hwf).
    match goal with
    | |- context [index _ ?i] =>
        destruct (index_is_Some (surah_ayahs surahData) i) as [ayah' Hayah'];
          [case_match; lia|]
    end.
    exists ayah'. split; [done|]. discriminate.
Qed.

Lemma goPrev_position_ok w :
  well_formed surahData = true ->
  position_ok surahData w -> position_ok surahData (exec (goPrev surahData) w).
Proof.
  intros Hwf (ayah & Hayah & Hw)%position_ok_iff. apply position_ok_iff.
  pose proof (goPrev_position w) as Hprev.
  pose proof (index_Some _ _ _ Hayah) as Hrange.
  destruct (isMcqMode w) eqn:Hmode.
  - specialize (Hw eq_refl).
    destruct (currentWordIndex w >? 0) eqn:Hwi.
    { apply position_eq in Hprev as (-> & -> & ->).
      exists ayah. split; [done|]. lia. }
    destruct (currentAyahIndex w >? 0) eqn:Hai.
    + destruct (index_is_Some (surah_ayahs surahData) (currentAyahIndex w - 1))
        as [ayah' Hayah']; [lia|].
      rewrite Hayah' in Hprev.
      apply position_eq in Hprev as (-> & -> & ->).
      exists ayah'. split; [done|]. intros _.
      pose proof (well_formed_words _ _ Hwf Hayah'). lia.
    + apply position_eq in Hprev as (-> & -> & ->).
      exists ayah. split; [done|]. rewrite Hmode. auto.
  - apply position_eq in Hprev as (-> & -> & ->).
    match goal with
    | |- context [index _ ?i] =>
        destruct (index_is_Some (surah_ayahs surahData) i) as [ayah' Hayah'];
          [case_match; lia|]
    end.
    exists ayah'. split; [done|]. discriminate.
Qed.

Lemma switchMode_position_ok b w :
  well_formed surahData = true ->
  position_ok surahData w ->
  position_ok surahData (exec (switchMode surahData b) w).
Proof.
  intros Hwf (ayah & Hayah & Hw)%position_ok_iff. apply position_ok_iff.
  pose proof (switchMode_position b w) as Hswitch.
  apply position_eq in Hswitch as (-> & -> & ->).
  exists ayah. split; [done|]. intros ->.
  pose proof (well_formed_words _ _ Hwf Hayah). lia.
Qed.

Lemma initial_position_ok w :
  well_formed surahData = true -> initial w -> position_ok surahData w.
Proof.
  intros Hwf (Ha & Hw & Hmode)%position_eq.
  pose proof (well_formed_ayahs Hwf).
  unfold position_ok, ayahIndex_valid. rewrite Ha, Hmode.
  split; [lia|discriminate].
Qed.

(** C6, as the code has it.  Over a corpus with at least one verse and no
    empty verse, every state that [goNext], [goPrev] and [switchMode] reach
    from the initial one has a valid verse index and, when it is in quiz
    mode, a valid word index. *)
Theorem reachable_position_ok w0 w :
  well_formed surahData = true ->
  initial w0 ->
  reachable surahData w0 w ->
  ayahIndex_valid surahData w = true
  /\ (isMcqMode w = true -> wordIndex_valid surahData w = true).
Proof.
  intros Hwf Hinit Hreach. change (position_ok surahData w).
  induction Hreach as [|w _ IH|w _ IH|w b _ IH].
  - by apply initial_position_ok.
  - by apply goNext_position_ok.
  - by apply goPrev_position_ok.
  - by apply switchMode_position_ok.
Qed.

End Navigation.

(** ** The shuffle *)

Section Shuffled.

Local Open Scope list_scope.

Context {A : Type}.
Implicit Types xs ys : list A.

(** A swap of the last element with any element of the list. *)
Lemma swapped_last xs z j :
  (j <= length xs)%nat ->
  exists xs' y,
    swapped (xs ++ [z]) (length xs) j = Some (xs' ++ [y])
    /\ (xs ++ [z]) !! j = Some y
    /\ length xs' = length xs
    /\ xs' ++ [y] ≡ₚ xs ++ [z].
Proof.
  intros Hj. unfold swapped.
  assert (Hz : (xs ++ [z]) !! length xs = Some z) by (by apply list_lookup_middle).
  destruct (lookup_lt_is_Some_2 (xs ++ [z]) j) as [y Hy].
  { rewrite length_app. simpl. lia. }
  rewrite Hy, Hz. simpl.
  pose proof (Permutation_insert_swap _ _ _ _ _ Hz Hy) as Hperm.
  remember (<[j:=z]> (<[length xs:=y]> (xs ++ [z]))) as l eqn:Hl.
  assert (Hlen : length l = S (length xs)).
  { subst l. rewrite !length_insert, length_app. simpl. lia. }
  assert (Hlast : l !! length xs = Some y).
  { subst l. destruct (decide (j = length xs)) as [->|Hne].
    - rewrite list_lookup_insert_eq; [congruence|].
      rewrite length_insert, length_app. simpl. lia.
    - rewrite list_lookup_insert_ne by done.
      rewrite list_lookup_insert_eq; [done|].
      rewrite length_app. simpl. lia. }
  exists (take (length xs) l), y. split_and!.
  - f_equal. rewrite <- (take_drop (length xs) l) at 1. f_equal.
    apply drop_S in Hlast. rewrite Hlast. f_equal.
    apply drop_ge. lia.
  - done.
  - rewrite length_take. lia.
  - rewrite <- Hperm. rewrite <- (take_drop (length xs) l) at 2.
    f_equiv. apply drop_S in Hlast. rewrite Hlast.
    by rewrite drop_ge by lia.
Qed.

(** The loop from [i] leaves what lies beyond the index [i] alone. *)
Lemma shuffled_app js i xs suffix :
  (i < length xs)%nat ->
  valid_choices i js = true ->
  shuffled js i (xs ++ suffix) = (fun ys => ys ++ suffix) <$> shuffled js i xs.
Proof.
  revert js xs. induction i as [|i IH]; intros js xs Hlen Hjs; [done|].
  destruct js as [|j js]; [done|]. simpl in Hjs.
  apply andb_true_iff in Hjs as [Hj%Nat.leb_le Hjs]. simpl.
  destruct (lookup_lt_is_Some_2 xs j) as [aj Haj]; [lia|].
  destruct (lookup_lt_is_Some_2 xs (S i)) as [ai Hai]; [lia|].
  unfold swapped.
  rewrite !lookup_app_l by lia. rewrite Haj, Hai. simpl.
  rewrite (insert_app_l _ _ (S i)) by lia.
  rewrite insert_app_l by (rewrite length_insert; lia).
  apply IH; [|done]. rewrite !length_insert. lia.
Qed.

(** Valid choices always lead to a result, which is a permutation. *)
Lemma shuffled_Permutation js i xs :
  length xs = S i ->
  valid_choices i js = true ->
  exists ys, shuffled js i xs = Some ys /\ ys ≡ₚ xs.
Proof.
  revert js xs. induction i as [|i IH]; intros js xs Hlen Hjs.
  { exists xs. done. }
  destruct js as [|j js]; [done|]. simpl in Hjs.
  apply andb_true_iff in Hjs as [Hj%Nat.leb_le Hjs].
  destruct (exists_last (l := xs)) as (xs0 & z & ->).
  { intros ->. done. }
  rewrite length_app in Hlen. simpl in Hlen.
  assert (Hlen0 : length xs0 = S i) by lia.
  destruct (swapped_last xs0 z j) as (xs' & y & Hswap & _ & Hlen' & Hperm);
    [lia|].
  destruct (IH js xs') as (ys & Hys & Hperm'); [lia|done|].
  exists (ys ++ [y]). split.
  - rewrite Hlen0 in Hswap. simpl. rewrite Hswap. simpl.
    rewrite shuffled_app by (done || lia). by rewrite Hys.
  - by rewrite Hperm', Hperm.
Qed.

(** Among the valid sequences of choices exactly one turns a list without
    duplicates into a given permutation of it. *)
Lemma shuffled_choice i xs ys :
  length xs = S i ->
  NoDup xs ->
  xs ≡ₚ ys ->
  exists js,
    valid_choices i js = true
    /\ shuffled js i xs = Some ys
    /\ forall js', valid_choices i js' = true ->
                  shuffled js' i xs = Some ys -> js' = js.
Proof.
  revert xs ys. induction i as [|i IH]; intros xs ys Hlen Hnodup Hperm.
  { exists []. split_and!; [done| |by intros [|]].
    destruct xs as [|x [|]]; try done.
    apply Permutation_singleton_l in Hperm. by subst. }
  destruct (exists_last (l := xs)) as (xs0 & z & ->).
  { intros ->. done. }
  destruct (exists_last (l := ys)) as (ys0 & y & ->).
  { intros ->. apply Permutation_length in Hperm. by rewrite Hlen in Hperm. }
  rewrite length_app in Hlen. simpl in Hlen.
  assert (Hlen0 : length xs0 = S i) by lia.
  assert (Hy : y ∈ xs0 ++ [z]).
  { rewrite Hperm. set_solver. }
  apply list_elem_of_lookup in Hy as [j Hj].
  pose proof (lookup_lt_Some _ _ _ Hj) as Hjlt.
  rewrite length_app in Hjlt. simpl in Hjlt.
  destruct (swapped_last xs0 z j) as (xs' & y' & Hswap & Hy' & Hlen' & Hperm');
    [lia|].
  assert (y' = y) as -> by congruence.
  assert (Hperm0 : xs' ≡ₚ ys0).
  { apply (Permutation_app_inv_r [y]). by rewrite Hperm'. }
  assert (Hnodup' : NoDup xs').
  { rewrite <- Hperm' in Hnodup. by apply NoDup_app in Hnodup as (? & _). }
  destruct (IH xs' ys0) as (js & Hjs & Hrun & Huniq); [lia|done|done|].
  rewrite Hlen0 in Hswap.
  exists (j :: js). split_and!.
  - simpl. rewrite Hjs, andb_true_r. apply Nat.leb_le. lia.
  - simpl. rewrite Hswap. simpl.
    rewrite shuffled_app by (done || lia). by rewrite Hrun.
  - intros [|j2 js2] Hvalid2 Hrun2; [done|]. simpl in Hvalid2.
    apply andb_true_iff in Hvalid2 as [Hj2%Nat.leb_le Hjs2].
    destruct (swapped_last xs0 z j2)
      as (xs2 & y2 & Hswap2 & Hy2 & Hlen2 & _); [lia|].
    rewrite Hlen0 in Hswap2. simpl in Hrun2. rewrite Hswap2 in Hrun2.
    simpl in Hrun2. rewrite shuffled_app in Hrun2 by (done || lia).
    destruct (shuffled js2 i xs2) as [ys2|] eqn:Hrun2'; [|done].
    simpl in Hrun2. injection Hrun2 as Hrun2.
    apply app_inj_tail in Hrun2 as [-> ->].
    assert (j2 = j) as -> by eauto using NoDup_lookup.
    rewrite Hswap in Hswap2. injection Hswap2 as Hswap2.
    apply app_inj_tail in Hswap2 as [-> _].
    f_equal. by apply Huniq.
Qed.

End Shuffled.

(** *** The draws *)

(** [round53] leaves an integer below [2 ^ 53] as it is; a larger one moves
    by at most half a unit of the last kept bit, which is at most
    [m / 2 ^ 53]. *)
Lemma round53_exact m : m < 2 ^ 53 -> round53 m = m.
Proof.
  intros Hm. unfold round53.
  destruct (Z.log2 m - 52 <=? 0) eqn:Hs; [done|].
  apply Z.leb_gt in Hs.
  assert (0 < m) by (destruct m; [done..|]; by rewrite Z.log2_nonpos in Hs).
  assert (Z.log2 m < 53) by by apply Z.log2_lt_pow2.
  lia.
Qed.

Lemma round53_near m :
  2 ^ 53 <= m ->
  exists unit,
    0 < unit /\ unit * 2 ^ 52 <= m
    /\ 2 * round53 m <= 2 * m + unit /\ 2 * m <= 2 * round53 m + unit.
Proof.
  intros Hm. unfold round53.
  assert (Hpos : 0 < m) by lia.
  assert (Hlog : 53 <= Z.log2 m) by by apply Z.log2_le_pow2.
  pose proof (Z.log2_spec m Hpos) as [Hlow _].
  set (s := Z.log2 m - 52) in *.
  destruct (s <=? 0) eqn:Hs; [apply Z.leb_le in Hs; lia|]. clear Hs.
  exists (2 ^ s).
  assert (Hunit : 2 ^ s = 2 * 2 ^ (s - 1)).
  { rewrite <- Z.pow_succ_r by lia. f_equal. lia. }
  assert (Hhalf : 0 < 2 ^ (s - 1)) by (apply Z.pow_pos_nonneg; lia).
  assert (Hbig : 2 ^ s * 2 ^ 52 <= m).
  { rewrite <- Z.pow_add_r by lia. by replace (s + 52) with (Z.log2 m) by lia. }
  pose proof (Z.div_mod m (2 ^ s) ltac:(lia)) as Hdiv.
  pose proof (Z.mod_pos_bound m (2 ^ s) ltac:(lia)) as Hrest.
  set (q := m / 2 ^ s) in *. set (rest := m mod 2 ^ s) in *.
  set (half := 2 ^ (s - 1)) in *. set (unit := 2 ^ s) in *.
  clearbody q rest half unit.
  split_and!; [lia|done|..];
    destruct (rest <? half) eqn:Hlt; cbn [orb];
    [apply Z.ltb_lt in Hlt|apply Z.ltb_ge in Hlt
    |apply Z.ltb_lt in Hlt|apply Z.ltb_ge in Hlt];
    try nia;
    destruct ((rest =? half) && Z.even q) eqn:Htie;
    try (apply andb_true_iff in Htie as [Heq%Z.eqb_eq _]); nia.
Qed.

(** The index is one of [0, ..., i]: the product of a double below 1 and
    [i + 1] is rounded to a double below [i + 1]. *)
Lemma scaled_le r i : unit_double r = true -> (scaled r i <= i)%nat.
Proof.
  unfold unit_double, scaled.
  intros [[[Hm0%Z.leb_le Hm1%Z.ltb_lt]%andb_true_iff
            Hp0%Z.leb_le]%andb_true_iff _]%andb_true_iff.
  set (n := Z.of_nat i + 1). assert (Hn : 1 <= n) by lia.
  assert (Hpow : 2 ^ 53 <= 2 ^ places r) by (apply Z.pow_le_mono_r; lia).
  assert (Hround : round53 (mantissa r * n) < n * 2 ^ 53).
  { destruct (Z.lt_ge_cases (mantissa r * n) (2 ^ 53)) as [Hsmall|Hbig].
    - rewrite round53_exact by done. nia.
    - destruct (round53_near _ Hbig) as (unit & Hunit & Hlow & Hup & _). nia. }
  assert (round53 (mantissa r * n) / 2 ^ places r < n).
  { apply Z.div_lt_upper_bound; nia. }
  lia.
Qed.

(** For an array of fewer than [2 ^ 32] elements every index of
    [0, ..., i] is drawn by some double in [0, 1). *)
Lemma draw_for_unit i j :
  (j <= i)%nat -> Z.of_nat i + 1 < 2 ^ 32 -> unit_double (draw_for i j) = true.
Proof.
  intros Hj Hi. unfold unit_double, draw_for. cbn [mantissa places].
  set (n := Z.of_nat i + 1) in *.
  set (t := (2 * Z.of_nat j + 1) * 2 ^ 52).
  pose proof (Z.div_mod (t + Z.of_nat i) n ltac:(lia)) as Hdiv.
  pose proof (Z.mod_pos_bound (t + Z.of_nat i) n ltac:(lia)) as Hrest.
  assert (Hpow : 2 ^ 32 < 2 ^ 52) by done.
  assert (Ht : 0 <= t /\ t + n <= 2 * n * 2 ^ 52) by (unfold t, n; nia).
  set (m := (t + Z.of_nat i) / n) in *.
  assert (0 <= m) by (apply Z.div_pos; lia).
  assert (m < 2 ^ 53).
  { apply Z.div_lt_upper_bound; [lia|].
    replace (2 ^ 53) with (2 * 2 ^ 52) by done. nia. }
  repeat (apply andb_true_iff; split); (by apply Z.leb_le || by apply Z.ltb_lt).
Qed.

Lemma scaled_draw_for i j :
  (j <= i)%nat -> Z.of_nat i + 1 < 2 ^ 32 -> scaled (draw_for i j) i = j.
Proof.
  intros Hj Hi. unfold scaled, draw_for. cbn [mantissa places].
  set (n := Z.of_nat i + 1) in *.
  set (t := (2 * Z.of_nat j + 1) * 2 ^ 52).
  pose proof (Z.div_mod (t + Z.of_nat i) n ltac:(lia)) as Hdiv.
  pose proof (Z.mod_pos_bound (t + Z.of_nat i) n ltac:(lia)) as Hrest.
  set (m := (t + Z.of_nat i) / n) in *.
  assert (Hproduct : t <= m * n < t + n) by lia.
  assert (H32 : 2 ^ 32 = 4294967296) by done.
  assert (H52 : 2 ^ 52 = 4503599627370496) by done.
  assert (H53 : 2 ^ 53 = 2 * 2 ^ 52) by done.
  assert (Hround : Z.of_nat j * 2 ^ 53 <= round53 (m * n)
                   < (Z.of_nat j + 1) * 2 ^ 53).
  { destruct (Z.lt_ge_cases (m * n) (2 ^ 53)) as [Hsmall|Hbig].
    - rewrite round53_exact by done.
      assert (j = 0%nat) by (unfold t in *; nia). subst j. unfold t in *. lia.
    - destruct (round53_near _ Hbig) as (unit & Hunit & Hlow & Hup & Hdown).
      assert (unit < 2 ^ 34).
      { assert (H34 : 2 ^ 34 = 4 * 2 ^ 32) by done. unfold t in *. nia. }
      assert (H34 : 2 ^ 34 = 17179869184) by done.
      unfold t in *. lia. }
  assert (round53 (m * n) / 2 ^ 53 = Z.of_nat j); [|lia].
  symmetry. apply (Z.div_unique _ _ _ (round53 (m * n) - Z.of_nat j * 2 ^ 53)); lia.
Qed.

Lemma unit_draws_tail draws :
  unit_draws draws -> unit_draws (fun n => draws (S n)).
Proof. intros H n. apply H. Qed.

Lemma drawn_indices_valid draws i :
  unit_draws draws -> valid_choices i (drawn_indices draws i) = true.
Proof.
  revert draws. induction i as [|i IH]; intros draws Hdraws; [done|].
  simpl. rewrite IH by by apply unit_draws_tail.
  rewrite andb_true_r. apply Nat.leb_le, scaled_le, Hdraws.
Qed.

Lemma draws_for_unit i js :
  Z.of_nat i + 1 < 2 ^ 32 ->
  valid_choices i js = true -> unit_draws (draws_for i js).
Proof.
  revert js. induction i as [|i IH]; intros js Hi Hjs.
  { intros n. simpl. by destruct js. }
  destruct js as [|j js]; [done|]. simpl in Hjs.
  apply andb_true_iff in Hjs as [Hj%Nat.leb_le Hjs].
  intros [|n]; [|apply IH; [lia|done]].
  by apply draw_for_unit.
Qed.

Lemma draws_for_drawn i js :
  Z.of_nat i + 1 < 2 ^ 32 ->
  valid_choices i js = true -> drawn_indices (draws_for i js) i = js.
Proof.
  revert js. induction i as [|i IH]; intros js Hi Hjs.
  { by destruct js. }
  destruct js as [|j js]; [done|]. simpl in Hjs.
  apply andb_true_iff in Hjs as [Hj%Nat.leb_le Hjs].
  cbn [drawn_indices draws_for]. rewrite scaled_draw_for by done.
  f_equal. apply IH; [lia|done].
Qed.

(** *** Counting the choices *)

Lemma elem_of_choice_sequences i js :
  js ∈ choice_sequences i <-> valid_choices i js = true.
Proof.
  revert js. induction i as [|i IH]; intros js.
  { simpl. rewrite list_elem_of_singleton. destruct js; naive_solver. }
  cbn [choice_sequences valid_choices]. rewrite list_elem_of_bind. split.
  - intros (j & Hjs & Hj). apply list_elem_of_fmap in Hjs as (js' & -> & Hjs').
    apply elem_of_seq in Hj. apply IH in Hjs'.
    apply andb_true_iff. split; [apply Nat.leb_le; lia|done].
  - destruct js as [|j js']; [done|].
    intros [Hj%Nat.leb_le Hjs']%andb_true_iff.
    exists j. split.
    + apply list_elem_of_fmap. exists js'. split; [done|]. by apply IH.
    + apply elem_of_seq. lia.
Qed.

Lemma length_bind_constant {A B} (f : A -> list B) (l : list A) n :
  (forall x, length (f x) = n) -> length (l ≫= f) = (length l * n)%nat.
Proof.
  intros Hf. induction l as [|x l IH]; [done|].
  rewrite bind_cons, length_app, IH, Hf. simpl. lia.
Qed.

(** There are [(i + 1)!] valid sequences of choices from step [i]: [n!] for
    an array of length [n]. *)
Lemma choice_sequences_length i :
  length (choice_sequences i) = fact (S i).
Proof.
  induction i as [|i IH]; [done|].
  cbn [choice_sequences].
  rewrite (length_bind_constant _ _ (fact (S i))).
  - rewrite length_seq. reflexivity.
  - intros j. by rewrite length_fmap.
Qed.

(** *** The loop on the heap *)

Lemma swap_run array i j w xs xs' :
  heap w !! array = Some xs ->
  swapped xs i j = Some xs' ->
  swap array i j w = (with_heap (<[array := xs']> (heap w)) w, Some tt).
Proof.
  intros Hxs Hswap. unfold swapped in Hswap. unfold swap, read_array.
  rewrite !run_bind. cbn [get defined]. rewrite Hxs.
  destruct (xs !! j) as [aj|]; [|done].
  destruct (xs !! i) as [ai|]; [|done].
  simpl in Hswap. injection Hswap as <-. reflexivity.
Qed.

(** The loop computes [shuffled] at the indices it draws, and stores the
    result in the array it was given. *)
Lemma shuffle_loop_run array i w xs ys :
  heap w !! array = Some xs ->
  shuffled (drawn_indices (randomDraws w) i) i xs = Some ys ->
  snd (shuffle_loop array i w) = Some tt
  /\ heap (exec (shuffle_loop array i) w) = <[array := ys]> (heap w).
Proof.
  revert w xs. induction i as [|i IH]; intros w xs Hxs Hrun.
  { injection Hrun as <-. split; [done|]. symmetry. by apply insert_id. }
  cbn [drawn_indices shuffled] in Hrun.
  destruct (swapped xs (S i) (scaled (randomDraws w 0%nat) (S i)))
    as [xs'|] eqn:Hswap; [|done].
  simpl in Hrun.
  set (w1 := with_randomDraws (fun n => randomDraws w (S n)) w).
  set (w2 := with_heap (<[array := xs']> (heap w1)) w1).
  assert (Hstep : shuffle_loop array (S i) w = shuffle_loop array i w2).
  { assert (Hrand : Math_random w = (w1, Some (randomDraws w 0%nat)))
      by reflexivity.
    cbn [shuffle_loop]. rewrite run_bind, Hrand, run_bind.
    by rewrite (swap_run array (S i) _ w1 xs xs'). }
  unfold exec. rewrite Hstep.
  destruct (IH w2 xs') as [Hret Hheap]; [apply lookup_insert_eq|done|].
  split; [done|]. unfold exec in Hheap. rewrite Hheap.
  apply insert_insert_eq.
Qed.

Lemma shuffleArray_run array w xs ys :
  heap w !! array = Some xs ->
  shuffled (drawn_indices (randomDraws w) (length xs - 1)) (length xs - 1) xs
    = Some ys ->
  snd (shuffleArray array w) = Some array
  /\ heap (exec (shuffleArray array) w) = <[array := ys]> (heap w).
Proof.
  intros Hxs Hrun.
  destruct (shuffle_loop_run array _ w xs ys Hxs Hrun) as [Hret Hheap].
  unfold exec in *. unfold shuffleArray, read_array.
  rewrite !run_bind. cbn [get defined]. rewrite Hxs, !run_bind.
  destruct (shuffle_loop array (length xs - 1) w) as [w' [[]|]]; [|done].
  done.
Qed.

(** Valid choices keep the indices inside the array, so that the loop
    runs to its end; its result is a permutation. *)
Lemma shuffled_valid js (xs : list string) :
  valid_choices (length xs - 1) js = true ->
  exists ys, shuffled js (length xs - 1) xs = Some ys /\ ys ≡ₚ xs.
Proof.
  intros Hjs. destruct xs as [|x xs]; [by exists []|].
  apply shuffled_Permutation; [simpl; lia|done].
Qed.

(** Draws in [0, 1) make valid choices. *)
Lemma shuffled_total draws (xs : list string) :
  unit_draws draws ->
  exists ys,
    shuffled (drawn_indices draws (length xs - 1)) (length xs - 1) xs = Some ys
    /\ ys ≡ₚ xs.
Proof. intros Hdraws. by apply shuffled_valid, drawn_indices_valid. Qed.

(** [shuffleArray] works in place: it returns the array it was given. *)
Lemma shuffleArray_in_place array w xs :
  heap w !! array = Some xs ->
  unit_draws (randomDraws w) ->
  exists ys,
    snd (shuffleArray array w) = Some array
    /\ heap (exec (shuffleArray array) w) = <[array := ys]> (heap w)
    /\ ys ≡ₚ xs.
Proof.
  intros Hxs Hdraws.
  destruct (shuffled_total _ xs Hdraws) as (ys & Hrun & Hperm).
  exists ys. split_and!; [..|done]; by eapply shuffleArray_run.
Qed.

Lemma spread_run array w xs :
  heap w !! array = Some xs ->
  spread array w =
    (with_heap (<[fresh (dom (heap w)) := xs]> (heap w)) w,
     Some (fresh (dom (heap w)))).
Proof.
  intros Hxs. unfold spread, read_array.
  rewrite !run_bind. cbn [get defined]. rewrite Hxs. reflexivity.
Qed.

(** C7. [shuffleArray([...options])], as [displayMcqWord] calls it, with
    draws in [0, 1): the result is an array that did not exist before the
    call; its elements are a permutation of those of [options]; and
    [options], like every other array that existed, is as it was. *)
Theorem shuffled_copy w options xs :
  heap w !! options = Some xs ->
  unit_draws (randomDraws w) ->
  exists copy ys,
    snd ((spread options ≫= shuffleArray) w) = Some copy
    /\ heap w !! copy = None
    /\ heap (exec (spread options ≫= shuffleArray) w) !! copy = Some ys
    /\ ys ≡ₚ xs
    /\ heap (exec (spread options ≫= shuffleArray) w) !! options = Some xs
    /\ forall l, l <> copy ->
         heap (exec (spread options ≫= shuffleArray) w) !! l = heap w !! l.
Proof.
  intros Hxs Hdraws.
  set (copy := fresh (dom (heap w))).
  set (w1 := with_heap (<[copy := xs]> (heap w)) w).
  assert (Hnew : heap w !! copy = None).
  { apply not_elem_of_dom, is_fresh. }
  assert (Hne : options <> copy) by congruence.
  destruct (shuffleArray_in_place copy w1 xs) as (ys & Hret & Hheap & Hperm).
  { apply lookup_insert_eq. }
  { done. }
  assert (Hrun : (spread options ≫= shuffleArray) w = shuffleArray copy w1).
  { rewrite run_bind, (spread_run options w xs Hxs). reflexivity. }
  unfold exec in *. rewrite Hrun, Hheap.
  exists copy, ys. split_and!; try done.
  - apply lookup_insert_eq.
  - rewrite lookup_insert_ne by done. cbn [heap w1 with_heap].
    by rewrite lookup_insert_ne.
  - intros l Hl. rewrite lookup_insert_ne by done. cbn [heap w1 with_heap].
    by rewrite lookup_insert_ne.
Qed.

(** *** Rearrangements *)

(** The loop does to the elements what it does to their positions. *)
Lemma swapped_fmap {A B} (f : A -> B) (xs : list A) i j :
  swapped (fmap (M := list) f xs) i j
  = fmap (M := list) f <$> swapped xs i j.
Proof.
  unfold swapped. rewrite !list_lookup_fmap.
  destruct (xs !! j) as [aj|]; [|done]. destruct (xs !! i) as [ai|]; [|done].
  simpl. by rewrite !list_fmap_insert.
Qed.

Lemma shuffled_fmap {A B} (f : A -> B) js i (xs : list A) :
  shuffled js i (fmap (M := list) f xs)
  = fmap (M := list) f <$> shuffled js i xs.
Proof.
  revert js xs. induction i as [|i IH]; intros js xs; [done|].
  destruct js as [|j js]; [done|]. cbn [shuffled].
  rewrite swapped_fmap. destruct (swapped xs (S i) j) as [xs'|]; [|done].
  simpl. apply IH.
Qed.

Lemma arranged_seq xs : arranged (seq 0 (length xs)) xs = xs.
Proof.
  apply list_eq. intros k. unfold arranged. rewrite list_lookup_fmap.
  destruct (decide (k < length xs)%nat) as [Hlt|Hge].
  - rewrite lookup_seq_lt by done.
    destruct (lookup_lt_is_Some_2 xs k Hlt) as [x Hx]. simpl. by rewrite Hx.
  - rewrite lookup_seq_ge by lia. symmetry. apply lookup_ge_None. lia.
Qed.

Lemma shuffled_arranged js i xs p :
  shuffled js i (seq 0 (length xs)) = Some p ->
  shuffled js i xs = Some (arranged p xs).
Proof.
  intros Hp. rewrite <- (arranged_seq xs) at 1. unfold arranged at 1.
  by rewrite shuffled_fmap, Hp.
Qed.

(** Among the valid sequences of choices exactly one rearranges [n]
    positions by a given permutation of them. *)
Lemma positions_choice n p :
  p ≡ₚ seq 0 n ->
  exists js,
    valid_choices (n - 1) js = true
    /\ shuffled js (n - 1) (seq 0 n) = Some p
    /\ forall js', valid_choices (n - 1) js' = true ->
                  shuffled js' (n - 1) (seq 0 n) = Some p -> js' = js.
Proof.
  intros Hperm. destruct n as [|i].
  - apply Permutation_nil_r in Hperm. subst p.
    exists []. split_and!; [done..|]. by intros [|].
  - replace (S i - 1)%nat with i by lia.
    apply shuffled_choice; [by rewrite length_seq|apply NoDup_seq|done].
Qed.

(** Valid choices rearrange [n] positions by some permutation of them. *)
Lemma positions_valid n js :
  valid_choices (n - 1) js = true ->
  exists p, shuffled js (n - 1) (seq 0 n) = Some p /\ p ≡ₚ seq 0 n.
Proof.
  intros Hjs. destruct n as [|i]; [by exists []|].
  replace (S i - 1)%nat with i in * by lia.
  apply shuffled_Permutation; [by rewrite length_seq|done].
Qed.

(** An array of [n] different strings tells the rearrangements of [n]
    positions apart. *)
Lemma arranged_inj n p p' :
  p ≡ₚ seq 0 n -> p' ≡ₚ seq 0 n ->
  arranged p (pretty <$> seq 0 n) = arranged p' (pretty <$> seq 0 n) ->
  p = p'.
Proof.
  assert (Hnames : forall q, q ≡ₚ seq 0 n ->
            arranged q (pretty <$> seq 0 n) = pretty <$> q).
  { intros q Hq. unfold arranged. apply list_fmap_ext. intros i k Hk.
    assert (Hlt : (k < n)%nat).
    { apply list_elem_of_lookup_2 in Hk. rewrite Hq in Hk.
      apply elem_of_seq in Hk. lia. }
    by rewrite list_lookup_fmap, lookup_seq_lt. }
  intros Hp Hp'. rewrite !Hnames by done. apply (inj _).
Qed.

(** C8. The sequences of choices (an index in [0, i] at each step [i] from
    [n - 1] down to 1) and the rearrangements of an array of [n] elements
    correspond one to one, for [n] below the [2 ^ 32] of the arrays of
    JavaScript.  For every permutation of the [n] positions exactly one
    sequence of choices makes [shuffleArray] rearrange its array by it:
    some draws in [0, 1) lead to these choices, with them the array holds
    the elements so rearranged, whatever they are, and no other sequence
    does that.  Every valid sequence of choices rearranges the array by
    some permutation.  The valid sequences are those of
    [choice_sequences], and there are [n!] of them. *)
Theorem shuffleArray_one_choice (n : nat) :
  Z.of_nat n < 2 ^ 32 ->
  (forall p, p ≡ₚ seq 0 n ->
     exists js, reaches n p js /\ forall js', reaches n p js' -> js' = js)
  /\ (forall js, valid_choices (n - 1) js = true ->
        exists p, p ≡ₚ seq 0 n /\ reaches n p js)
  /\ (forall js, js ∈ choice_sequences (n - 1)
                 <-> valid_choices (n - 1) js = true)
  /\ length (choice_sequences (n - 1)) = fact n.
Proof.
  intros Hn.
  assert (Hsize : Z.of_nat (n - 1) + 1 < 2 ^ 32) by lia.
  assert (Hreach : forall js p,
            valid_choices (n - 1) js = true ->
            shuffled js (n - 1) (seq 0 n) = Some p ->
            reaches n p js).
  { intros js p Hjs Hrun. split_and!; [done| |].
    - exists (draws_for (n - 1) js).
      split; [by apply draws_for_unit|by apply draws_for_drawn].
    - intros w array xs <- Hxs Hdraws Hdrawn.
      apply shuffled_arranged in Hrun. rewrite <- Hdrawn in Hrun.
      destruct (shuffleArray_run array w xs _ Hxs Hrun) as [Hret Hheap].
      split; [done|]. rewrite Hheap. apply lookup_insert_eq. }
  split_and!.
  - intros p Hperm.
    destruct (positions_choice n p Hperm) as (js & Hjs & Hrun & Huniq).
    exists js. split; [by apply Hreach|].
    intros js' (Hjs' & (draws & Hunit & Hdrawn) & Hcode).
    apply Huniq; [done|].
    destruct (positions_valid n js' Hjs') as (p' & Hrun' & Hperm').
    rewrite Hrun'. f_equal. apply (arranged_inj n); [done..|].
    set (xs := pretty <$> seq 0 n).
    assert (Hlen : length xs = n) by (unfold xs; by rewrite length_fmap, length_seq).
    set (w := start {[1%positive := xs]} draws).
    destruct (Hcode w 1%positive xs) as [_ Hys];
      [done|apply lookup_singleton_eq|done|done|].
    rewrite <- Hlen in Hrun'. apply shuffled_arranged in Hrun'.
    rewrite Hlen, <- Hdrawn in Hrun'. rewrite <- Hlen in Hrun' at 1 2.
    destruct (shuffleArray_run 1%positive w xs _ (lookup_singleton_eq _ _) Hrun')
      as [_ Hheap].
    rewrite Hheap, lookup_insert_eq in Hys. congruence.
  - intros js Hjs.
    destruct (positions_valid n js Hjs) as (p & Hrun & Hperm).
    exists p. split; [done|by apply Hreach].
  - intros js. apply elem_of_choice_sequences.
  - destruct n as [|i]; [done|].
    replace (S i - 1)%nat with i by lia. apply choice_sequences_length.
Qed.

(** ** The answer check *)

Lemma total_modify g : total (modify g).
Proof. intros w. by eexists. Qed.

Lemma total_skip : total skip.
Proof. intros w. by eexists. Qed.

Lemma total_bind {A B} (m : Handler A) (k : A -> Handler B) :
  total m -> (forall a, total (k a)) -> total (m ≫= k).
Proof.
  intros Hm Hk w. rewrite run_bind. destruct (Hm w) as [a Ha].
  destruct (m w) as [w' [a'|]]; [apply Hk|discriminate Ha].
Qed.

Lemma total_forEach {A} (xs : list A) body :
  (forall x, total (body x)) -> total (forEach xs body).
Proof.
  intros Hbody. induction xs as [|x xs IH]; [apply total_skip|].
  simpl. by apply total_bind.
Qed.

Lemma exec_then {B} (m : Handler unit) (k : unit -> Handler B) w :
  total m -> exec (m ≫= k) w = exec (k tt) (exec m w).
Proof.
  intros Hm. rewrite exec_bind. destruct (Hm w) as [[] ->]. reflexivity.
Qed.

Lemma returns_then {B} (m : Handler unit) (k : unit -> Handler B) w :
  total m -> returns (m ≫= k) w = returns (k tt) (exec m w).
Proof.
  intros Hm. rewrite returns_bind. destruct (Hm w) as [[] ->]. reflexivity.
Qed.

Lemma total_returns {A} (m : Handler A) w : total m -> returns m w = true.
Proof. intros Hm. unfold returns. by destruct (Hm w) as [a ->]. Qed.

Lemma update_button_total i f : total (update_button i f).
Proof. intros w. by eexists. Qed.

Lemma update_element_total e f : total (update_element e f).
Proof. apply total_modify. Qed.

(** What a loop over positions does to the option buttons, when its body
    alters the button at the position by [h]. *)
Lemma forEach_alter (h : OptionButton -> OptionButton) body idxs w :
  (forall i, total (body i)) ->
  (forall i w', optionButtons (exec (body i) w')
                = alter h i (optionButtons w')) ->
  optionButtons (exec (forEach idxs body) w)
  = foldl (fun bs i => alter h i bs) (optionButtons w) idxs.
Proof.
  intros Htotal Hbody. revert w.
  induction idxs as [|i idxs IH]; intros w; [done|].
  cbn [forEach foldl]. rewrite exec_then by done. by rewrite IH, Hbody.
Qed.

Lemma foldl_alter_lookup {A} (h : A -> A) idxs (bs : list A) k :
  NoDup idxs ->
  foldl (fun bs i => alter h i bs) bs idxs !! k
  = if decide (k ∈ idxs) then h <$> bs !! k else bs !! k.
Proof.
  intros Hnodup. revert bs.
  induction Hnodup as [|i idxs Hi _ IH]; intros bs; [done|].
  cbn [foldl]. rewrite IH.
  destruct (decide (k = i)) as [->|Hne].
  - rewrite list_lookup_alter_eq.
    destruct (decide (i ∈ idxs)); [done|].
    destruct (decide (i ∈ i :: idxs)) as [|Hnot]; [done|].
    exfalso. apply Hnot. by left.
  - rewrite list_lookup_alter_ne by done.
    destruct (decide (k ∈ idxs)) as [Hin|Hnin];
      destruct (decide (k ∈ i :: idxs)) as [Hin'|Hnin']; try done.
    + exfalso. apply Hnin'. by right.
    + apply elem_of_cons in Hin' as [->|?]; done.
Qed.

Lemma selected_positions_NoDup bs : NoDup (selected_positions bs).
Proof.
  unfold selected_positions.
  apply (sublist_NoDup _ (fst <$> imap pair bs));
    [|apply fmap_sublist, sublist_filter].
  replace (fst <$> imap pair bs) with (seq 0 (length bs)).
  - apply NoDup_seq.
  - apply list_eq. intros k. rewrite list_lookup_fmap, list_lookup_imap.
    destruct (bs !! k) as [b|] eqn:Hb; simpl.
    + apply lookup_seq. split; [done|]. by eapply lookup_lt_Some.
    + apply lookup_seq_ge. by apply lookup_ge_None.
Qed.

Lemma elem_of_selected_positions bs k :
  k ∈ selected_positions bs <->
  exists b, bs !! k = Some b /\ has_class "mcq-option" (button b) = true.
Proof.
  unfold selected_positions. rewrite list_elem_of_fmap. split.
  - intros ([k' b] & -> & [Hclass Hin]%list_elem_of_filter).
    apply elem_of_lookup_imap in Hin as (k'' & b' & [= -> ->] & Hb).
    eauto.
  - intros (b & Hb & Hclass). exists (k, b). split; [done|].
    apply list_elem_of_filter. split; [done|].
    apply elem_of_lookup_imap. eauto.
Qed.

Lemma total_get : total get.
Proof. intros w. by eexists. Qed.

Lemma total_ret {A} (a : A) : total (mret a : Handler A).
Proof. intros w. by eexists. Qed.

(** Decomposes a goal [total m] along the structure of [m]. *)
Ltac total_step :=
  match goal with
  | |- total (mbind _ _) => apply total_bind; [|intros ?]
  | |- total (mret _) => apply total_ret
  | |- total skip => apply total_skip
  | |- total get => apply total_get
  | |- total (modify _) => apply total_modify
  | |- total (forEach _ _) => apply total_forEach; intros ?
  | |- total (if ?b then _ else _) => destruct b
  | |- total (match ?o with Some _ => _ | None => _ end) => destruct o
  end.

Lemma checkAnswer_total selected correct buttonElement :
  total (checkAnswer selected correct buttonElement).
Proof.
  unfold checkAnswer, querySelectorAll_mcq_option, update_button,
    update_element, playSuccessSound, setTimeout, set_optionButtons,
    set_chimes, set_timers.
  repeat total_step.
Qed.

(** The first loop of [checkAnswer] disables the buttons it was given. *)
Lemma disable_loop_buttons idxs w :
  optionButtons
    (exec (forEach idxs (fun btn => update_button btn (with_disabled true))) w)
  = foldl (fun bs i => alter (on_button (with_disabled true)) i bs)
      (optionButtons w) idxs.
Proof.
  apply forEach_alter; [intros i; apply update_button_total|done].
Qed.

Lemma reveal_loop_buttons correct idxs w :
  optionButtons
    (exec (forEach idxs (fun btn =>
        w ← get;
        match optionButtons w !! btn with
        | Some b =>
            if String.eqb (textContent (button b)) correct then
              update_button btn (classList_add "correct")
            else
              skip
        | None => skip
        end)) w)
  = foldl (fun bs i => alter (reveal correct) i bs) (optionButtons w) idxs.
Proof.
  apply (forEach_alter (reveal correct)).
  - intros i. unfold update_button, set_optionButtons. repeat total_step.
  - intros i w'. rewrite exec_get_bind. unfold reveal.
    destruct (optionButtons w' !! i) as [b|] eqn:Hb.
    + destruct (String.eqb _ _) eqn:Htext.
      * unfold update_button, set_optionButtons. steps.
        cbn [optionButtons with_optionButtons].
        apply list_eq. intros k.
        destruct (decide (k = i)) as [->|Hne].
        -- rewrite !list_lookup_alter_eq, Hb. simpl. by rewrite Htext.
        -- by rewrite !list_lookup_alter_ne.
      * steps. apply list_eq. intros k.
        destruct (decide (k = i)) as [->|Hne].
        -- rewrite list_lookup_alter_eq, Hb. simpl. by rewrite Htext.
        -- by rewrite list_lookup_alter_ne.
    + steps. apply list_eq. intros k.
      destruct (decide (k = i)) as [->|Hne].
      * by rewrite list_lookup_alter_eq, Hb.
      * by rewrite list_lookup_alter_ne.
Qed.

Lemma has_class_add c el : has_class c (classList_add c el) = true.
Proof.
  unfold classList_add. destruct (has_class c el) eqn:Hc; [done|].
  unfold has_class. apply bool_decide_eq_true. cbn. set_solver.
Qed.

Lemma has_class_add_other c c' el :
  has_class c el = true -> has_class c (classList_add c' el) = true.
Proof.
  unfold classList_add. destruct (has_class c' el); [done|].
  unfold has_class. rewrite !bool_decide_eq_true. cbn. set_solver.
Qed.

Lemma has_class_reveal c correct b :
  has_class c (button b) = true ->
  has_class c (button (reveal correct b)) = true.
Proof.
  unfold reveal. destruct (String.eqb _ _); [|done].
  apply has_class_add_other.
Qed.

(** A class that a button has when [checkAnswer] starts is still there
    after the first loop, which only disables the buttons it visits. *)
Lemma disable_loop_lookup w k :
  optionButtons
    (exec (forEach (selected_positions (optionButtons w))
             (fun btn => update_button btn (with_disabled true))) w) !! k
  = (if decide (k ∈ selected_positions (optionButtons w))
     then on_button (with_disabled true) else id)
      <$> optionButtons w !! k.
Proof.
  rewrite disable_loop_buttons.
  rewrite foldl_alter_lookup by apply selected_positions_NoDup.
  destruct (decide (k ∈ _)); [done|]. by rewrite option_fmap_id.
Qed.

(** [checkAnswer] is its first loop followed by one of the two branches. *)
Lemma checkAnswer_split selected correct buttonElement w :
  exec (checkAnswer selected correct buttonElement) w
  = exec
      (if String.eqb selected correct then
         update_button buttonElement (classList_add "correct");;
         update_element mcqFeedback (with_textContent "✓ Correct!");;
         update_element mcqFeedback (classList_add "correct");;
         playSuccessSound;;
         setTimeout CallGoNext 1000
       else
         update_button buttonElement (classList_add "wrong");;
         update_element mcqFeedback
           (with_textContent ("✗ Correct answer: " ++ correct));;
         update_element mcqFeedback (classList_add "wrong");;
         forEach (selected_positions (optionButtons w)) (fun btn =>
           w ← get;
           match optionButtons w !! btn with
           | Some b =>
               if String.eqb (textContent (button b)) correct then
                 update_button btn (classList_add "correct")
               else
                 skip
           | None => skip
           end))
      (exec (forEach (selected_positions (optionButtons w))
               (fun btn => update_button btn (with_disabled true))) w).
Proof.
  unfold checkAnswer, querySelectorAll_mcq_option. steps.
  rewrite exec_then; [done|].
  apply total_forEach. intros i. apply update_button_total.
Qed.

Lemma textContent_classList_add c el :
  textContent (classList_add c el) = textContent el.
Proof. unfold classList_add. by destruct (has_class c el). Qed.

Lemma forEach_update_button_frame {T} (f : World -> T) idxs g :
  (forall bs w, f (with_optionButtons bs w) = f w) ->
  preserves f (forEach idxs (fun btn => update_button btn g)).
Proof.
  intros Hf. unfold update_button, set_optionButtons. frame.
  apply preserves_modify. intros w. apply Hf.
Qed.

Lemma exec_update_button_bind {B} i f (k : unit -> Handler B) w :
  exec (update_button i f ≫= k) w
  = exec (k tt) (with_optionButtons (alter (on_button f) i (optionButtons w)) w).
Proof. reflexivity. Qed.

(** C9. [checkAnswer] always returns and leaves the position alone.  When
    [selected] and [correct] are the same string, the clicked button gets
    the class [correct], the feedback reads "Correct!", and exactly one
    timer is added, which calls [goNext] after 1000 ms: when it expires,
    [goNext] runs once and the timer is gone.  When the strings differ, the
    clicked button gets the class [wrong], every option button whose text is
    [correct] gets the class [correct], the feedback names the correct
    answer, and no timer is added. *)
Theorem checkAnswer_effect selected correct buttonElement w :
  let w' := exec (checkAnswer selected correct buttonElement) w in
  returns (checkAnswer selected correct buttonElement) w = true
  /\ position w' = position w
  /\ (selected = correct ->
        (forall b, optionButtons w !! buttonElement = Some b ->
           exists b', optionButtons w' !! buttonElement = Some b'
                      /\ has_class "correct" (button b') = true)
        /\ textContent (page w' mcqFeedback) = "✓ Correct!"
        /\ timers w' =
             (timers w
                ++ [{| timer_callback := CallGoNext; timer_delay := 1000 |}])%list
        /\ forall surahData,
             exec (handle surahData (TimerExpires (length (timers w)))) w'
             = exec (goNext surahData) (with_timers (timers w) w'))
  /\ (selected <> correct ->
        (forall b, optionButtons w !! buttonElement = Some b ->
           exists b', optionButtons w' !! buttonElement = Some b'
                      /\ has_class "wrong" (button b') = true)
        /\ (forall k b, optionButtons w !! k = Some b ->
              has_class "mcq-option" (button b) = true ->
              textContent (button b) = correct ->
              exists b', optionButtons w' !! k = Some b'
                         /\ has_class "correct" (button b') = true)
        /\ textContent (page w' mcqFeedback) = "✗ Correct answer: " ++ correct
        /\ timers w' = timers w).
Proof.
  intros w'. split; [apply total_returns, checkAnswer_total|].
  split; [apply checkAnswer_position|].
  subst w'. rewrite checkAnswer_split.
  pose proof (disable_loop_lookup w) as Hlookup.
  set (allButtons := selected_positions (optionButtons w)) in *.
  set (w1 := exec (forEach allButtons _) w) in *.
  assert (Htimers : timers w1 = timers w).
  { by apply (forEach_update_button_frame timers). }
  assert (Hpage : page w1 = page w).
  { by apply (forEach_update_button_frame page). }
  split.
  - intros ->. rewrite String.eqb_refl.
    unfold update_button, update_element, playSuccessSound, setTimeout,
      set_optionButtons, set_chimes, set_timers.
    steps. split_and!.
    + intros b Hb. cbn. rewrite list_lookup_alter_eq, Hlookup, Hb. simpl.
      eexists. split; [done|]. cbn. apply has_class_add.
    + cbn [page with_timers with_chimes with_element with_page
           with_optionButtons].
      rewrite !decide_True by done. by rewrite textContent_classList_add.
    + cbn [timers with_timers with_chimes with_element with_page
           with_optionButtons].
      by rewrite Htimers.
    + intros surahData. unfold handle. rewrite exec_get_bind.
      cbn [timers with_timers with_chimes with_element with_page
           with_optionButtons].
      rewrite Htimers.
      rewrite list_lookup_middle by done.
      unfold set_timers, run_callback. steps.
      cbn [timer_callback timers with_timers with_chimes with_element
           with_page with_optionButtons].
      replace (delete (length (timers w)) (timers w ++ [_])%list)
        with (timers w);
        [done|].
      rewrite delete_middle. by rewrite app_nil_r.
  - intros Hne. apply String.eqb_neq in Hne. rewrite Hne.
    rewrite exec_update_button_bind. unfold update_element. steps.
    match goal with
    | |- context [exec (forEach _ ?body) ?w0] =>
        set (w2 := w0);
        assert (Hbuttons : forall k,
          optionButtons (exec (forEach allButtons body) w2) !! k
          = (if decide (k ∈ allButtons) then reveal correct else id)
              <$> alter (on_button (classList_add "wrong")) buttonElement
                    (optionButtons w1) !! k);
        [|assert (Hframe : forall {T} (f : World -> T),
                    (forall bs w, f (with_optionButtons bs w) = f w) ->
                    f (exec (forEach allButtons body) w2) = f w2)]
    end.
    { intros k. rewrite reveal_loop_buttons.
      rewrite foldl_alter_lookup by apply selected_positions_NoDup.
      fold allButtons. destruct (decide (k ∈ allButtons)); [done|].
      by rewrite option_fmap_id. }
    { intros T f Hf.
      assert (Hpres : forall idxs, preserves f (forEach idxs
        (fun btn => w ← get;
           match optionButtons w !! btn with
           | Some b =>
               if String.eqb (textContent (button b)) correct then
                 update_button btn (classList_add "correct")
               else skip
           | None => skip
           end))); [|apply Hpres].
      intros idxs. unfold update_button, set_optionButtons. frame.
      apply preserves_modify. intros w0. apply Hf. }
    split_and!.
    + intros b Hb. rewrite Hbuttons, list_lookup_alter_eq, Hlookup, Hb.
      eexists. split; [done|].
      repeat case_decide; unfold id; try apply has_class_reveal;
        cbn [button on_button]; apply has_class_add.
    + intros k b Hb Hclass Htext. rewrite Hbuttons.
      assert (Hk : k ∈ allButtons).
      { apply elem_of_selected_positions. eauto. }
      rewrite decide_True by done.
      assert (Hb1 : exists b1,
                 alter (on_button (classList_add "wrong")) buttonElement
                   (optionButtons w1) !! k = Some b1
                 /\ textContent (button b1) = correct).
      { destruct (decide (buttonElement = k)) as [->|Hother].
        - rewrite list_lookup_alter_eq, Hlookup, Hb, decide_True by done.
          eexists. split; [done|]. cbn [button on_button].
          by rewrite textContent_classList_add.
        - rewrite list_lookup_alter_ne by done.
          rewrite Hlookup, Hb, decide_True by done.
          eexists. split; [done|]. done. }
      destruct Hb1 as (b1 & -> & Htext1).
      eexists. split; [done|]. unfold reveal.
      rewrite Htext1, String.eqb_refl. cbn [button on_button].
      apply has_class_add.
    + rewrite (Hframe _ (fun w => textContent (page w mcqFeedback))) by done.
      unfold w2.
      cbn [page with_element with_page with_optionButtons].
      rewrite !decide_True by done. by rewrite textContent_classList_add.
    + rewrite (Hframe _ timers) by done. unfold w2. by cbn.
Qed.

(** ** Running without error *)

Section Keeps.

Context (P : World -> Prop).

Lemma keeps_ret {A} (a : A) : keeps P (mret a : Handler A).
Proof. intros w Hw. exact Hw. Qed.

Lemma keeps_skip : keeps P skip.
Proof. intros w Hw. exact Hw. Qed.

Lemma keeps_get : keeps P get.
Proof. intros w Hw. exact Hw. Qed.

Lemma keeps_defined {A} (o : option A) : keeps P (defined o).
Proof. intros w Hw. exact Hw. Qed.

Lemma keeps_bind {A B} (m : Handler A) (k : A -> Handler B) :
  keeps P m -> (forall a, keeps P (k a)) -> keeps P (m ≫= k).
Proof.
  intros Hm Hk w Hw. rewrite exec_bind.
  destruct (snd (m w)) as [a|]; [apply Hk|]; by apply Hm.
Qed.

Lemma keeps_get_bind {B} (k : World -> Handler B) :
  (forall w, P w -> P (exec (k w) w)) -> keeps P (get ≫= k).
Proof. intros Hk w Hw. rewrite exec_get_bind. by apply Hk. Qed.

Lemma keeps_modify (g : World -> World) :
  (forall w, P w -> P (g w)) -> keeps P (modify g).
Proof. intros Hg w Hw. by apply Hg. Qed.

Lemma keeps_if {A} (b : bool) (m1 m2 : Handler A) :
  keeps P m1 -> keeps P m2 -> keeps P (if b then m1 else m2).
Proof. destruct b; auto. Qed.

Lemma keeps_forEach {A} (xs : list A) (body : A -> Handler unit) :
  (forall x, keeps P (body x)) -> keeps P (forEach xs body).
Proof.
  intros Hbody. induction xs as [|x xs IH]; simpl.
  - apply keeps_skip.
  - apply keeps_bind; auto.
Qed.

End Keeps.

(** Decomposes a goal [keeps P m] along the structure of [m]; an assignment
    is passed when the property reads the same after it. *)
Ltac keep_step :=
  match goal with
  | |- keeps _ (mbind _ _) => apply keeps_bind; [|intros ?]
  | |- keeps _ (mret _) => apply keeps_ret
  | |- keeps _ skip => apply keeps_skip
  | |- keeps _ get => apply keeps_get
  | |- keeps _ (defined _) => apply keeps_defined
  | |- keeps _ (forEach _ _) => apply keeps_forEach; intros ?
  | |- keeps _ (if _ then _ else _) => apply keeps_if
  | |- keeps _ (match ?o with Some _ => _ | None => _ end) => destruct o
  | |- keeps _ (modify _) =>
      apply keeps_modify; let H := fresh in intros ? H; exact H
  end.

Ltac keep := repeat keep_step.

Section Resources.

Variable surahData : Surah.

Lemma write_array_resources l xs :
  keeps (resources_ok surahData) (write_array l xs).
Proof.
  unfold write_array, set_heap. apply keeps_get_bind.
  intros w [Harrays Hdraws]. steps. split; [|done].
  intros ayah word Hayah Hword. cbn [heap with_heap].
  destruct (decide (l = word_options word)) as [->|Hne].
  - rewrite lookup_insert_eq. by eexists.
  - rewrite lookup_insert_ne by done. by apply (Harrays ayah).
Qed.

Lemma Math_random_resources : keeps (resources_ok surahData) Math_random.
Proof.
  unfold Math_random, set_randomDraws. apply keeps_get_bind.
  intros w [Harrays Hdraws]. steps. split; [done|].
  by apply unit_draws_tail.
Qed.

Lemma swap_resources l i j : keeps (resources_ok surahData) (swap l i j).
Proof. unfold swap, read_array. keep. apply write_array_resources. Qed.

Lemma shuffle_loop_resources l i :
  keeps (resources_ok surahData) (shuffle_loop l i).
Proof.
  induction i as [|i IH]; simpl; keep;
    auto using Math_random_resources, swap_resources.
Qed.

Lemma shuffleArray_resources l :
  keeps (resources_ok surahData) (shuffleArray l).
Proof.
  unfold shuffleArray, read_array. keep. apply shuffle_loop_resources.
Qed.

Lemma spread_resources l : keeps (resources_ok surahData) (spread l).
Proof. unfold spread, read_array. keep. apply write_array_resources. Qed.

Lemma displayCurrentContent_resources autoplay :
  keeps (resources_ok surahData) (displayCurrentContent surahData autoplay).
Proof.
  unfold displayCurrentContent, displayMcqWord, displayFlashcard,
    playRecitation, updateProgress, updateButtons, currentAyah,
    update_element, read_array, set_optionButtons, set_audio.
  keep; auto using spread_resources, shuffleArray_resources.
Qed.

Lemma goNext_resources : keeps (resources_ok surahData) (goNext surahData).
Proof.
  unfold goNext, currentAyah, set_currentAyahIndex, set_currentWordIndex.
  keep; apply displayCurrentContent_resources.
Qed.

Lemma goPrev_resources : keeps (resources_ok surahData) (goPrev surahData).
Proof.
  unfold goPrev, currentAyah, set_currentAyahIndex, set_currentWordIndex.
  keep; apply displayCurrentContent_resources.
Qed.

Lemma switchMode_resources b :
  keeps (resources_ok surahData) (switchMode surahData b).
Proof.
  unfold switchMode, update_element, set_isMcqMode, set_currentWordIndex.
  keep; apply displayCurrentContent_resources.
Qed.

End Resources.

(** *** Stepping through [returns] *)

Lemma returns_assoc {A B C} (m : Handler A) (k1 : A -> Handler B)
    (k2 : B -> Handler C) w :
  returns ((m ≫= k1) ≫= k2) w = returns (m ≫= fun a => k1 a ≫= k2) w.
Proof.
  unfold returns. rewrite !run_bind. destruct (m w) as [w' [a|]]; reflexivity.
Qed.

Lemma returns_get_bind {B} (k : World -> Handler B) w :
  returns (get ≫= k) w = returns (k w) w.
Proof. reflexivity. Qed.

Lemma returns_ret_bind {A B} (a : A) (k : A -> Handler B) w :
  returns (mret a ≫= k) w = returns (k a) w.
Proof. reflexivity. Qed.

Lemma returns_skip_bind {B} (k : unit -> Handler B) w :
  returns (skip ≫= k) w = returns (k tt) w.
Proof. reflexivity. Qed.

Lemma returns_modify_bind {B} (g : World -> World) (k : unit -> Handler B) w :
  returns (modify g ≫= k) w = returns (k tt) (g w).
Proof. reflexivity. Qed.

Lemma returns_defined_bind {A B} (a : A) (k : A -> Handler B) w :
  returns (defined (Some a) ≫= k) w = returns (k a) w.
Proof. reflexivity. Qed.

Lemma returns_modify (g : World -> World) w : returns (modify g) w = true.
Proof. reflexivity. Qed.

Lemma returns_skip w : returns skip w = true.
Proof. reflexivity. Qed.

(** After a handler that returns, the rest runs in the world it leaves. *)
Lemma returns_seq {B} (m : Handler unit) (k : unit -> Handler B) w :
  returns m w = true -> returns (m ≫= k) w = returns (k tt) (exec m w).
Proof.
  unfold returns, exec. rewrite run_bind.
  destruct (m w) as [w' [[]|]]; [reflexivity|discriminate].
Qed.

Ltac rstep :=
  match goal with
  | |- context [returns (mbind ?k2 (mbind ?k1 ?m)) ?w] =>
      rewrite (returns_assoc m k1 k2 w)
  | |- context [returns (mbind ?k get) ?w] => rewrite (returns_get_bind k w)
  | |- context [returns (mbind ?k (mret ?a)) ?w] =>
      rewrite (returns_ret_bind a k w)
  | |- context [returns (mbind ?k skip) ?w] => rewrite (returns_skip_bind k w)
  | |- context [returns (mbind ?k (modify ?g)) ?w] =>
      rewrite (returns_modify_bind g k w)
  | |- context [returns (mbind ?k (defined (Some ?a))) ?w] =>
      rewrite (returns_defined_bind a k w)
  | |- context [returns (modify ?g) ?w] => rewrite (returns_modify g w)
  | |- context [returns skip ?w] => rewrite (returns_skip w)
  end.

Ltac rsteps := repeat rstep.

(** Reads of the variables through updates of the page. *)
Ltac read_through :=
  cbn [currentAyahIndex currentWordIndex isMcqMode audio heap randomDraws
       with_element with_page with_audio with_optionButtons].

Section Returns.

Variable surahData : Surah.

Lemma displayFlashcard_returns w ayah :
  index (surah_ayahs surahData) (currentAyahIndex w) = Some ayah ->
  returns (displayFlashcard surahData) w = true.
Proof.
  intros Hayah. unfold displayFlashcard, currentAyah, update_element.
  rsteps. rewrite Hayah. rsteps. reflexivity.
Qed.

Lemma playRecitation_returns w ayah :
  index (surah_ayahs surahData) (currentAyahIndex w) = Some ayah ->
  returns (playRecitation surahData) w = true.
Proof.
  intros Hayah. unfold playRecitation, currentAyah, set_audio. rsteps.
  destruct (audio w); rsteps; read_through; rewrite Hayah; rsteps;
    reflexivity.
Qed.

Lemma updateProgress_returns w ayah :
  index (surah_ayahs surahData) (currentAyahIndex w) = Some ayah ->
  returns (updateProgress surahData) w = true.
Proof.
  intros Hayah. unfold updateProgress, currentAyah, update_element. rsteps.
  destruct (isMcqMode w); rsteps; read_through; rewrite ?Hayah; rsteps;
    reflexivity.
Qed.

Lemma updateButtons_returns w ayah :
  index (surah_ayahs surahData) (currentAyahIndex w) = Some ayah ->
  returns (updateButtons surahData) w = true.
Proof.
  intros Hayah. unfold updateButtons, currentAyah, update_element. rsteps.
  destruct (isMcqMode w); rsteps; read_through; rewrite ?Hayah; rsteps;
    reflexivity.
Qed.

Lemma displayMcqWord_returns w ayah word :
  index (surah_ayahs surahData) (currentAyahIndex w) = Some ayah ->
  index (ayah_words ayah) (currentWordIndex w) = Some word ->
  is_Some (heap w !! word_options word) ->
  unit_draws (randomDraws w) ->
  returns (displayMcqWord surahData) w = true.
Proof.
  intros Hayah Hword [xs Hxs] Hdraws.
  unfold displayMcqWord, currentAyah, update_element.
  rsteps. rewrite Hayah. rsteps. rewrite Hword. rsteps.
  match goal with |- returns _ ?w0 = _ => set (w1 := w0) end.
  assert (Hxs1 : heap w1 !! word_options word = Some xs) by exact Hxs.
  rewrite returns_bind, (spread_run _ w1 xs Hxs1). cbn [snd fst exec].
  unfold exec. rewrite (spread_run _ w1 xs Hxs1). cbn [fst].
  set (copy := fresh (dom (heap w1))).
  set (w2 := with_heap _ w1).
  destruct (shuffleArray_in_place copy w2 xs) as (ys & Hret & Hheap & _).
  { apply lookup_insert_eq. }
  { exact Hdraws. }
  rewrite returns_bind, Hret.
  set (w3 := exec (shuffleArray copy) w2) in *.
  unfold set_optionButtons, read_array. rsteps.
  cbn [heap with_optionButtons]. rewrite Hheap, lookup_insert_eq. rsteps.
  apply total_returns, total_forEach. intros option.
  repeat total_step.
Qed.

(** With a valid position, the arrays of the data in place and draws in
    [0, 1), the display is refreshed without error. *)
Lemma displayCurrentContent_returns autoplay w :
  position_ok surahData w ->
  resources_ok surahData w ->
  returns (displayCurrentContent surahData autoplay) w = true.
Proof.
  intros (ayah & Hayah & Hword)%position_ok_iff [Harrays Hdraws].
  assert (Hafter : forall (m : Handler unit),
             preserves position m -> returns m w = true ->
             returns (m ≫= fun _ => updateProgress surahData
                        ≫= fun _ => updateButtons surahData) w = true).
  { intros m Hframe Hm. rewrite returns_seq by done.
    pose proof (Hframe w) as (Ha & _ & _)%position_eq.
    rewrite returns_seq.
    - pose proof (updateProgress_position surahData (exec m w))
        as (Ha' & _ & _)%position_eq.
      eapply updateButtons_returns. by rewrite Ha', Ha.
    - eapply updateProgress_returns. by rewrite Ha. }
  unfold displayCurrentContent. rewrite returns_get_bind.
  destruct (isMcqMode w) eqn:Hmode.
  - apply Hafter; [apply displayMcqWord_position|].
    specialize (Hword eq_refl).
    destruct (index_is_Some (ayah_words ayah) (currentWordIndex w) Hword)
      as [word Hw].
    eapply displayMcqWord_returns; [done..| |done].
    apply (Harrays ayah).
    + unfold index in Hayah. destruct (_ <? 0); [done|].
      by eapply list_elem_of_lookup_2.
    + unfold index in Hw. destruct (_ <? 0); [done|].
      by eapply list_elem_of_lookup_2.
  - apply Hafter.
    + frame; auto using displayFlashcard_position, playRecitation_position.
    + rewrite returns_seq by by eapply displayFlashcard_returns.
      destruct autoplay; [|done].
      eapply playRecitation_returns.
      pose proof (displayFlashcard_position surahData w)
        as (Ha & _ & _)%position_eq.
      by rewrite Ha.
Qed.

Lemma position_ok_frame w w' :
  position w' = position w ->
  position_ok surahData w -> position_ok surahData w'.
Proof.
  unfold position_ok, ayahIndex_valid, wordIndex_valid.
  intros (-> & -> & ->)%position_eq. done.
Qed.

End Returns.

(** Closes [returns (displayCurrentContent ...) w' = true] where [w'] is the
    world after the assignments of a navigation function, whose position
    [Hpos] gives. *)
Ltac display_returns Hpos Hmode :=
  match goal with
  | Hres : resources_ok _ _, Hok : position_ok _ (exec _ _) |- _ =>
      apply displayCurrentContent_returns; [|exact Hres];
      eapply position_ok_frame; [|exact Hok];
      rewrite Hpos; unfold position;
      cbn [currentAyahIndex currentWordIndex isMcqMode
           with_currentAyahIndex with_currentWordIndex with_isMcqMode
           with_element with_page];
      by rewrite ?Hmode
  end.

Section NavigationReturns.

Variable surahData : Surah.

Lemma goNext_returns w :
  well_formed surahData = true ->
  session_ok surahData w ->
  returns (goNext surahData) w = true.
Proof.
  intros Hwf [Hok Hres].
  pose proof (goNext_position_ok surahData w Hwf Hok) as Hok'.
  pose proof (goNext_position surahData w) as Hpos.
  apply position_ok_iff in Hok as (ayah & Hayah & _).
  unfold goNext, currentAyah, set_currentAyahIndex, set_currentWordIndex.
  rewrite Hayah in Hpos. rsteps.
  destruct (isMcqMode w) eqn:Hmode.
  - rsteps. rewrite Hayah. rsteps.
    repeat case_match; rsteps; try reflexivity; display_returns Hpos Hmode.
  - case_match; rsteps; display_returns Hpos Hmode.
Qed.

Lemma goPrev_returns w :
  well_formed surahData = true ->
  session_ok surahData w ->
  returns (goPrev surahData) w = true.
Proof.
  intros Hwf [Hok Hres].
  pose proof (goPrev_position_ok surahData w Hwf Hok) as Hok'.
  pose proof (goPrev_position surahData w) as Hpos.
  apply position_ok_iff in Hok as (ayah & Hayah & _).
  apply index_Some in Hayah.
  unfold goPrev, currentAyah, set_currentAyahIndex, set_currentWordIndex.
  rsteps.
  destruct (isMcqMode w) eqn:Hmode.
  - destruct (currentWordIndex w >? 0).
    { rsteps. display_returns Hpos Hmode. }
    destruct (currentAyahIndex w >? 0) eqn:Hai; [|reflexivity].
    rsteps. cbn [currentAyahIndex with_currentAyahIndex].
    destruct (index_is_Some (surah_ayahs surahData) (currentAyahIndex w - 1))
      as [ayah' Hayah']; [lia|].
    rewrite Hayah' in Hpos |- *. rsteps. display_returns Hpos Hmode.
  - destruct (currentAyahIndex w >? 0); [|reflexivity].
    rsteps. display_returns Hpos Hmode.
Qed.

Lemma switchMode_returns b w :
  well_formed surahData = true ->
  session_ok surahData w ->
  returns (switchMode surahData b) w = true.
Proof.
  intros Hwf [Hok Hres].
  pose proof (switchMode_position_ok surahData b w Hwf Hok) as Hok'.
  pose proof (switchMode_position surahData b w) as Hpos.
  assert (Hmode : true = true) by reflexivity.
  unfold switchMode, update_element, set_isMcqMode, set_currentWordIndex.
  rsteps. destruct b; cbn [isMcqMode with_isMcqMode]; rsteps;
    display_returns Hpos Hmode.
Qed.

(** In a session with a well-formed corpus, a valid position, the arrays of
    the data in place and draws in [0, 1), the three navigation functions
    run to their end, and they leave such a session. *)
Lemma navigation_returns w :
  well_formed surahData = true ->
  session_ok surahData w ->
  (returns (goNext surahData) w = true
   /\ session_ok surahData (exec (goNext surahData) w))
  /\ (returns (goPrev surahData) w = true
      /\ session_ok surahData (exec (goPrev surahData) w))
  /\ forall b,
       returns (switchMode surahData b) w = true
       /\ session_ok surahData (exec (switchMode surahData b) w).
Proof.
  intros Hwf Hsession. pose proof Hsession as [Hok Hres].
  split; [|split; [|intros b]]; (split; [|split]);
    auto using goNext_returns, goPrev_returns, switchMode_returns,
      goNext_position_ok, goPrev_position_ok, switchMode_position_ok.
  - by apply goNext_resources.
  - by apply goPrev_resources.
  - by apply switchMode_resources.
Qed.

End NavigationReturns.

(** * The properties on the small session *)

(** The scenario of two verses in quiz mode: forwards from the first word
    to the last, where [goNext] stays, and back to the first, where [goPrev]
    stays. *)
Example quiz_scenario :
  let next w := exec (goNext two_verses) w in
  let prev w := exec (goPrev two_verses) w in
  let w0 := sample_at 0 0 true in
  position (next w0) = (0, 1, true)
  /\ position (next (next w0)) = (1, 0, true)
  /\ position (next (next (next w0))) = (1, 0, true)
  /\ position (prev (next (next w0))) = (0, 1, true)
  /\ position (prev (prev (next (next w0)))) = (0, 0, true)
  /\ position (prev (prev (prev (next (next w0))))) = (0, 0, true).
Proof. vm_compute. repeat split. Qed.

(** The scenario of three verses in flashcard mode: the third [goNext]
    restarts. *)
Example review_scenario :
  let next w := exec (goNext three_verses) w in
  position (next sample_start) = (1, 0, false)
  /\ position (next (next sample_start)) = (2, 0, false)
  /\ position (next (next (next sample_start))) = (0, 0, false).
Proof. vm_compute. repeat split. Qed.

(** The small session is one in which the script runs without error. *)
Example sample_session_ok :
  well_formed two_verses = true /\ session_ok two_verses sample_start.
Proof.
  split; [reflexivity|]. split; [split; [reflexivity|discriminate]|].
  split; [|intros n; reflexivity].
  intros ayah word Hayah Hword. cbn in Hayah.
  apply elem_of_cons in Hayah as [->|Hayah].
  - cbn in Hword. apply elem_of_cons in Hword as [->|Hword]; [by eexists|].
    apply list_elem_of_singleton in Hword as ->. by eexists.
  - apply list_elem_of_singleton in Hayah as ->. cbn in Hword.
    apply list_elem_of_singleton in Hword as ->. by eexists.
Qed.

Lemma goNext_quiz_witness :
  isMcqMode (sample_at 0 1 true) = true
  /\ wordIndex_valid two_verses (sample_at 0 1 true) = true
  /\ position (exec (goNext two_verses) (sample_at 0 1 true)) = (1, 0, true).
Proof.
  split; [reflexivity|]. split; [reflexivity|].
  exact (goNext_quiz two_verses (sample_at 0 1 true) eq_refl eq_refl).
Defined.

Lemma goPrev_quiz_witness :
  isMcqMode (sample_at 1 0 true) = true
  /\ wordIndex_valid two_verses (sample_at 1 0 true) = true
  /\ position (exec (goPrev two_verses) (sample_at 1 0 true)) = (0, 1, true).
Proof.
  split; [reflexivity|]. split; [reflexivity|].
  exact (proj1 (goPrev_quiz two_verses (sample_at 1 0 true) eq_refl eq_refl)).
Defined.

Lemma goPrev_goNext_witness :
  isMcqMode (sample_at 0 1 true) = true
  /\ wordIndex_valid two_verses (sample_at 0 1 true) = true
  /\ atLastWord two_verses (sample_at 0 1 true) = false
  /\ position (exec (goPrev two_verses)
                 (exec (goNext two_verses) (sample_at 0 1 true)))
     = position (sample_at 0 1 true).
Proof.
  split; [reflexivity|]. split; [reflexivity|]. split; [reflexivity|].
  exact (goPrev_goNext two_verses (sample_at 0 1 true) eq_refl eq_refl eq_refl).
Defined.

Lemma review_navigation_witness :
  isMcqMode (sample_at 2 0 false) = false
  /\ currentAyahIndex (sample_at 2 0 false) = lastAyahIndex three_verses
  /\ position (exec (goNext three_verses) (sample_at 2 0 false)) = (0, 0, false)
  /\ position (exec (goPrev three_verses) (sample_at 2 0 false)) = (1, 0, false)
  /\ position (exec (goPrev three_verses) (sample_at 0 0 false)) = (0, 0, false)
  /\ position (exec (goNext three_verses) (sample_at 0 0 false)) = (1, 0, false).
Proof.
  pose proof (review_navigation three_verses (sample_at 2 0 false) eq_refl)
    as (Hlast & _ & _ & Hprev).
  pose proof (review_navigation three_verses (sample_at 0 0 false) eq_refl)
    as (_ & Hfirst & Hnext & _).
  split; [reflexivity|]. split; [reflexivity|].
  split; [exact (Hlast eq_refl)|].
  split; [exact (Hprev eq_refl)|].
  split; [exact (Hfirst eq_refl)|].
  exact (Hnext eq_refl).
Defined.

Lemma navigation_frame_witness :
  isMcqMode (sample_at 0 1 false) = false
  /\ currentWordIndex (exec (goNext two_verses) (sample_at 0 1 false)) = 1
  /\ currentWordIndex (exec (goPrev two_verses) (sample_at 0 1 false)) = 1
  /\ isMcqMode (exec (handle two_verses (KeyDown "ArrowRight"))
                  (sample_at 0 1 false)) = false.
Proof.
  pose proof (navigation_frame two_verses (sample_at 0 1 false))
    as (Hword & _ & _ & Hevents).
  destruct (Hword eq_refl) as [Hnext Hprev].
  split; [reflexivity|]. split; [exact Hnext|]. split; [exact Hprev|].
  apply Hevents; discriminate.
Defined.

(** C6 as stated fails: a word index chosen in quiz mode stays as it is in
    flashcard mode, where [goNext] can move to a shorter verse.  Here the
    second word of the first verse is reached in quiz mode; after a switch to
    flashcard mode, [goNext] arrives at the second verse, which has one
    word, with word index 1. *)
Lemma reachable_wordIndex_invalid :
  let w :=
    exec (goNext two_verses)
      (exec (switchMode two_verses false)
         (exec (goNext two_verses)
            (exec (switchMode two_verses true) sample_start))) in
  well_formed two_verses = true
  /\ initial sample_start
  /\ reachable two_verses sample_start w
  /\ position w = (1, 1, false)
  /\ lastWordIndex two_verses w = 0
  /\ wordIndex_valid two_verses w = false.
Proof.
  intros w. split; [reflexivity|]. split; [reflexivity|].
  split.
  { unfold w.
    apply reachable_next, reachable_switch, reachable_next, reachable_switch,
      reachable_start. }
  split; [vm_compute; reflexivity|].
  split; vm_compute; reflexivity.
Qed.

Lemma reachable_position_ok_witness :
  let w :=
    exec (goNext two_verses) (exec (switchMode two_verses true) sample_start) in
  well_formed two_verses = true
  /\ initial sample_start
  /\ reachable two_verses sample_start w
  /\ ayahIndex_valid two_verses w = true
  /\ (isMcqMode w = true -> wordIndex_valid two_verses w = true).
Proof.
  intros w.
  assert (Hreach : reachable two_verses sample_start w).
  { unfold w. apply reachable_next, reachable_switch, reachable_start. }
  split; [reflexivity|]. split; [reflexivity|]. split; [exact Hreach|].
  exact (reachable_position_ok two_verses sample_start w eq_refl eq_refl Hreach).
Defined.

Lemma half_draws_unit : unit_draws half_draws.
Proof. intros n. reflexivity. Defined.

Lemma shuffled_copy_witness :
  heap sample_start !! 1%positive = Some sample_options
  /\ unit_draws (randomDraws sample_start)
  /\ exists copy ys,
       snd ((spread 1%positive ≫= shuffleArray) sample_start) = Some copy
       /\ heap sample_start !! copy = None
       /\ heap (exec (spread 1%positive ≫= shuffleArray) sample_start) !! copy
          = Some ys
       /\ ys ≡ₚ sample_options
       /\ heap (exec (spread 1%positive ≫= shuffleArray) sample_start)
            !! 1%positive = Some sample_options
       /\ forall l, l <> copy ->
            heap (exec (spread 1%positive ≫= shuffleArray) sample_start) !! l
            = heap sample_start !! l.
Proof.
  split; [reflexivity|]. split; [exact half_draws_unit|].
  exact (shuffled_copy sample_start 1%positive sample_options eq_refl
           half_draws_unit).
Defined.

(** The double next below 2/3 at step 2: the exact product, [2 - 2 ^ -53],
    lies half way between two doubles and is rounded to 2, so that the
    index is 2; the draw 0.5 gives the index 1. *)
Example scaled_two_thirds :
  scaled two_thirds 2 = 2%nat /\ scaled (half_draws 0%nat) 2 = 1%nat.
Proof. split; reflexivity. Qed.

Lemma shuffleArray_one_choice_witness :
  Z.of_nat 3 < 2 ^ 32
  /\ [2; 0; 1]%nat ≡ₚ seq 0 3
  /\ exists js,
       reaches 3 [2; 0; 1]%nat js
       /\ forall js', reaches 3 [2; 0; 1]%nat js' -> js' = js.
Proof.
  assert (Hn : Z.of_nat 3 < 2 ^ 32) by reflexivity.
  assert (Hperm : [2; 0; 1]%nat ≡ₚ seq 0 3).
  { apply (bool_decide_unpack _). vm_compute. exact I. }
  split; [exact Hn|]. split; [exact Hperm|].
  exact (proj1 (shuffleArray_one_choice 3 Hn) _ Hperm).
Defined.

(** The choices of the witness: 1 at step 2, then 0 at step 1; on the
    array of "a", "b", "c" they give "c", "a", "b". *)
Example shuffled_c_a_b :
  shuffled [1; 0]%nat 2 (seq 0 3) = Some [2; 0; 1]%nat
  /\ arranged [2; 0; 1]%nat ["a"; "b"; "c"] = ["c"; "a"; "b"]
  /\ shuffled [1; 0]%nat 2 ["a"; "b"; "c"] = Some ["c"; "a"; "b"].
Proof. repeat split. Qed.

Lemma checkAnswer_effect_witness :
  let w := exec (switchMode two_verses true) sample_start in
  let right := exec (checkAnswer "In the name" "In the name" 0) w in
  let wrong := exec (checkAnswer "Mercy" "In the name" 1) w in
  "In the name" = "In the name"
  /\ "Mercy" <> "In the name"
  /\ timers right = [{| timer_callback := CallGoNext; timer_delay := 1000 |}]
  /\ timers wrong = []
  /\ textContent (page wrong mcqFeedback) = "✗ Correct answer: In the name".
Proof.
  intros w right wrong.
  assert (Hne : "Mercy" <> "In the name") by discriminate.
  destruct (checkAnswer_effect "In the name" "In the name" 0 w)
    as (_ & _ & Hright & _).
  destruct (Hright eq_refl) as (_ & _ & Htimer & _).
  destruct (checkAnswer_effect "Mercy" "In the name" 1 w)
    as (_ & _ & _ & Hwrong).
  destruct (Hwrong Hne) as (_ & _ & Hfeedback & Hnone).
  split; [reflexivity|]. split; [exact Hne|].
  split; [exact Htimer|]. split; [exact Hnone|]. exact Hfeedback.
Defined.

(** * Further properties of the script *)

(** ** What the handlers leave alone *)

Section WriterFrames.

Context {T : Type} (f : World -> T).

(** The observation does not read the heap nor the draws. *)
Hypothesis f_heap : forall h w, f (with_heap h w) = f w.
Hypothesis f_draws : forall r w, f (with_randomDraws r w) = f w.

Lemma write_array_frame l xs : preserves f (write_array l xs).
Proof.
  unfold write_array, set_heap. frame.
  apply preserves_modify. intros w. apply f_heap.
Qed.

Lemma Math_random_frame : preserves f Math_random.
Proof.
  unfold Math_random, set_randomDraws. frame.
  apply preserves_modify. intros w. apply f_draws.
Qed.

Lemma shuffle_loop_frame l i : preserves f (shuffle_loop l i).
Proof.
  induction i as [|i IH]; simpl; [apply preserves_skip|].
  unfold swap, read_array. frame;
    auto using Math_random_frame, write_array_frame.
Qed.

Lemma shuffleArray_frame l : preserves f (shuffleArray l).
Proof. unfold shuffleArray, read_array. frame. apply shuffle_loop_frame. Qed.

Lemma spread_frame l : preserves f (spread l).
Proof. unfold spread, read_array. frame. apply write_array_frame. Qed.

End WriterFrames.

(** Unfolds the functions of the script down to reads and assignments;
    [spread] and [shuffleArray] are left for their frame lemmas. *)
Ltac unfold_script :=
  unfold goNext, goPrev, switchMode, flipCard, checkAnswer, loadSurahData,
    displayCurrentContent, displayMcqWord, displayFlashcard, updateProgress,
    updateButtons, playRecitation, currentAyah, playSuccessSound, setTimeout,
    querySelectorAll_mcq_option, update_button, update_element, read_array,
    set_currentAyahIndex, set_currentWordIndex, set_isMcqMode, set_audio,
    set_optionButtons, set_timers, set_chimes.

(** Proves [preserves f m] for an observation [f] that no assignment of [m]
    changes. *)
Ltac observe :=
  unfold_script; frame;
  try (first [apply shuffleArray_frame | apply spread_frame];
       intros; reflexivity).

Section Untouched.

Variable surahData : Surah.

Lemma displayCurrentContent_timers a :
  preserves timers (displayCurrentContent surahData a).
Proof. observe. Qed.

Lemma goNext_timers : preserves timers (goNext surahData).
Proof. observe. Qed.

Lemma goPrev_timers : preserves timers (goPrev surahData).
Proof. observe. Qed.

Lemma switchMode_timers b : preserves timers (switchMode surahData b).
Proof. observe. Qed.

Lemma flipCard_timers : preserves timers flipCard.
Proof. observe. Qed.

Lemma playRecitation_timers : preserves timers (playRecitation surahData).
Proof. observe. Qed.

End Untouched.

Section Composition.

Variable surahData : Surah.

(** The position after a navigation depends on the position only. *)
Lemma navigate_position_congr n w w' :
  position w = position w' ->
  position (exec (navigate surahData n) w)
  = position (exec (navigate surahData n) w').
Proof.
  intros Hpos. pose proof Hpos as (Ha & Hw & Hm)%position_eq.
  destruct n as [| |b]; cbn [navigate].
  - rewrite !goNext_position. unfold position. by rewrite Ha, Hw, Hm.
  - rewrite !goPrev_position. unfold position. by rewrite Ha, Hw, Hm.
  - rewrite !switchMode_position. by rewrite Ha, Hw.
Qed.

Lemma navigate_timers n : preserves timers (navigate surahData n).
Proof.
  destruct n; cbn [navigate];
    auto using goNext_timers, goPrev_timers, switchMode_timers.
Qed.

Lemma checkAnswer_timers_correct selected buttonElement w :
  timers (exec (checkAnswer selected selected buttonElement) w)
  = (timers w ++ [{| timer_callback := CallGoNext; timer_delay := 1000 |}])%list.
Proof.
  rewrite checkAnswer_split, String.eqb_refl.
  unfold update_button, update_element, playSuccessSound, setTimeout,
    set_optionButtons, set_chimes, set_timers.
  steps.
  cbn [timers with_timers with_chimes with_element with_page
       with_optionButtons].
  f_equal. by apply (forEach_update_button_frame timers).
Qed.

(** X1. Navigation never cancels the advance that a correct answer has
    scheduled: after [checkAnswer] with equal strings and then [goNext],
    [goPrev] or [switchMode], the timer is still pending, and when it
    expires [goNext] runs from wherever the navigation has led. *)
Theorem pending_advance_survives_navigation n selected buttonElement w :
  let answered := exec (checkAnswer selected selected buttonElement) w in
  let moved := exec (navigate surahData n) answered in
  timers moved
  = (timers w ++ [{| timer_callback := CallGoNext; timer_delay := 1000 |}])%list
  /\ position (exec (handle surahData (TimerExpires (length (timers w)))) moved)
     = position (exec (goNext surahData) (exec (navigate surahData n) w)).
Proof.
  intros answered moved.
  assert (Htimers : timers moved
            = (timers w
                 ++ [{| timer_callback := CallGoNext; timer_delay := 1000 |}])%list).
  { unfold moved. rewrite navigate_timers. apply checkAnswer_timers_correct. }
  split; [exact Htimers|].
  unfold handle. rewrite exec_get_bind, Htimers.
  rewrite list_lookup_middle by done.
  unfold set_timers, run_callback. steps. cbn [timer_callback].
  apply (navigate_position_congr Next).
  transitivity (position moved); [reflexivity|].
  unfold moved. apply navigate_position_congr, checkAnswer_position.
Qed.

(** *** The recitation *)

Lemma displayCurrentContent_silent :
  preserves audio (displayCurrentContent surahData false).
Proof.
  unfold displayCurrentContent.
  apply preserves_bind; [apply preserves_get|intros w0].
  apply preserves_bind; [|intros; observe].
  destruct (isMcqMode w0); [observe|].
  apply preserves_bind; [observe|intros; apply preserves_skip].
Qed.

Lemma displayCurrentContent_mcq_audio a w :
  isMcqMode w = true ->
  audio (exec (displayCurrentContent surahData a) w) = audio w.
Proof.
  intros Hmode. unfold displayCurrentContent. rewrite exec_get_bind, Hmode.
  assert (Hpres : preserves audio
            (displayMcqWord surahData ≫= fun _ =>
               updateProgress surahData ≫= fun _ => updateButtons surahData))
    by observe.
  apply Hpres.
Qed.

(** X2. A recitation starts only through flashcard navigation or the play
    button: [switchMode] leaves the player as it is, and so do [goNext] and
    [goPrev] in quiz mode, [checkAnswer] and [flipCard]. *)
Theorem recitation_not_started w :
  (forall b, audio (exec (switchMode surahData b) w) = audio w)
  /\ (isMcqMode w = true ->
        audio (exec (goNext surahData) w) = audio w
        /\ audio (exec (goPrev surahData) w) = audio w)
  /\ (forall selected correct buttonElement,
        audio (exec (checkAnswer selected correct buttonElement) w) = audio w)
  /\ audio (exec flipCard w) = audio w.
Proof.
  split_and!.
  - intros b.
    unfold switchMode, update_element, set_isMcqMode, set_currentWordIndex.
    steps. destruct b; cbn [isMcqMode with_isMcqMode]; steps;
      by rewrite displayCurrentContent_silent.
  - intros Hmode. split.
    + unfold goNext, currentAyah, set_currentAyahIndex, set_currentWordIndex.
      steps. rewrite Hmode. steps.
      destruct (index _ _) as [ayah|]; [|reflexivity].
      repeat case_match; steps; try reflexivity;
        by rewrite displayCurrentContent_mcq_audio.
    + unfold goPrev, currentAyah, set_currentAyahIndex, set_currentWordIndex.
      steps. rewrite Hmode.
      destruct (currentWordIndex w >? 0).
      { steps. by rewrite displayCurrentContent_mcq_audio. }
      destruct (currentAyahIndex w >? 0); [|reflexivity].
      steps. cbn [currentAyahIndex with_currentAyahIndex].
      destruct (index _ _) as [ayah|]; steps; [|reflexivity].
      by rewrite displayCurrentContent_mcq_audio.
  - intros selected correct buttonElement.
    assert (Hpres : preserves audio
              (checkAnswer selected correct buttonElement)) by observe.
    apply Hpres.
  - assert (Hpres : preserves audio flipCard) by observe. apply Hpres.
Qed.

End Composition.

(** ** Classes *)

Lemma has_class_remove c el : has_class c (classList_remove c el) = false.
Proof.
  unfold has_class, classList_remove. cbn [classList with_classList].
  apply bool_decide_eq_false. rewrite list_elem_of_filter.
  intros [Hne _]. by apply Hne.
Qed.

Lemma has_class_force c force el :
  has_class c (classList_force c force el) = force.
Proof.
  destruct force; cbn [classList_force];
    [apply has_class_add|apply has_class_remove].
Qed.

Lemma has_class_toggle c el :
  has_class c (classList_toggle c el) = negb (has_class c el).
Proof.
  unfold classList_toggle. destruct (has_class c el) eqn:Hc; cbn [negb].
  - apply has_class_remove.
  - apply has_class_add.
Qed.

(** After a handler that returns, the rest runs in the world it leaves. *)
Lemma exec_seq {B} (m : Handler unit) (k : unit -> Handler B) w :
  returns m w = true -> exec (m ≫= k) w = exec (k tt) (exec m w).
Proof.
  unfold returns, exec. rewrite run_bind.
  destruct (m w) as [w' [[]|]]; [reflexivity|discriminate].
Qed.

(** What follows a handler does not matter to an observation it leaves
    alone. *)
Lemma exec_after {T A B} (f : World -> T) (m : Handler A)
    (k : A -> Handler B) w :
  (forall a, preserves f (k a)) -> f (exec (m ≫= k) w) = f (exec m w).
Proof.
  intros Hk. rewrite exec_bind. destruct (snd (m w)) as [a|]; [apply Hk|done].
Qed.

Section Card.

Variable surahData : Surah.

(** X3. [flipCard] does nothing at all in quiz mode.  In flashcard mode it
    turns the card over: the class [flipped] of the card is there afterwards
    exactly if it was not there before, so that two flips cancel.  In either
    mode no other element and no part of the position changes. *)
Theorem flipCard_effect w :
  (isMcqMode w = true -> exec flipCard w = w)
  /\ (isMcqMode w = false ->
        has_class "flipped" (page (exec flipCard w) flashcard)
        = negb (has_class "flipped" (page w flashcard))
        /\ has_class "flipped" (page (exec flipCard (exec flipCard w)) flashcard)
           = has_class "flipped" (page w flashcard))
  /\ (forall e, e <> flashcard -> page (exec flipCard w) e = page w e)
  /\ position (exec flipCard w) = position w.
Proof.
  assert (Hflip : forall w0, isMcqMode w0 = false ->
            has_class "flipped" (page (exec flipCard w0) flashcard)
            = negb (has_class "flipped" (page w0 flashcard))).
  { intros w0 Hmode. unfold flipCard, update_element. steps.
    rewrite Hmode. cbn [negb]. steps.
    cbn [page with_element with_page]. rewrite decide_True by done.
    apply has_class_toggle. }
  split_and!.
  - intros Hmode. unfold flipCard. rewrite exec_get_bind, Hmode. reflexivity.
  - intros Hmode. split; [by apply Hflip|].
    rewrite Hflip.
    + rewrite Hflip by done. apply negb_involutive.
    + pose proof (flipCard_position w) as (_ & _ & Hm)%position_eq. congruence.
  - intros e He. unfold flipCard, update_element. steps.
    destruct (negb (isMcqMode w)); steps; [|done].
    cbn [page with_element with_page]. by rewrite decide_False.
  - apply flipCard_position.
Qed.

Lemma displayFlashcard_front w ayah :
  index (surah_ayahs surahData) (currentAyahIndex w) = Some ayah ->
  has_class "flipped" (page (exec (displayFlashcard surahData) w) flashcard)
  = false.
Proof.
  intros Hayah. unfold displayFlashcard, currentAyah, update_element.
  steps. rewrite Hayah. steps.
  cbn [page with_element with_page]. rewrite decide_True by done.
  apply has_class_remove.
Qed.

Lemma displayCurrentContent_front a w ayah :
  isMcqMode w = false ->
  index (surah_ayahs surahData) (currentAyahIndex w) = Some ayah ->
  has_class "flipped"
    (page (exec (displayCurrentContent surahData a) w) flashcard) = false.
Proof.
  intros Hmode Hayah. unfold displayCurrentContent.
  rewrite exec_get_bind, Hmode.
  rewrite (exec_after (fun w => has_class "flipped" (page w flashcard)))
    by (intros; observe).
  rewrite (exec_after (fun w => has_class "flipped" (page w flashcard))).
  - by eapply displayFlashcard_front.
  - intros _. destruct a; [observe|apply preserves_skip].
Qed.

(** X4. Flashcard navigation always shows the front of the card: from a
    verse of the corpus, after [goNext], after a [goPrev] that moves, and
    after [switchMode(false)], the card is not flipped, whether it was
    before or not. *)
Theorem navigation_shows_front w :
  ayahIndex_valid surahData w = true ->
  (isMcqMode w = false ->
     has_class "flipped" (page (exec (goNext surahData) w) flashcard) = false
     /\ (0 < currentAyahIndex w ->
         has_class "flipped" (page (exec (goPrev surahData) w) flashcard)
         = false))
  /\ has_class "flipped" (page (exec (switchMode surahData false) w) flashcard)
     = false.
Proof.
  intros Hvalid. unfold ayahIndex_valid in Hvalid.
  apply andb_true_iff in Hvalid as [Hlow Hhigh].
  assert (Hsome : forall i, 0 <= i < len (surah_ayahs surahData) ->
            is_Some (index (surah_ayahs surahData) i))
    by (intros; by apply index_is_Some).
  split.
  - intros Hmode. split.
    + unfold goNext, set_currentAyahIndex. steps. rewrite Hmode.
      destruct (currentAyahIndex w <? len (surah_ayahs surahData) - 1)
        eqn:Hlt; steps.
      * destruct (Hsome (currentAyahIndex w + 1)) as [ayah Hayah]; [lia|].
        by eapply displayCurrentContent_front.
      * destruct (Hsome 0) as [ayah Hayah]; [lia|].
        by eapply displayCurrentContent_front.
    + intros Hpos. unfold goPrev, set_currentAyahIndex. steps. rewrite Hmode.
      destruct (currentAyahIndex w >? 0) eqn:Hgt; [|lia]. steps.
      destruct (Hsome (currentAyahIndex w - 1)) as [ayah Hayah]; [lia|].
      by eapply displayCurrentContent_front.
  - unfold switchMode, update_element, set_isMcqMode. steps.
    cbn [isMcqMode with_isMcqMode]. steps.
    destruct (Hsome (currentAyahIndex w)) as [ayah Hayah]; [lia|].
    by eapply displayCurrentContent_front.
Qed.

(** X5. After [switchMode(b)] the tabs and the views match the mode: the
    flashcard tab is active and the flashcard view and the play button are
    visible exactly in flashcard mode, the quiz tab is active and the quiz
    view and the answers are visible exactly in quiz mode. *)
Theorem switchMode_views b w :
  let w' := exec (switchMode surahData b) w in
  isMcqMode w' = b
  /\ has_class "active" (page w' tabFlashcard) = negb b
  /\ has_class "active" (page w' tabMcq) = b
  /\ has_class "hidden" (page w' flashcardView) = b
  /\ has_class "hidden" (page w' mcqView) = negb b
  /\ has_class "hidden" (page w' mcqAnswers) = negb b
  /\ has_class "hidden" (page w' playAudioBtn) = b.
Proof.
  intros w'. split.
  { pose proof (switchMode_position surahData b w) as (_ & _ & Hm)%position_eq.
    exact Hm. }
  assert (Hpage : forall e w0,
            e ∈ [tabFlashcard; tabMcq; flashcardView; mcqView; mcqAnswers;
                 playAudioBtn] ->
            page (exec (displayCurrentContent surahData false) w0) e
            = page w0 e).
  { intros e w0 He.
    assert (Hpres : preserves (fun w => page w e)
              (displayCurrentContent surahData false)); [|apply Hpres].
    repeat (apply elem_of_cons in He as [->|He]); [observe..|].
    by apply elem_of_nil in He. }
  unfold w', switchMode, update_element, set_isMcqMode, set_currentWordIndex.
  steps. cbn [isMcqMode with_isMcqMode].
  destruct b; steps;
    rewrite !Hpage by (rewrite !elem_of_cons; tauto);
    cbn [page with_element with_page with_currentWordIndex with_isMcqMode];
    rewrite ?decide_True by done;
    split_and!;
    repeat (rewrite decide_False by done; rewrite ?decide_True by done);
    apply has_class_force.
Qed.

End Card.

(** ** The quiz walks the words in reading order *)

Section Walk.

Variable surahData : Surah.

Lemma wordsBefore_S n ayah :
  surah_ayahs surahData !! n = Some ayah ->
  wordsBefore surahData (S n)
  = wordsBefore surahData n + len (ayah_words ayah).
Proof.
  intros Hayah. unfold wordsBefore, len.
  rewrite (take_S_r _ _ _ Hayah), sum_list_with_app. simpl. lia.
Qed.

Lemma wordsBefore_le n m :
  (n <= m)%nat -> wordsBefore surahData n <= wordsBefore surahData m.
Proof.
  intros Hnm. induction Hnm as [|m _ IH]; [lia|].
  destruct (surah_ayahs surahData !! m) as [ayah|] eqn:Hayah.
  - rewrite (wordsBefore_S _ _ Hayah). unfold len. lia.
  - apply lookup_ge_None in Hayah.
    assert (Hsame : wordsBefore surahData (S m) = wordsBefore surahData m).
    { unfold wordsBefore. by rewrite !take_ge by lia. }
    lia.
Qed.

Lemma index_lookup {A} (a : list A) i x :
  index a i = Some x -> 0 <= i /\ a !! Z.to_nat i = Some x.
Proof.
  unfold index. destruct (i <? 0) eqn:Hi; [done|]. intros Hx. split; [lia|done].
Qed.

(** A valid position lies in the stretch of word numbers of its verse. *)
Lemma wordNumber_range w ayah :
  index (surah_ayahs surahData) (currentAyahIndex w) = Some ayah ->
  0 <= currentWordIndex w < len (ayah_words ayah) ->
  wordsBefore surahData (Z.to_nat (currentAyahIndex w)) <= wordNumber surahData w
  /\ wordNumber surahData w
     < wordsBefore surahData (S (Z.to_nat (currentAyahIndex w)))
  /\ wordsBefore surahData (S (Z.to_nat (currentAyahIndex w)))
     <= totalWords surahData.
Proof.
  intros [Ha Hayah]%index_lookup Hw. unfold wordNumber, totalWords.
  rewrite (wordsBefore_S _ _ Hayah). split_and!; [lia..|].
  rewrite <- (wordsBefore_S _ _ Hayah). apply wordsBefore_le.
  apply lookup_lt_Some in Hayah. lia.
Qed.

Lemma wordIndex_valid_inv w :
  wordIndex_valid surahData w = true ->
  exists ayah,
    index (surah_ayahs surahData) (currentAyahIndex w) = Some ayah
    /\ 0 <= currentWordIndex w < len (ayah_words ayah).
Proof.
  unfold wordIndex_valid. destruct (index _ _) as [ayah|]; [|done].
  intros Hw. exists ayah. split; [done|lia].
Qed.

Lemma quiz_valid_after_goNext w :
  well_formed surahData = true ->
  isMcqMode w = true ->
  wordIndex_valid surahData w = true ->
  isMcqMode (exec (goNext surahData) w) = true
  /\ wordIndex_valid surahData (exec (goNext surahData) w) = true.
Proof.
  intros Hwf Hmode Hvalid.
  assert (Hok : position_ok surahData w).
  { split; [|done]. apply wordIndex_valid_inv in Hvalid as (ayah & Hayah & _).
    apply index_Some in Hayah. unfold ayahIndex_valid. lia. }
  apply (goNext_position_ok _ _ Hwf) in Hok as [_ Hok].
  rewrite goNext_mode. split; [done|]. apply Hok. by rewrite goNext_mode.
Qed.

Lemma quiz_valid_after_goPrev w :
  well_formed surahData = true ->
  isMcqMode w = true ->
  wordIndex_valid surahData w = true ->
  isMcqMode (exec (goPrev surahData) w) = true
  /\ wordIndex_valid surahData (exec (goPrev surahData) w) = true.
Proof.
  intros Hwf Hmode Hvalid.
  assert (Hok : position_ok surahData w).
  { split; [|done]. apply wordIndex_valid_inv in Hvalid as (ayah & Hayah & _).
    apply index_Some in Hayah. unfold ayahIndex_valid. lia. }
  apply (goPrev_position_ok _ _ Hwf) in Hok as [_ Hok].
  rewrite goPrev_mode. split; [done|]. apply Hok. by rewrite goPrev_mode.
Qed.

Lemma wordNumber_goNext w :
  well_formed surahData = true ->
  isMcqMode w = true ->
  wordIndex_valid surahData w = true ->
  wordNumber surahData (exec (goNext surahData) w)
  = Z.min (wordNumber surahData w + 1) (totalWords surahData - 1).
Proof.
  intros Hwf Hmode Hvalid.
  destruct (quiz_valid_after_goNext w Hwf Hmode Hvalid) as [_ Hvalid'].
  apply wordIndex_valid_inv in Hvalid' as (ayah' & Hayah' & Hw').
  pose proof (wordNumber_range _ _ Hayah' Hw') as Hrange'.
  apply wordIndex_valid_inv in Hvalid as (ayah & Hayah & Hw).
  pose proof (wordNumber_range _ _ Hayah Hw) as Hrange.
  pose proof (goNext_position surahData w) as Hpos.
  rewrite Hmode, Hayah in Hpos.
  apply index_lookup in Hayah as [Ha Hayah].
  pose proof (wordsBefore_S _ _ Hayah) as HS.
  unfold wordNumber in *.
  destruct (currentWordIndex w <? len (ayah_words ayah) - 1) eqn:Hlt.
  { apply position_eq in Hpos as (Ha' & Hw'' & _).
    rewrite Ha', Hw'' in *. lia. }
  destruct (currentAyahIndex w <? len (surah_ayahs surahData) - 1) eqn:Hlast.
  - apply position_eq in Hpos as (Ha' & Hw'' & _). rewrite Ha', Hw'' in *.
    replace (Z.to_nat (currentAyahIndex w + 1))
      with (S (Z.to_nat (currentAyahIndex w))) in * by lia.
    lia.
  - apply position_eq in Hpos as (Ha' & Hw'' & _). rewrite Ha', Hw'' in *.
    apply lookup_lt_Some in Hayah.
    assert (HT : totalWords surahData
                 = wordsBefore surahData (S (Z.to_nat (currentAyahIndex w)))).
    { unfold totalWords. f_equal. unfold len in Hlast. lia. }
    lia.
Qed.

Lemma wordNumber_goPrev w :
  well_formed surahData = true ->
  isMcqMode w = true ->
  wordIndex_valid surahData w = true ->
  wordNumber surahData (exec (goPrev surahData) w)
  = Z.max (wordNumber surahData w - 1) 0.
Proof.
  intros Hwf Hmode Hvalid.
  destruct (quiz_valid_after_goPrev w Hwf Hmode Hvalid) as [_ Hvalid'].
  apply wordIndex_valid_inv in Hvalid' as (ayah' & Hayah' & Hw').
  pose proof (wordNumber_range _ _ Hayah' Hw') as Hrange'.
  apply wordIndex_valid_inv in Hvalid as (ayah & Hayah & Hw).
  pose proof (wordNumber_range _ _ Hayah Hw) as Hrange.
  pose proof (goPrev_position surahData w) as Hpos.
  rewrite Hmode in Hpos.
  apply index_lookup in Hayah as [Ha Hayah].
  assert (Hnonneg : forall k, 0 <= wordsBefore surahData k)
    by (intros; unfold wordsBefore; lia).
  pose proof (Hnonneg (Z.to_nat (currentAyahIndex w))).
  unfold wordNumber in *.
  destruct (currentWordIndex w >? 0) eqn:Hgt.
  { apply position_eq in Hpos as (Ha' & Hw'' & _).
    rewrite Ha', Hw'' in *. lia. }
  destruct (currentAyahIndex w >? 0) eqn:Hfirst.
  - destruct (index_is_Some (surah_ayahs surahData) (currentAyahIndex w - 1))
      as [prev Hprev].
    { apply lookup_lt_Some in Hayah. unfold len. lia. }
    rewrite Hprev in Hpos.
    apply position_eq in Hpos as (Ha' & Hw'' & _). rewrite Ha', Hw'' in *.
    apply index_lookup in Hprev as [_ Hprev].
    pose proof (wordsBefore_S _ _ Hprev) as HS.
    replace (S (Z.to_nat (currentAyahIndex w - 1)))
      with (Z.to_nat (currentAyahIndex w)) in * by lia.
    pose proof (Hnonneg (Z.to_nat (currentAyahIndex w - 1))). lia.
  - apply position_eq in Hpos as (Ha' & Hw'' & _). rewrite Ha', Hw'' in *.
    replace (currentAyahIndex w) with 0 in * by lia.
    change (wordsBefore surahData (Z.to_nat 0)) with 0 in *. lia.
Qed.

Lemma quiz_valid_iter (step : World -> World) n w :
  (forall w0, isMcqMode w0 = true -> wordIndex_valid surahData w0 = true ->
     isMcqMode (step w0) = true /\ wordIndex_valid surahData (step w0) = true) ->
  isMcqMode w = true ->
  wordIndex_valid surahData w = true ->
  isMcqMode (Nat.iter n step w) = true
  /\ wordIndex_valid surahData (Nat.iter n step w) = true.
Proof.
  intros Hstep Hmode Hvalid. induction n as [|n [IHm IHv]]; [done|].
  simpl. by apply Hstep.
Qed.

(** Each word has its own number: two valid positions with the same word
    number are the same verse and the same word. *)
Lemma wordNumber_inj w w' :
  wordIndex_valid surahData w = true ->
  wordIndex_valid surahData w' = true ->
  wordNumber surahData w = wordNumber surahData w' ->
  currentAyahIndex w = currentAyahIndex w'
  /\ currentWordIndex w = currentWordIndex w'.
Proof.
  intros (ayah & Hayah & Hw)%wordIndex_valid_inv
         (ayah' & Hayah' & Hw')%wordIndex_valid_inv Heq.
  pose proof (wordNumber_range _ _ Hayah Hw) as (Hlo & Hhi & _).
  pose proof (wordNumber_range _ _ Hayah' Hw') as (Hlo' & Hhi' & _).
  apply index_lookup in Hayah as [Ha _].
  apply index_lookup in Hayah' as [Ha' _].
  assert (Hsame : Z.to_nat (currentAyahIndex w) = Z.to_nat (currentAyahIndex w')).
  { destruct (Nat.lt_trichotomy (Z.to_nat (currentAyahIndex w))
                (Z.to_nat (currentAyahIndex w'))) as [Hlt|[Heq'|Hgt]];
      [|done|].
    - pose proof (wordsBefore_le (S (Z.to_nat (currentAyahIndex w)))
                    (Z.to_nat (currentAyahIndex w'))). lia.
    - pose proof (wordsBefore_le (S (Z.to_nat (currentAyahIndex w')))
                    (Z.to_nat (currentAyahIndex w))). lia. }
  unfold wordNumber in Heq. rewrite Hsame in Heq. lia.
Qed.

(** X6. In quiz mode over a well-formed corpus, [goNext] and [goPrev] walk
    the words of the corpus in reading order and stop at its ends.  With the
    words numbered from 0 across the verses, [n] calls of [goNext] lead
    from the valid position of word [k] to the valid position, still in
    quiz mode, of word [min (k + n) (total - 1)], and [n] calls of [goPrev]
    to that of word [max (k - n) 0]; and a valid position is the only one
    of its number. *)
Theorem quiz_walks_the_words n w :
  well_formed surahData = true ->
  isMcqMode w = true ->
  wordIndex_valid surahData w = true ->
  let ahead := Nat.iter n (exec (goNext surahData)) w in
  let back := Nat.iter n (exec (goPrev surahData)) w in
  (isMcqMode ahead = true
   /\ wordIndex_valid surahData ahead = true
   /\ wordNumber surahData ahead
      = Z.min (wordNumber surahData w + Z.of_nat n) (totalWords surahData - 1))
  /\ (isMcqMode back = true
      /\ wordIndex_valid surahData back = true
      /\ wordNumber surahData back
         = Z.max (wordNumber surahData w - Z.of_nat n) 0)
  /\ (forall w1 w2,
        wordIndex_valid surahData w1 = true ->
        wordIndex_valid surahData w2 = true ->
        wordNumber surahData w1 = wordNumber surahData w2 ->
        currentAyahIndex w1 = currentAyahIndex w2
        /\ currentWordIndex w1 = currentWordIndex w2).
Proof.
  intros Hwf Hmode Hvalid ahead back.
  apply wordIndex_valid_inv in Hvalid as Hinv.
  destruct Hinv as (ayah & Hayah & Hw).
  pose proof (wordNumber_range _ _ Hayah Hw) as Hrange.
  assert (Hfirst : 0 <= wordsBefore surahData (Z.to_nat (currentAyahIndex w)))
    by (unfold wordsBefore; lia).
  assert (Hahead : forall k,
            isMcqMode (Nat.iter k (exec (goNext surahData)) w) = true
            /\ wordIndex_valid surahData
                 (Nat.iter k (exec (goNext surahData)) w) = true).
  { intros k. apply quiz_valid_iter; [|done..].
    intros; by apply quiz_valid_after_goNext. }
  assert (Hback : forall k,
            isMcqMode (Nat.iter k (exec (goPrev surahData)) w) = true
            /\ wordIndex_valid surahData
                 (Nat.iter k (exec (goPrev surahData)) w) = true).
  { intros k. apply quiz_valid_iter; [|done..].
    intros; by apply quiz_valid_after_goPrev. }
  split_and!; [apply Hahead|apply Hahead| |apply Hback|apply Hback|
               |apply wordNumber_inj].
  - unfold ahead. clear ahead back. induction n as [|n IH]; [simpl; lia|].
    destruct (Hahead n) as [Hm Hv].
    rewrite Nat.iter_succ, wordNumber_goNext by done. lia.
  - unfold back. clear ahead back. induction n as [|n IH]; [simpl; lia|].
    destruct (Hback n) as [Hm Hv].
    rewrite Nat.iter_succ, wordNumber_goPrev by done. lia.
Qed.


End Walk.

(** ** Flashcard mode goes round the verses *)

Section Cycle.

Variable surahData : Surah.

(** X7. In flashcard mode [goNext] goes round the verses: [n] calls lead
    from verse [i] to verse [(i + n) mod count]; in particular as many calls
    as there are verses lead back to where they started.  The word index
    and the mode stay as they are. *)
Theorem review_goes_round n w :
  isMcqMode w = false ->
  ayahIndex_valid surahData w = true ->
  position (Nat.iter n (exec (goNext surahData)) w)
  = ((currentAyahIndex w + Z.of_nat n) mod len (surah_ayahs surahData),
     currentWordIndex w, false)
  /\ position (Nat.iter (length (surah_ayahs surahData))
                 (exec (goNext surahData)) w)
     = position w.
Proof.
  intros Hmode Hvalid. unfold ayahIndex_valid in Hvalid.
  apply andb_true_iff in Hvalid as [Hlow Hhigh].
  set (count := len (surah_ayahs surahData)) in *.
  assert (Hstep : forall k,
            position (Nat.iter k (exec (goNext surahData)) w)
            = ((currentAyahIndex w + Z.of_nat k) mod count,
               currentWordIndex w, false)).
  { induction k as [|k IH].
    - simpl. unfold position. rewrite Hmode, Z.add_0_r, Z.mod_small by lia.
      reflexivity.
    - rewrite Nat.iter_succ, goNext_position.
      apply position_eq in IH as (-> & -> & ->).
      replace (currentAyahIndex w + Z.of_nat (S k))
        with (currentAyahIndex w + Z.of_nat k + 1) by lia.
      rewrite <- (Zplus_mod_idemp_l (currentAyahIndex w + Z.of_nat k)).
      pose proof (Z.mod_pos_bound (currentAyahIndex w + Z.of_nat k) count)
        as Hbound.
      set (x := (currentAyahIndex w + Z.of_nat k) mod count) in *.
      fold count. destruct (x <? count - 1) eqn:Hlt.
      + rewrite (Z.mod_small (x + 1)) by lia. reflexivity.
      + replace (x + 1) with count by lia.
        rewrite Z_mod_same_full. reflexivity. }
  split; [apply Hstep|].
  rewrite Hstep. unfold position. rewrite Hmode.
  replace (Z.of_nat (length (surah_ayahs surahData))) with (1 * count)
    by (unfold count, len; lia).
  rewrite Z_mod_plus_full, Z.mod_small by lia. reflexivity.
Qed.

End Cycle.

(** ** The recitation *)

Lemma codes_length : Forall (fun s => String.length s = 3%nat) codes.
Proof. apply (bool_decide_unpack _). vm_compute. exact I. Qed.

Lemma codes_NoDup : NoDup codes.
Proof. apply (bool_decide_unpack _). vm_compute. exact I. Qed.

Lemma codes_lookup n :
  0 <= n < 1000 -> codes !! Z.to_nat n = Some (padStart3 (pretty n)).
Proof.
  intros Hn. unfold codes. rewrite list_lookup_fmap.
  rewrite lookup_seqZ_lt by lia. simpl. do 3 f_equal. lia.
Qed.

Lemma padStart3_length n :
  0 <= n < 1000 -> String.length (padStart3 (pretty n)) = 3%nat.
Proof.
  intros Hn.
  exact (Forall_lookup_1 _ _ _ _ codes_length (codes_lookup n Hn)).
Qed.

Lemma padStart3_inj n m :
  0 <= n < 1000 -> 0 <= m < 1000 ->
  padStart3 (pretty n) = padStart3 (pretty m) -> n = m.
Proof.
  intros Hn Hm Heq.
  pose proof (codes_lookup n Hn) as Hcn.
  pose proof (codes_lookup m Hm) as Hcm. rewrite <- Heq in Hcm.
  pose proof (NoDup_lookup _ _ _ _ codes_NoDup Hcn Hcm). lia.
Qed.

(** Two strings that start with pieces of the same length and are equal
    have equal pieces. *)
Lemma append_split (a a' r r' : string) :
  String.length a = String.length a' ->
  (a ++ r = a' ++ r')%string -> a = a' /\ r = r'.
Proof.
  revert a'. induction a as [|c a IH]; intros [|c' a'] Hlen Heq;
    try discriminate; [done|].
  simpl in Heq. injection Heq as -> Heq. injection Hlen as Hlen.
  destruct (IH a' Hlen Heq) as [-> ->]. done.
Qed.

(** X8. Within the numbers 0 to 999 every pair of a surah number and a
    verse number has an address of its own: the two numbers are written
    with three digits each, so that equal addresses come from equal
    numbers. *)
Theorem recitationUrl_inj s a s' a' :
  0 <= s < 1000 -> 0 <= a < 1000 -> 0 <= s' < 1000 -> 0 <= a' < 1000 ->
  recitationUrl s a = recitationUrl s' a' ->
  s = s' /\ a = a'.
Proof.
  intros Hs Ha Hs' Ha' Heq. unfold recitationUrl in Heq.
  apply append_split in Heq as [_ Heq]; [|done].
  apply append_split in Heq as [Hcs Heq];
    [|by rewrite !padStart3_length].
  apply append_split in Heq as [Hca _];
    [|by rewrite !padStart3_length].
  split; by apply padStart3_inj.
Qed.

Section Recitation.

Variable surahData : Surah.

Lemma playRecitation_audio w ayah :
  index (surah_ayahs surahData) (currentAyahIndex w) = Some ayah ->
  audio (exec (playRecitation surahData) w)
  = Some {| player_src :=
              recitationUrl (surah_number surahData) (ayah_number ayah);
            player_playing := true |}.
Proof.
  intros Hayah. unfold playRecitation, currentAyah, set_audio. steps.
  destruct (audio w); steps; cbn [currentAyahIndex with_audio];
    rewrite Hayah; steps; reflexivity.
Qed.

Lemma displayCurrentContent_recites w ayah :
  isMcqMode w = false ->
  index (surah_ayahs surahData) (currentAyahIndex w) = Some ayah ->
  audio (exec (displayCurrentContent surahData true) w)
  = Some {| player_src :=
              recitationUrl (surah_number surahData) (ayah_number ayah);
            player_playing := true |}.
Proof.
  intros Hmode Hayah. unfold displayCurrentContent.
  rewrite exec_get_bind, Hmode.
  rewrite (exec_after audio) by (intros; observe).
  rewrite exec_seq by by eapply displayFlashcard_returns.
  apply playRecitation_audio.
  pose proof (displayFlashcard_position surahData w)
    as (Ha & _ & _)%position_eq.
  by rewrite Ha.
Qed.

(** X9. In flashcard mode the player follows the verse, for data whose
    numbers are safe integers, which [String] writes in decimal: from a
    verse of the corpus, [goNext], a [goPrev] that moves, [loadSurahData]
    and the play button each leave the player playing the address of the
    verse that is then current. *)
Theorem recitation_follows_verse w :
  numbers_safe surahData = true ->
  isMcqMode w = false ->
  ayahIndex_valid surahData w = true ->
  let recites w' :=
    exists ayah,
      index (surah_ayahs surahData) (currentAyahIndex w') = Some ayah
      /\ audio w'
         = Some {| player_src :=
                     recitationUrl (surah_number surahData) (ayah_number ayah);
                   player_playing := true |} in
  recites (exec (goNext surahData) w)
  /\ (0 < currentAyahIndex w -> recites (exec (goPrev surahData) w))
  /\ recites (exec (loadSurahData surahData) w)
  /\ recites (exec (playRecitation surahData) w).
Proof.
  intros _ Hmode Hvalid recites. unfold ayahIndex_valid in Hvalid.
  apply andb_true_iff in Hvalid as [Hlow Hhigh].
  assert (Hshow : forall w0,
            isMcqMode w0 = false ->
            0 <= currentAyahIndex w0 < len (surah_ayahs surahData) ->
            recites (exec (displayCurrentContent surahData true) w0)).
  { intros w0 Hmode0 Hrange.
    destruct (index_is_Some (surah_ayahs surahData) (currentAyahIndex w0))
      as [ayah Hayah]; [done|].
    exists ayah. split; [|by apply displayCurrentContent_recites].
    pose proof (displayCurrentContent_position surahData true w0)
      as (Ha & _ & _)%position_eq.
    by rewrite Ha. }
  split_and!.
  - unfold goNext, set_currentAyahIndex. steps. rewrite Hmode.
    destruct (currentAyahIndex w <? len (surah_ayahs surahData) - 1) eqn:Hlt;
      steps; apply Hshow; cbn [isMcqMode currentAyahIndex with_currentAyahIndex];
      (done || lia).
  - intros Hpos. unfold goPrev, set_currentAyahIndex. steps. rewrite Hmode.
    destruct (currentAyahIndex w >? 0) eqn:Hgt; [|lia]. steps.
    apply Hshow; cbn [isMcqMode currentAyahIndex with_currentAyahIndex];
      (done || lia).
  - unfold loadSurahData, update_element. steps.
    apply Hshow; cbn [isMcqMode currentAyahIndex with_element with_page];
      (done || lia).
  - destruct (index_is_Some (surah_ayahs surahData) (currentAyahIndex w))
      as [ayah Hayah]; [lia|].
    exists ayah. split; [|by apply playRecitation_audio].
    pose proof (playRecitation_position surahData w)
      as (Ha & _ & _)%position_eq.
    by rewrite Ha.
Qed.

End Recitation.

(** ** Sessions of events *)

Lemma exec_bind_Some {A B} (m : Handler A) (k : A -> Handler B) w a :
  snd (m w) = Some a -> exec (m ≫= k) w = exec (k a) (exec m w).
Proof. intros Ha. by rewrite exec_bind, Ha. Qed.

Section Redisplay.

Variable surahData : Surah.

Hypothesis wf : well_formed surahData = true.

(** A navigation either leaves the world as it is or assigns the position
    and refreshes the display, from a session that is again in order. *)
Lemma navigate_cases n w :
  session_ok surahData w ->
  exec (navigate surahData n) w = w
  \/ exists a w1,
       session_ok surahData w1
       /\ exec (navigate surahData n) w
          = exec (displayCurrentContent surahData a) w1.
Proof.
  intros [Hok Hres].
  assert (Hredisplay : forall a w1,
            position w1 = position (exec (navigate surahData n) w) ->
            resources_ok surahData w1 ->
            exec (navigate surahData n) w
            = exec (displayCurrentContent surahData a) w1 ->
            exists a w1,
              session_ok surahData w1
              /\ exec (navigate surahData n) w
                 = exec (displayCurrentContent surahData a) w1).
  { intros a w1 Hpos Hres1 Hrun. exists a, w1. split; [|done].
    split; [|done]. eapply position_ok_frame; [exact Hpos|].
    destruct n; cbn [navigate];
      auto using goNext_position_ok, goPrev_position_ok,
        switchMode_position_ok. }
  pose proof Hok as (ayah & Hayah & _)%position_ok_iff.
  pose proof (index_Some _ _ _ Hayah) as Hrange.
  assert (Hstay : w = w \/ exists a w1,
            session_ok surahData w1
            /\ w = exec (displayCurrentContent surahData a) w1) by by left.
  destruct n as [| |b]; cbn [navigate] in *.
  - assert (Hnext : forall w1,
              exec (goNext surahData) w
              = exec (displayCurrentContent surahData true) w1 ->
              position w1 = position (exec (goNext surahData) w)).
    { intros w1 ->. by rewrite displayCurrentContent_position. }
    revert Hredisplay Hnext.
    unfold goNext, currentAyah, set_currentAyahIndex, set_currentWordIndex.
    steps. destruct (isMcqMode w).
    + steps. rewrite Hayah. steps.
      repeat case_match; steps; intros Hredisplay Hnext; try exact Hstay;
        right; (eapply Hredisplay; cycle 2; [reflexivity| |exact Hres]);
        by apply Hnext.
    + case_match; steps; intros Hredisplay Hnext; try exact Hstay;
        right; (eapply Hredisplay; cycle 2; [reflexivity| |exact Hres]);
        by apply Hnext.
  - assert (Hprev : forall w1,
              exec (goPrev surahData) w
              = exec (displayCurrentContent surahData true) w1 ->
              position w1 = position (exec (goPrev surahData) w)).
    { intros w1 ->. by rewrite displayCurrentContent_position. }
    revert Hredisplay Hprev.
    unfold goPrev, currentAyah, set_currentAyahIndex, set_currentWordIndex.
    steps. destruct (isMcqMode w).
    + destruct (currentWordIndex w >? 0).
      { steps. intros Hredisplay Hprev.
        right. (eapply Hredisplay; cycle 2; [reflexivity| |exact Hres]).
        by apply Hprev. }
      destruct (currentAyahIndex w >? 0) eqn:Hai; [|steps; intros _ _; exact Hstay].
      steps. cbn [currentAyahIndex with_currentAyahIndex].
      destruct (index_is_Some (surah_ayahs surahData) (currentAyahIndex w - 1))
        as [ayah' ->]; [lia|].
      steps. intros Hredisplay Hprev.
        right. (eapply Hredisplay; cycle 2; [reflexivity| |exact Hres]).
        by apply Hprev.
    + destruct (currentAyahIndex w >? 0); [|steps; intros _ _; exact Hstay].
      steps. intros Hredisplay Hprev.
        right. (eapply Hredisplay; cycle 2; [reflexivity| |exact Hres]).
        by apply Hprev.
  - assert (Hswitch : forall w1,
              exec (switchMode surahData b) w
              = exec (displayCurrentContent surahData false) w1 ->
              position w1 = position (exec (switchMode surahData b) w)).
    { intros w1 ->. by rewrite displayCurrentContent_position. }
    revert Hredisplay Hswitch.
    unfold switchMode, update_element, set_isMcqMode, set_currentWordIndex.
    steps. destruct b; cbn [isMcqMode with_isMcqMode]; steps;
      intros Hredisplay Hswitch; try exact Hstay;
        right; (eapply Hredisplay; cycle 2; [reflexivity| |exact Hres]);
        by apply Hswitch.
Qed.

End Redisplay.

Section Display.

Variable surahData : Surah.

(** [displayCurrentContent] in a session that is in order: the content is
    shown, then the progress, then the buttons, each running to its end. *)
Lemma displayCurrentContent_run (a : bool) w :
  session_ok surahData w ->
  let shown :=
    exec (if isMcqMode w then displayMcqWord surahData
          else displayFlashcard surahData;;
               if a then playRecitation surahData else skip) w in
  position shown = position w
  /\ exec (displayCurrentContent surahData a) w
     = exec (updateButtons surahData) (exec (updateProgress surahData) shown).
Proof.
  intros [Hok Hres] shown.
  pose proof Hok as (ayah & Hayah & Hword)%position_ok_iff.
  destruct Hres as [Harrays Hdraws].
  assert (Hpos : position shown = position w).
  { unfold shown. destruct (isMcqMode w); [apply displayMcqWord_position|].
    assert (Hframe : preserves position
              (displayFlashcard surahData;;
               if a then playRecitation surahData else skip)); [|apply Hframe].
    frame; auto using displayFlashcard_position, playRecitation_position. }
  split; [exact Hpos|].
  pose proof Hpos as (Ha & _ & _)%position_eq.
  unfold displayCurrentContent. rewrite exec_get_bind.
  rewrite exec_seq; [rewrite exec_seq; [reflexivity|]|].
  - eapply updateProgress_returns. fold shown. by rewrite Ha.
  - destruct (isMcqMode w) eqn:Hmode.
    + specialize (Hword eq_refl).
      destruct (index_is_Some (ayah_words ayah) (currentWordIndex w) Hword)
        as [word Hw].
      eapply displayMcqWord_returns; [done..| |done].
      apply (Harrays ayah).
      * unfold index in Hayah. destruct (_ <? 0); [done|].
        by eapply list_elem_of_lookup_2.
      * unfold index in Hw. destruct (_ <? 0); [done|].
        by eapply list_elem_of_lookup_2.
    + rewrite returns_seq by by eapply displayFlashcard_returns.
      destruct a; [|done].
      eapply playRecitation_returns.
      pose proof (displayFlashcard_position surahData w)
        as (Ha' & _ & _)%position_eq.
      by rewrite Ha'.
Qed.

Lemma updateButtons_agree w ayah :
  index (surah_ayahs surahData) (currentAyahIndex w) = Some ayah ->
  buttons_agree surahData (exec (updateButtons surahData) w).
Proof.
  intros Hayah. unfold updateButtons, currentAyah, update_element. steps.
  unfold buttons_agree, atLastWord, lastWordIndex, lastWordIndexAt,
    lastAyahIndex.
  destruct (isMcqMode w) eqn:Hmode; steps; rewrite ?Hayah; steps;
    cbn [page isMcqMode currentAyahIndex currentWordIndex with_element
         with_page];
    rewrite Hmode, ?Hayah; split; reflexivity.
Qed.

Lemma displayCurrentContent_buttons a w :
  session_ok surahData w ->
  buttons_agree surahData (exec (displayCurrentContent surahData a) w).
Proof.
  intros Hsession.
  destruct (displayCurrentContent_run a w Hsession) as [Hpos ->].
  destruct Hsession as [(ayah & Hayah & _)%position_ok_iff _].
  apply (updateButtons_agree _ ayah).
  match goal with
  | |- context [exec (updateProgress surahData) ?shown] =>
      pose proof (updateProgress_position surahData shown)
        as (Ha & _ & _)%position_eq
  end.
  apply position_eq in Hpos as (Ha' & _ & _).
  by rewrite Ha, Ha'.
Qed.

Lemma buttons_agree_congr w w' :
  position w' = position w ->
  page w' prevBtn = page w prevBtn ->
  page w' nextBtn = page w nextBtn ->
  buttons_agree surahData w -> buttons_agree surahData w'.
Proof.
  unfold buttons_agree, atLastWord, lastWordIndex.
  intros (-> & -> & ->)%position_eq -> ->. done.
Qed.

End Display.

(** ** Properties that every event keeps *)

Lemma session_ok_congr surahData w w' :
  position w' = position w -> heap w' = heap w ->
  randomDraws w' = randomDraws w ->
  session_ok surahData w -> session_ok surahData w'.
Proof.
  intros Hpos Hheap Hdraws [Hok Hres]. split.
  - by eapply position_ok_frame.
  - unfold resources_ok, arrays_allocated. rewrite Hheap, Hdraws. exact Hres.
Qed.

Section Invariant.

Variable surahData : Surah.

Hypothesis wf : well_formed surahData = true.

(** A property of the world which a refresh of the display establishes and
    which the handlers that do not navigate keep. *)
Variable Inv : World -> Prop.

Hypothesis Inv_display : forall a w,
  session_ok surahData w -> Inv (exec (displayCurrentContent surahData a) w).
Hypothesis Inv_flipCard : keeps Inv flipCard.
Hypothesis Inv_checkAnswer : forall selected correct buttonElement,
  keeps Inv (checkAnswer selected correct buttonElement).
Hypothesis Inv_playRecitation : keeps Inv (playRecitation surahData).
Hypothesis Inv_timers : forall ts w, Inv w -> Inv (with_timers ts w).

(** A navigation leaves the session in order, and keeps the property. *)
Lemma goNext_invariant w :
  session_ok surahData w -> Inv w ->
  session_ok surahData (exec (goNext surahData) w)
  /\ Inv (exec (goNext surahData) w).
Proof.
  intros Hsession Hinv. split.
  - by destruct (navigation_returns surahData w wf Hsession) as ([_ ?] & _ & _).
  - destruct (navigate_cases surahData wf Next w Hsession)
      as [Heq|(a & w1 & Hsession1 & Heq)];
      cbn [navigate] in Heq; rewrite Heq; [done|].
    by apply Inv_display.
Qed.

Lemma goPrev_invariant w :
  session_ok surahData w -> Inv w ->
  session_ok surahData (exec (goPrev surahData) w)
  /\ Inv (exec (goPrev surahData) w).
Proof.
  intros Hsession Hinv. split.
  - by destruct (navigation_returns surahData w wf Hsession) as (_ & [_ ?] & _).
  - destruct (navigate_cases surahData wf Previous w Hsession)
      as [Heq|(a & w1 & Hsession1 & Heq)];
      cbn [navigate] in Heq; rewrite Heq; [done|].
    by apply Inv_display.
Qed.

Lemma switchMode_invariant b w :
  session_ok surahData w -> Inv w ->
  session_ok surahData (exec (switchMode surahData b) w)
  /\ Inv (exec (switchMode surahData b) w).
Proof.
  intros Hsession Hinv. split.
  - destruct (navigation_returns surahData w wf Hsession) as (_ & _ & Hswitch).
    apply Hswitch.
  - destruct (navigate_cases surahData wf (Switch b) w Hsession)
      as [Heq|(a & w1 & Hsession1 & Heq)];
      cbn [navigate] in Heq; rewrite Heq; [done|].
    by apply Inv_display.
Qed.

(** What a handler that leaves the position, the arrays and the draws alone
    does to a session. *)
Lemma quiet_invariant (m : Handler unit) w :
  preserves position m -> preserves heap m -> preserves randomDraws m ->
  keeps Inv m ->
  session_ok surahData w -> Inv w ->
  session_ok surahData (exec m w) /\ Inv (exec m w).
Proof.
  intros Hpos Hheap Hdraws Hkeeps Hsession Hinv. split; [|by apply Hkeeps].
  eapply session_ok_congr; [apply Hpos|apply Hheap|apply Hdraws|done].
Qed.

(** Every event leaves the session in order, and keeps the property. *)
Lemma handle_invariant e w :
  session_ok surahData w -> Inv w ->
  session_ok surahData (exec (handle surahData e) w)
  /\ Inv (exec (handle surahData e) w).
Proof.
  intros Hsession Hinv.
  pose proof (goNext_invariant w Hsession Hinv) as Hnext.
  pose proof (goPrev_invariant w Hsession Hinv) as Hprev.
  assert (Hflip : session_ok surahData (exec flipCard w) /\ Inv (exec flipCard w)).
  { apply quiet_invariant; [apply flipCard_position|observe..|done|done|done]. }
  assert (Hstay : session_ok surahData (exec skip w) /\ Inv (exec skip w))
    by done.
  unfold handle. rewrite exec_get_bind.
  destruct e as [| | | | | |i|key|i].
  - exact Hflip.
  - destruct (disabled _); [exact Hstay|exact Hnext].
  - destruct (disabled _); [exact Hstay|exact Hprev].
  - apply quiet_invariant;
      [apply playRecitation_position|observe..|done|done|done].
  - exact (switchMode_invariant false w Hsession Hinv).
  - exact (switchMode_invariant true w Hsession Hinv).
  - destruct (optionButtons w !! i) as [b|]; [|exact Hstay].
    destruct (disabled (button b)); [exact Hstay|].
    apply quiet_invariant;
      [apply checkAnswer_position|observe..|done|done|done].
  - destruct (String.eqb key "ArrowRight"); [exact Hnext|].
    destruct (String.eqb key "ArrowLeft"); [exact Hprev|].
    destruct (String.eqb key " "); [exact Hflip|exact Hstay].
  - destruct (timers w !! i) as [[[] delay]|]; [|exact Hstay].
    unfold set_timers, run_callback. steps. cbn [timer_callback].
    apply goNext_invariant; [exact Hsession|by apply Inv_timers].
Qed.

Lemma run_invariant es w :
  session_ok surahData w -> Inv w ->
  session_ok surahData (run surahData es w) /\ Inv (run surahData es w).
Proof.
  revert w. induction es as [|e es IH]; intros w Hsession Hinv; [done|].
  cbn [run foldl].
  destruct (handle_invariant e w Hsession Hinv) as [Hsession' Hinv'].
  by apply IH.
Qed.

(** The session once the data is loaded, and after any events then. *)
Lemma loaded_invariant es w :
  session_ok surahData w ->
  session_ok surahData (run surahData es (exec (loadSurahData surahData) w))
  /\ Inv (run surahData es (exec (loadSurahData surahData) w)).
Proof.
  intros Hsession. unfold loadSurahData, update_element. steps.
  set (w1 := with_element _ _ w).
  assert (Hsession1 : session_ok surahData w1) by exact Hsession.
  apply run_invariant; [|by apply Inv_display].
  destruct (displayCurrentContent_run surahData true w1 Hsession1) as [Hpos _].
  destruct Hsession1 as [Hok Hres]. split.
  - eapply position_ok_frame; [apply displayCurrentContent_position|done].
  - by apply displayCurrentContent_resources.
Qed.

End Invariant.

Section Buttons.

Variable surahData : Surah.

(** X10. Once the data is loaded, the two navigation buttons always agree
    with the position, whatever the events: Previous is disabled exactly at
    the first verse (in quiz mode: at its first word), Next is disabled
    exactly at the last word of the last verse in quiz mode and never in
    flashcard mode. *)
Theorem buttons_follow_position es w :
  well_formed surahData = true ->
  session_ok surahData w ->
  buttons_agree surahData
    (run surahData es (exec (loadSurahData surahData) w)).
Proof.
  intros Hwf Hsession.
  apply (loaded_invariant surahData Hwf (buttons_agree surahData));
    [| | | | |exact Hsession].
  - intros a w0. apply displayCurrentContent_buttons.
  - intros w0. apply buttons_agree_congr; [apply flipCard_position|..].
    + assert (Hpres : preserves (fun w => page w prevBtn) flipCard) by observe.
      apply Hpres.
    + assert (Hpres : preserves (fun w => page w nextBtn) flipCard) by observe.
      apply Hpres.
  - intros selected correct buttonElement w0.
    apply buttons_agree_congr; [apply checkAnswer_position|..].
    + assert (Hpres : preserves (fun w => page w prevBtn)
                (checkAnswer selected correct buttonElement)) by observe.
      apply Hpres.
    + assert (Hpres : preserves (fun w => page w nextBtn)
                (checkAnswer selected correct buttonElement)) by observe.
      apply Hpres.
  - intros w0. apply buttons_agree_congr; [apply playRecitation_position|..].
    + assert (Hpres : preserves (fun w => page w prevBtn)
                (playRecitation surahData)) by observe.
      apply Hpres.
    + assert (Hpres : preserves (fun w => page w nextBtn)
                (playRecitation surahData)) by observe.
      apply Hpres.
  - intros ts w0. by apply buttons_agree_congr.
Qed.

(** X11. Where the buttons agree with the position, a disabled button
    withholds nothing: a click on Next does to the world what the right
    arrow key does, and a click on Previous what the left arrow key does,
    although the keys do not look at the buttons. *)
Theorem keys_match_buttons w :
  position_ok surahData w ->
  buttons_agree surahData w ->
  exec (handle surahData ClickNext) w
  = exec (handle surahData (KeyDown "ArrowRight")) w
  /\ exec (handle surahData ClickPrev) w
     = exec (handle surahData (KeyDown "ArrowLeft")) w.
Proof.
  intros (ayah & Hayah & Hword)%position_ok_iff [Hprev Hnext].
  unfold handle. rewrite !exec_get_bind.
  assert (String.eqb "ArrowRight" "ArrowRight" = true) as -> by reflexivity.
  assert (String.eqb "ArrowLeft" "ArrowRight" = false) as -> by reflexivity.
  assert (String.eqb "ArrowLeft" "ArrowLeft" = true) as -> by reflexivity.
  rewrite Hprev, Hnext. split.
  - destruct (isMcqMode w) eqn:Hmode; [|reflexivity].
    destruct (atLastWord surahData w) eqn:Hlast; [|reflexivity].
    unfold atLastWord, lastWordIndex, lastWordIndexAt, lastAyahIndex in Hlast.
    rewrite Hayah in Hlast.
    apply andb_true_iff in Hlast as [Hai%Z.eqb_eq Hwi%Z.eqb_eq].
    unfold goNext, currentAyah. steps. rewrite Hmode. steps.
    rewrite Hayah. steps.
    rewrite (proj2 (Z.ltb_ge _ _)) by lia.
    rewrite (proj2 (Z.ltb_ge _ _)) by lia.
    reflexivity.
  - destruct (isMcqMode w) eqn:Hmode.
    + destruct ((currentAyahIndex w =? 0) && (currentWordIndex w =? 0))
        eqn:Hfirst; [|reflexivity].
      apply andb_true_iff in Hfirst as [Hai%Z.eqb_eq Hwi%Z.eqb_eq].
      unfold goPrev. steps. rewrite Hmode, Hai, Hwi. reflexivity.
    + destruct (currentAyahIndex w =? 0) eqn:Hfirst; [|reflexivity].
      apply Z.eqb_eq in Hfirst.
      unfold goPrev. steps. rewrite Hmode, Hfirst. reflexivity.
Qed.

End Buttons.

(** ** The question that [displayMcqWord] poses *)

Lemma exec_spread_bind {B} array (k : loc -> Handler B) w xs :
  heap w !! array = Some xs ->
  exec (spread array ≫= k) w
  = exec (k (fresh (dom (heap w))))
      (with_heap (<[fresh (dom (heap w)) := xs]> (heap w)) w).
Proof.
  intros Hxs. unfold exec. by rewrite run_bind, (spread_run _ _ _ Hxs).
Qed.

(** The loop of [displayMcqWord] appends one button for each option. *)
Lemma append_loop_buttons correct options w :
  optionButtons
    (exec (forEach options (fun option =>
        w' ← get;
        set_optionButtons
          (optionButtons w' ++ [new_option_button option correct]))) w)
  = (optionButtons w
       ++ ((fun option => new_option_button option correct) <$> options))%list.
Proof.
  revert w. induction options as [|option options IH]; intros w.
  { cbn [forEach fmap list_fmap]. by rewrite app_nil_r. }
  cbn [forEach]. rewrite exec_then by (unfold set_optionButtons; repeat total_step).
  rewrite IH. unfold set_optionButtons. steps.
  cbn [optionButtons with_optionButtons]. rewrite fmap_cons.
  by rewrite <- app_assoc.
Qed.

Lemma append_loop_frame {T} (f : World -> T) correct options :
  (forall bs w, f (with_optionButtons bs w) = f w) ->
  preserves f
    (forEach options (fun option =>
       w' ← get;
       set_optionButtons
         (optionButtons w' ++ [new_option_button option correct]))).
Proof.
  intros Hf. unfold set_optionButtons. frame.
  apply preserves_modify. intros w. apply Hf.
Qed.

Section Question.

Variable surahData : Surah.

(** [displayMcqWord] at a word of the corpus whose options are in the heap,
    with draws in [0, 1): the buttons are new ones, one for each element of
    a shuffled copy of the options; the copy is a new array; and the page
    differs in the word and the feedback only. *)
Lemma displayMcqWord_effect w ayah word xs :
  index (surah_ayahs surahData) (currentAyahIndex w) = Some ayah ->
  index (ayah_words ayah) (currentWordIndex w) = Some word ->
  heap w !! word_options word = Some xs ->
  unit_draws (randomDraws w) ->
  exists ys,
    ys ≡ₚ xs
    /\ optionButtons (exec (displayMcqWord surahData) w)
       = (fun option => new_option_button option (word_meaning word)) <$> ys
    /\ heap (exec (displayMcqWord surahData) w)
       = <[fresh (dom (heap w)) := ys]> (heap w)
    /\ page (exec (displayMcqWord surahData) w)
       = page
           (with_element mcqFeedback (with_classList ["feedback"])
              (with_element mcqFeedback (with_textContent "")
                 (with_element mcqTransliteration
                    (with_textContent (word_transliteration word))
                    (with_element mcqArabic
                       (with_textContent (word_arabic word)) w)))).
Proof.
  intros Hayah Hword Hxs Hdraws.
  set (w4 := with_element mcqFeedback _ _).
  set (copy := fresh (dom (heap w))).
  set (w5 := with_heap (<[copy := xs]> (heap w)) w4).
  destruct (shuffleArray_in_place copy w5 xs) as (ys & Hret & Hheap & Hperm).
  { apply lookup_insert_eq. }
  { exact Hdraws. }
  set (w6 := exec (shuffleArray copy) w5) in *.
  assert (Hrun : exec (displayMcqWord surahData) w
            = exec (forEach ys (fun option =>
                  w' ← get;
                  set_optionButtons
                    (optionButtons w'
                       ++ [new_option_button option (word_meaning word)])))
                (with_optionButtons [] w6)).
  { unfold displayMcqWord, currentAyah, update_element.
    steps. rewrite Hayah. steps. rewrite Hword. steps.
    fold w4. rewrite (exec_spread_bind _ _ w4 xs) by exact Hxs.
    change (fresh (dom (heap w4))) with copy.
    change (with_heap (<[copy := xs]> (heap w4)) w4) with w5.
    rewrite (exec_bind_Some _ _ w5 copy Hret). fold w6.
    unfold set_optionButtons, read_array. steps.
    cbn [heap with_optionButtons]. rewrite Hheap, lookup_insert_eq.
    steps. reflexivity. }
  rewrite Hrun. exists ys. split_and!.
  - exact Hperm.
  - by rewrite append_loop_buttons.
  - rewrite (append_loop_frame heap) by done.
    cbn [heap with_optionButtons]. rewrite Hheap.
    cbn [heap w5 with_heap]. apply insert_insert_eq.
  - rewrite (append_loop_frame page) by done.
    cbn [page with_optionButtons]. unfold w6.
    rewrite (shuffleArray_frame page) by done. reflexivity.
Qed.

End Question.

(** ** The page follows the position *)

Section Page.

Variable surahData : Surah.

(** What the content part of [displayCurrentContent] has written is still
    there at the end, where the progress and the buttons leave it alone. *)
Lemma displayCurrentContent_content {T} (f : World -> T) (a : bool) w :
  session_ok surahData w ->
  preserves f (updateProgress surahData) ->
  preserves f (updateButtons surahData) ->
  f (exec (displayCurrentContent surahData a) w)
  = f (exec (if isMcqMode w then displayMcqWord surahData
             else displayFlashcard surahData;;
                  if a then playRecitation surahData else skip) w).
Proof.
  intros Hsession Hprogress Hbuttons.
  destruct (displayCurrentContent_run surahData a w Hsession) as [_ ->].
  by rewrite Hbuttons, Hprogress.
Qed.

Lemma displayFlashcard_shows w ayah :
  index (surah_ayahs surahData) (currentAyahIndex w) = Some ayah ->
  card_shows ayah (exec (displayFlashcard surahData) w).
Proof.
  intros Hayah. unfold displayFlashcard, currentAyah, update_element.
  steps. rewrite Hayah. steps. by split_and!.
Qed.

Lemma updateProgress_shows w ayah :
  index (surah_ayahs surahData) (currentAyahIndex w) = Some ayah ->
  progress_shows ayah (exec (updateProgress surahData) w).
Proof.
  intros Hayah. unfold updateProgress, currentAyah, update_element,
    progress_shows.
  steps. destruct (isMcqMode w) eqn:Hmode; steps;
    cbn [currentAyahIndex with_element with_page]; rewrite ?Hayah; steps;
    cbn [page isMcqMode currentAyahIndex currentWordIndex with_element
         with_page];
    rewrite Hmode; by split.
Qed.

Lemma updateButtons_progress w ayah :
  progress_shows ayah w ->
  progress_shows ayah (exec (updateButtons surahData) w).
Proof.
  unfold progress_shows.
  pose proof (updateButtons_position surahData w) as (-> & -> & ->)%position_eq.
  assert (Hspan : preserves (fun w => page w currentAyahSpan)
            (updateButtons surahData)) by observe.
  assert (Hword : preserves (fun w => page w wordProgress)
            (updateButtons surahData)) by observe.
  by rewrite (Hspan w), (Hword w).
Qed.

Lemma displayCurrentContent_page (a : bool) w :
  session_ok surahData w ->
  page_current surahData (exec (displayCurrentContent surahData a) w).
Proof.
  intros Hsession.
  pose proof Hsession as [(ayah & Hayah & Hword)%position_ok_iff [Harrays Hdraws]].
  pose proof (displayCurrentContent_position surahData a w)
    as (Ha & Hw & Hm)%position_eq.
  exists ayah. rewrite Ha, Hw, Hm. split_and!; [done| |].
  - destruct (displayCurrentContent_run surahData a w Hsession) as [Hpos ->].
    apply updateButtons_progress, updateProgress_shows.
    apply position_eq in Hpos as (-> & _ & _). done.
  - unfold word_shows, card_shows.
    rewrite !(displayCurrentContent_content (fun w => page w _))
      by (done || observe).
    destruct (isMcqMode w) eqn:Hmode.
    + specialize (Hword eq_refl).
      destruct (index_is_Some (ayah_words ayah) (currentWordIndex w) Hword)
        as [word Hw'].
      destruct (Harrays ayah word) as [xs Hxs].
      { unfold index in Hayah. destruct (_ <? 0); [done|].
        by eapply list_elem_of_lookup_2. }
      { unfold index in Hw'. destruct (_ <? 0); [done|].
        by eapply list_elem_of_lookup_2. }
      exists word. split; [done|].
      destruct (displayMcqWord_effect surahData w ayah word xs)
        as (ys & _ & _ & _ & ->); [done..|].
      by split.
    + rewrite !(exec_after (fun w => page w _))
        by (intros; destruct a; [observe|apply preserves_skip]).
      by apply displayFlashcard_shows.
Qed.

Lemma page_current_congr w w' :
  position w' = position w ->
  (forall e,
     e ∈ [arabicText; transliteration; meaning; mcqArabic; mcqTransliteration;
          currentAyahSpan; wordProgress] ->
     page w' e = page w e) ->
  page_current surahData w -> page_current surahData w'.
Proof.
  unfold page_current, progress_shows, word_shows, card_shows.
  intros (-> & -> & ->)%position_eq Hpage.
  by rewrite !Hpage by (rewrite !elem_of_cons; tauto).
Qed.

(** A handler that leaves the position and the seven elements alone keeps
    the page current. *)
Lemma page_current_quiet (m : Handler unit) :
  preserves position m ->
  (forall e,
     e ∈ [arabicText; transliteration; meaning; mcqArabic; mcqTransliteration;
          currentAyahSpan; wordProgress] ->
     preserves (fun w => page w e) m) ->
  keeps (page_current surahData) m.
Proof.
  intros Hpos Hpage w. apply page_current_congr; [apply Hpos|].
  intros e He. by apply (Hpage e).
Qed.

(** X12. Once the data is loaded the page always shows what is at the
    position, whatever the events: the progress line gives the number of the
    verse (and, in quiz mode, of the word among the words of the verse), the
    card carries the three texts of the current verse in flashcard mode, and
    the quiz the two texts of the current word in quiz mode. *)
Theorem page_follows_position es w :
  well_formed surahData = true ->
  session_ok surahData w ->
  page_current surahData
    (run surahData es (exec (loadSurahData surahData) w)).
Proof.
  intros Hwf Hsession.
  apply (loaded_invariant surahData Hwf (page_current surahData));
    [| | | | |exact Hsession].
  - intros a w0. apply displayCurrentContent_page.
  - apply page_current_quiet; [apply flipCard_position|].
    intros e He. repeat (apply elem_of_cons in He as [->|He]); [observe..|].
    by apply elem_of_nil in He.
  - intros selected correct buttonElement.
    apply page_current_quiet; [apply checkAnswer_position|].
    intros e He. repeat (apply elem_of_cons in He as [->|He]); [observe..|].
    by apply elem_of_nil in He.
  - apply page_current_quiet; [apply playRecitation_position|].
    intros e He. repeat (apply elem_of_cons in He as [->|He]); [observe..|].
    by apply elem_of_nil in He.
  - intros ts w0. by apply page_current_congr.
Qed.

End Page.

(** ** The option buttons *)

Lemma has_class_add_ne c c' el :
  c <> c' -> has_class c (classList_add c' el) = has_class c el.
Proof.
  intros Hne. unfold classList_add. destruct (has_class c' el); [done|].
  unfold has_class. cbn [classList with_classList].
  apply bool_decide_ext. rewrite elem_of_app, list_elem_of_singleton. tauto.
Qed.

Lemma answered_same bs : Forall2 answered bs bs.
Proof.
  apply Forall2_same_length_lookup_2; [done|].
  intros k b b' Hb Hb'. replace b' with b by congruence. by unfold answered.
Qed.

(** An update of a button that keeps its text and its class [mcq-option]
    and does not enable it. *)
Lemma update_button_answered bs i g :
  (forall el,
     textContent (g el) = textContent el
     /\ has_class "mcq-option" (g el) = has_class "mcq-option" el
     /\ (disabled el = true -> disabled (g el) = true)) ->
  keeps (fun w => Forall2 answered bs (optionButtons w)) (update_button i g).
Proof.
  intros Hg. unfold update_button, set_optionButtons.
  apply keeps_get_bind. intros w Hw. steps.
  cbn [optionButtons with_optionButtons].
  apply Forall2_alter_r; [done|].
  intros b b' _ _ (Htext & Hselected & Hcorrect & Hclass & Hdisabled).
  destruct (Hg (button b')) as (Htext' & Hclass' & Hdisabled').
  unfold answered. cbn [button click_selected click_correct on_button].
  rewrite Htext', Hclass'. split_and!; auto.
Qed.

Lemma with_disabled_gentle el :
  textContent (with_disabled true el) = textContent el
  /\ has_class "mcq-option" (with_disabled true el) = has_class "mcq-option" el
  /\ (disabled el = true -> disabled (with_disabled true el) = true).
Proof. done. Qed.

Lemma classList_add_gentle c el :
  c <> "mcq-option" ->
  textContent (classList_add c el) = textContent el
  /\ has_class "mcq-option" (classList_add c el) = has_class "mcq-option" el
  /\ (disabled el = true -> disabled (classList_add c el) = true).
Proof.
  intros Hne. split_and!.
  - apply textContent_classList_add.
  - by apply has_class_add_ne.
  - unfold classList_add. by destruct (has_class c el).
Qed.

Lemma checkAnswer_answered bs selected correct buttonElement :
  keeps (fun w => Forall2 answered bs (optionButtons w))
    (checkAnswer selected correct buttonElement).
Proof.
  unfold checkAnswer, querySelectorAll_mcq_option, update_element,
    playSuccessSound, setTimeout, set_chimes, set_timers.
  keep;
    (apply update_button_answered; intros el;
     first [apply with_disabled_gentle | by apply classList_add_gentle]).
Qed.

(** After the first loop of [checkAnswer] the buttons of class [mcq-option]
    are disabled. *)
Lemma disable_loop_locks w :
  Forall (fun b => has_class "mcq-option" (button b) = true ->
                   disabled (button b) = true)
    (optionButtons
       (exec (forEach (selected_positions (optionButtons w))
                (fun btn => update_button btn (with_disabled true))) w)).
Proof.
  apply Forall_lookup. intros k b'. rewrite disable_loop_lookup.
  destruct (optionButtons w !! k) as [b|] eqn:Hb; [|done].
  intros [= <-] Hclass.
  destruct (decide (k ∈ selected_positions (optionButtons w))) as [Hk|Hk];
    [done|].
  exfalso. apply Hk. apply elem_of_selected_positions. eauto.
Qed.

Section Options.

Variable surahData : Surah.

Lemma checkAnswer_locks selected correct buttonElement w :
  Forall (fun b => has_class "mcq-option" (button b) = true ->
                   disabled (button b) = true)
    (optionButtons (exec (checkAnswer selected correct buttonElement) w)).
Proof.
  pose proof (disable_loop_locks w) as Hlocked.
  rewrite checkAnswer_split.
  set (w1 := exec (forEach _ _) w) in *.
  match goal with
  | |- context [exec ?branch w1] =>
      assert (Hanswered : keeps
                (fun w' => Forall2 answered (optionButtons w1) (optionButtons w'))
                branch)
  end.
  { unfold update_element, playSuccessSound, setTimeout, set_chimes,
      set_timers.
    keep;
      (apply update_button_answered; intros el;
       first [apply with_disabled_gentle | by apply classList_add_gentle]). }
  specialize (Hanswered w1 (answered_same _)).
  apply Forall_lookup. intros k b' Hb' Hclass.
  destruct (Forall2_lookup_r _ _ _ _ _ Hanswered Hb')
    as (b & Hb & _ & _ & _ & Hclass' & Hdisabled).
  apply Hdisabled. eapply Forall_lookup_1 in Hlocked; [|exact Hb].
  apply Hlocked. congruence.
Qed.

(** X13. An answer can be given once.  Whatever its arguments,
    [checkAnswer] keeps every option button's text and listener and enables
    none, and afterwards every button of class [mcq-option] is disabled; so
    when all option buttons are of that class, as [displayMcqWord] makes
    them, a click on any of them after the answer changes nothing at all. *)
Theorem answer_given_once selected correct buttonElement w :
  let w' := exec (checkAnswer selected correct buttonElement) w in
  Forall2 answered (optionButtons w) (optionButtons w')
  /\ Forall (fun b => has_class "mcq-option" (button b) = true ->
                      disabled (button b) = true) (optionButtons w')
  /\ (Forall (fun b => has_class "mcq-option" (button b) = true)
        (optionButtons w) ->
      forall j, exec (handle surahData (ClickOption j)) w' = w').
Proof.
  intros w'.
  assert (Hanswered : Forall2 answered (optionButtons w) (optionButtons w')).
  { apply checkAnswer_answered, answered_same. }
  pose proof (checkAnswer_locks selected correct buttonElement w) as Hlocked.
  fold w' in Hlocked.
  split_and!; [done..|].
  intros Hclass j. unfold handle. rewrite exec_get_bind.
  destruct (optionButtons w' !! j) as [b'|] eqn:Hb'; [|done].
  destruct (Forall2_lookup_r _ _ _ _ _ Hanswered Hb')
    as (b & Hb & _ & _ & _ & Hclass' & _).
  eapply Forall_lookup_1 in Hclass; [|exact Hb].
  eapply Forall_lookup_1 in Hlocked; [|exact Hb'].
  rewrite Hlocked by congruence. done.
Qed.

End Options.

Section Questions.

Variable surahData : Surah.

Lemma new_option_buttons_texts correct (ys : list string) :
  (fun b => textContent (button b))
    <$> ((fun option => new_option_button option correct) <$> ys) = ys.
Proof.
  rewrite <- list_fmap_compose. rewrite <- (list_fmap_id ys) at 2.
  by apply list_fmap_ext.
Qed.

(** The current word and its options, in quiz mode. *)
Lemma current_word w :
  session_ok surahData w -> isMcqMode w = true ->
  exists ayah word xs,
    index (surah_ayahs surahData) (currentAyahIndex w) = Some ayah
    /\ index (ayah_words ayah) (currentWordIndex w) = Some word
    /\ heap w !! word_options word = Some xs.
Proof.
  intros [(ayah & Hayah & Hword)%position_ok_iff [Harrays _]] Hmode.
  destruct (index_is_Some (ayah_words ayah) (currentWordIndex w) (Hword Hmode))
    as [word Hw].
  destruct (Harrays ayah word) as [xs Hxs].
  { unfold index in Hayah. destruct (_ <? 0); [done|].
    by eapply list_elem_of_lookup_2. }
  { unfold index in Hw. destruct (_ <? 0); [done|].
    by eapply list_elem_of_lookup_2. }
  by exists ayah, word, xs.
Qed.

Lemma displayCurrentContent_options (a : bool) w :
  session_ok surahData w ->
  options_current surahData (exec (displayCurrentContent surahData a) w).
Proof.
  intros Hsession.
  pose proof (displayCurrentContent_position surahData a w)
    as (Ha & Hw & Hm)%position_eq.
  unfold options_current, options_of. rewrite Ha, Hw, Hm. intros Hmode.
  destruct (current_word w Hsession Hmode) as (ayah & word & xs & Hayah & Hword & Hxs).
  exists ayah, word. split_and!; [done..| |].
  - rewrite !(displayCurrentContent_content surahData heap),
      !(displayCurrentContent_content surahData optionButtons) by (done || observe).
    rewrite Hmode.
    destruct (displayMcqWord_effect surahData w ayah word xs)
      as (ys & Hperm & -> & -> & _); [done..|by destruct Hsession as [_ []]|].
    exists xs. split.
    + rewrite lookup_insert_ne; [done|].
      intros Heq. pose proof (is_fresh (dom (heap w))) as Hfresh.
      rewrite Heq in Hfresh. apply Hfresh, elem_of_dom. by eexists.
    + by rewrite new_option_buttons_texts.
  - rewrite (displayCurrentContent_content surahData optionButtons) by (done || observe).
    rewrite Hmode.
    destruct (displayMcqWord_effect surahData w ayah word xs)
      as (ys & _ & -> & _); [done..|by destruct Hsession as [_ []]|].
    apply Forall_fmap, Forall_true. intros option.
    by cbn.
Qed.

Lemma displayCurrentContent_fresh (a : bool) w :
  session_ok surahData w -> isMcqMode w = true ->
  fresh_question (exec (displayCurrentContent surahData a) w).
Proof.
  intros Hsession Hmode. unfold fresh_question.
  destruct (current_word w Hsession Hmode) as (ayah & word & xs & Hayah & Hword & Hxs).
  rewrite !(displayCurrentContent_content surahData (fun w => page w mcqFeedback)),
    (displayCurrentContent_content surahData optionButtons) by (done || observe).
  rewrite Hmode.
  destruct (displayMcqWord_effect surahData w ayah word xs)
    as (ys & _ & -> & _ & ->); [done..|by destruct Hsession as [_ []]|].
  split_and!; [done..|].
  apply Forall_fmap, Forall_true. intros option. by cbn.
Qed.

Lemma options_current_congr w w' :
  position w' = position w -> heap w' = heap w ->
  Forall2 answered (optionButtons w) (optionButtons w') ->
  options_current surahData w -> options_current surahData w'.
Proof.
  unfold options_current, options_of.
  intros (-> & -> & ->)%position_eq -> Hanswered Hw Hmode.
  destruct (Hw Hmode) as (ayah & word & Hayah & Hword & (xs & Hxs & Hperm) & Hall).
  exists ayah, word. split_and!; [done..| |].
  - exists xs. split; [done|]. rewrite <- Hperm.
    assert (Htexts :
      (fun b => textContent (button b)) <$> optionButtons w'
      = (fun b => textContent (button b)) <$> optionButtons w);
      [|by rewrite Htexts].
    apply list_eq. intros k. rewrite !list_lookup_fmap.
    destruct (optionButtons w' !! k) as [b'|] eqn:Hb'.
    + destruct (Forall2_lookup_r _ _ _ _ _ Hanswered Hb')
        as (b & Hb & Htext & _).
      rewrite Hb. cbn. congruence.
    + destruct (optionButtons w !! k) as [b|] eqn:Hb; [|done].
      destruct (Forall2_lookup_l _ _ _ _ _ Hanswered Hb) as (b' & Hb'' & _).
      congruence.
  - apply Forall_lookup. intros k b' Hb'.
    destruct (Forall2_lookup_r _ _ _ _ _ Hanswered Hb')
      as (b & Hb & Htext & Hselected & Hcorrect & Hclass & _).
    eapply Forall_lookup_1 in Hall; [|exact Hb].
    destruct Hall as (? & ? & ?). split_and!; congruence.
Qed.

Lemma options_current_quiet (m : Handler unit) :
  preserves position m -> preserves heap m -> preserves optionButtons m ->
  keeps (options_current surahData) m.
Proof.
  intros Hpos Hheap Hbuttons w.
  apply options_current_congr; [apply Hpos|apply Hheap|].
  rewrite Hbuttons. apply answered_same.
Qed.

(** X14. Once the data is loaded, in quiz mode the option buttons are
    always those of the current word, whatever the events: their texts are
    the elements of the word's [options] in some order, each is of class
    [mcq-option], and its listener passes its own text and the meaning of
    the current word to [checkAnswer]. *)
Theorem options_follow_position es w :
  well_formed surahData = true ->
  session_ok surahData w ->
  options_current surahData
    (run surahData es (exec (loadSurahData surahData) w)).
Proof.
  intros Hwf Hsession.
  apply (loaded_invariant surahData Hwf (options_current surahData));
    [| | | | |exact Hsession].
  - intros a w0. apply displayCurrentContent_options.
  - apply options_current_quiet; [apply flipCard_position|observe..].
  - intros selected correct buttonElement w0.
    apply options_current_congr; [apply checkAnswer_position| |].
    + assert (Hpres : preserves heap
                (checkAnswer selected correct buttonElement)) by observe.
      apply Hpres.
    + apply checkAnswer_answered, answered_same.
  - apply options_current_quiet; [apply playRecitation_position|observe..].
  - intros ts w0. apply options_current_congr; [done..|apply answered_same].
Qed.

(** X15. In quiz mode a navigation either leaves the world exactly as it
    is or poses a fresh question: the feedback is cleared and its class is
    [feedback] again, and every option button is enabled and of class
    [mcq-option] only, whatever was answered before. *)
Theorem navigation_poses_fresh_question n w :
  well_formed surahData = true ->
  session_ok surahData w ->
  isMcqMode (exec (navigate surahData n) w) = true ->
  exec (navigate surahData n) w = w
  \/ fresh_question (exec (navigate surahData n) w).
Proof.
  intros Hwf Hsession Hmode.
  destruct (navigate_cases surahData Hwf n w Hsession)
    as [Heq|(a & w1 & Hsession1 & Heq)]; [by left|right].
  rewrite Heq in Hmode |- *.
  apply displayCurrentContent_fresh; [done|].
  pose proof (displayCurrentContent_position surahData a w1)
    as (_ & _ & Hm)%position_eq.
  congruence.
Qed.

End Questions.

(** ** The chime *)

Section Chime.

Variable surahData : Surah.

Lemma checkAnswer_chimes selected correct buttonElement w :
  chimes (exec (checkAnswer selected correct buttonElement) w)
  = if String.eqb selected correct then S (chimes w) else chimes w.
Proof.
  rewrite checkAnswer_split.
  set (w1 := exec (forEach _ _) w).
  assert (Hloop : chimes w1 = chimes w).
  { by apply (forEach_update_button_frame chimes). }
  destruct (String.eqb selected correct).
  - unfold update_button, update_element, playSuccessSound, setTimeout,
      set_optionButtons, set_chimes, set_timers.
    steps.
    cbn [chimes with_timers with_chimes with_element with_page
         with_optionButtons].
    by rewrite Hloop.
  - rewrite <- Hloop.
    match goal with
    | |- chimes (exec ?branch w1) = _ =>
        assert (Hpres : preserves chimes branch) by observe
    end.
    apply Hpres.
Qed.

(** X16. The chime sounds exactly on a correct answer: an event starts it
    once when it is a click on an enabled option button whose listener
    passes equal strings to [checkAnswer], and no other event starts it. *)
Theorem chime_exactly_on_correct_answer e w :
  chimes (exec (handle surahData e) w)
  = if answers_correctly e w then S (chimes w) else chimes w.
Proof.
  assert (Hnext : preserves chimes (goNext surahData)) by observe.
  assert (Hprev : preserves chimes (goPrev surahData)) by observe.
  assert (Hswitch : forall b, preserves chimes (switchMode surahData b))
    by (intros; observe).
  assert (Hflip : preserves chimes flipCard) by observe.
  assert (Hplay : preserves chimes (playRecitation surahData)) by observe.
  unfold handle. rewrite exec_get_bind.
  destruct e as [| | | | | |i|key|i]; cbn [answers_correctly].
  - apply Hflip.
  - destruct (disabled _); [done|apply Hnext].
  - destruct (disabled _); [done|apply Hprev].
  - apply Hplay.
  - apply Hswitch.
  - apply Hswitch.
  - destruct (optionButtons w !! i) as [b|]; [|done].
    destruct (disabled (button b)); [done|]. cbn [negb andb].
    apply checkAnswer_chimes.
  - destruct (String.eqb key "ArrowRight"); [apply Hnext|].
    destruct (String.eqb key "ArrowLeft"); [apply Hprev|].
    destruct (String.eqb key " "); [apply Hflip|done].
  - destruct (timers w !! i) as [[[] delay]|]; [|done].
    unfold set_timers, run_callback. steps. cbn [timer_callback].
    apply (Hnext (with_timers _ w)).
Qed.

End Chime.

(** ** The arrays of the data *)

(** The loop of [shuffleArray] writes to the array it was given only, even
    when it stops on an index outside the array. *)
Lemma shuffle_loop_elsewhere array i l w :
  l <> array -> heap (exec (shuffle_loop array i) w) !! l = heap w !! l.
Proof.
  intros Hne. revert w. induction i as [|i IH]; intros w; [done|].
  cbn [shuffle_loop]. unfold Math_random, set_randomDraws. steps.
  set (w1 := with_randomDraws _ w).
  change (heap w !! l) with (heap w1 !! l).
  generalize (scaled (randomDraws w 0%nat) (S i)). intros j.
  unfold swap, read_array, write_array, set_heap. steps.
  destruct (heap w1 !! array) as [xs|]; [|done].
  steps. destruct (xs !! j) as [aj|]; [|done].
  steps. destruct (xs !! S i) as [ai|]; [|done].
  steps. rewrite IH. cbn [heap with_heap]. by rewrite lookup_insert_ne.
Qed.

Lemma shuffleArray_elsewhere array l w :
  l <> array -> heap (exec (shuffleArray array) w) !! l = heap w !! l.
Proof.
  intros Hne. unfold shuffleArray, read_array. steps.
  destruct (heap w !! array) as [xs|]; [|done].
  rewrite (exec_after (fun w => heap w !! l)) by (intros; apply preserves_ret).
  by apply shuffle_loop_elsewhere.
Qed.

Section Arrays.

Variable surahData : Surah.

(** An array that exists when [displayMcqWord] is called is the same
    afterwards: the shuffle works on a new one. *)
Lemma displayMcqWord_array l xs :
  keeps (fun w => heap w !! l = Some xs) (displayMcqWord surahData).
Proof.
  intros w Hl. unfold displayMcqWord, currentAyah, update_element. steps.
  destruct (index _ _) as [ayah|]; [|done]. steps.
  destruct (index _ _) as [word|]; [|done]. steps.
  set (w4 := with_element mcqFeedback _ _).
  destruct (heap w !! word_options word) as [ys|] eqn:Hys.
  - rewrite (exec_spread_bind _ _ w4 ys) by exact Hys.
    set (copy := fresh (dom (heap w4))).
    assert (Hne : l <> copy).
    { intros ->. apply (is_fresh (dom (heap w4))), elem_of_dom. by eexists. }
    rewrite (exec_after (fun w => heap w !! l)).
    + rewrite shuffleArray_elsewhere by done.
      cbn [heap with_heap]. by rewrite lookup_insert_ne.
    + intros shuffledOptions. unfold set_optionButtons, read_array. frame.
  - unfold spread, read_array. steps.
    change (heap w4) with (heap w). by rewrite Hys.
Qed.

Lemma displayCurrentContent_array a l xs :
  keeps (fun w => heap w !! l = Some xs) (displayCurrentContent surahData a).
Proof.
  unfold displayCurrentContent, displayFlashcard, playRecitation,
    updateProgress, updateButtons, currentAyah, update_element, set_audio.
  keep. apply displayMcqWord_array.
Qed.

Lemma handle_array e l xs :
  keeps (fun w => heap w !! l = Some xs) (handle surahData e).
Proof.
  unfold handle. apply keeps_bind; [apply keeps_get|intros w].
  destruct e as [| | | | | |i|key|i];
    unfold run_callback, goNext, goPrev, switchMode, flipCard, checkAnswer,
      playRecitation, currentAyah, playSuccessSound, setTimeout,
      querySelectorAll_mcq_option, update_button, update_element,
      set_currentAyahIndex, set_currentWordIndex, set_isMcqMode, set_audio,
      set_optionButtons, set_timers, set_chimes;
    keep; try apply displayCurrentContent_array.
  destruct (timer_callback _). keep; apply displayCurrentContent_array.
Qed.

(** X17. No event modifies an array that exists: whatever the events and
    whatever the draws, every array of the heap holds afterwards what it
    held before, so the [options] of the data are never reordered. *)
Theorem arrays_never_modified es w :
  heap w ⊆ heap (run surahData es w).
Proof.
  revert w. induction es as [|e es IH]; intros w; [done|].
  cbn [run foldl]. etrans; [|apply IH].
  apply map_subseteq_spec. intros l xs Hl. by apply handle_array.
Qed.

End Arrays.

(** ** The session runs without error *)

Section NeverRaises.

Variable surahData : Surah.

Hypothesis wf : well_formed surahData = true.

Lemma flipCard_total : total flipCard.
Proof. unfold flipCard, update_element. repeat total_step. Qed.

Lemma handle_returns e w :
  session_ok surahData w -> returns (handle surahData e) w = true.
Proof.
  intros Hsession.
  pose proof (goNext_returns surahData w wf Hsession) as Hnext.
  pose proof (goPrev_returns surahData w wf Hsession) as Hprev.
  pose proof (total_returns _ w flipCard_total) as Hflip.
  unfold handle. rewrite returns_get_bind.
  destruct e as [| | | | | |i|key|i].
  - exact Hflip.
  - destruct (disabled _); [reflexivity|exact Hnext].
  - destruct (disabled _); [reflexivity|exact Hprev].
  - destruct Hsession as [(ayah & Hayah & _)%position_ok_iff _].
    by eapply playRecitation_returns.
  - exact (switchMode_returns surahData false w wf Hsession).
  - exact (switchMode_returns surahData true w wf Hsession).
  - destruct (optionButtons w !! i) as [b|]; [|reflexivity].
    destruct (disabled (button b)); [reflexivity|].
    apply total_returns, checkAnswer_total.
  - destruct (String.eqb key "ArrowRight"); [exact Hnext|].
    destruct (String.eqb key "ArrowLeft"); [exact Hprev|].
    destruct (String.eqb key " "); [exact Hflip|reflexivity].
  - destruct (timers w !! i) as [[[] delay]|]; [|reflexivity].
    unfold set_timers, run_callback. rsteps. cbn [timer_callback].
    apply goNext_returns; [exact wf|exact Hsession].
Qed.

(** X18. A session never stops on an error.  With a corpus in which every
    verse has a word, the arrays of the data in place and draws in [0, 1),
    [loadSurahData] runs to its end, and so does the handler of every event
    after it, whatever the events before. *)
Theorem session_never_raises es e w :
  session_ok surahData w ->
  returns (loadSurahData surahData) w = true
  /\ returns (handle surahData e)
       (run surahData es (exec (loadSurahData surahData) w)) = true.
Proof.
  intros Hsession. split.
  - unfold loadSurahData, update_element. rsteps.
    by apply displayCurrentContent_returns; destruct Hsession.
  - apply handle_returns.
    by apply (loaded_invariant surahData wf (fun _ => True)).
Qed.

End NeverRaises.

(** ** The timers *)

Section Timers.

Variable surahData : Surah.

Lemma checkAnswer_timers selected correct buttonElement w :
  timers (exec (checkAnswer selected correct buttonElement) w)
  = if String.eqb selected correct
    then (timers w
            ++ [{| timer_callback := CallGoNext; timer_delay := 1000 |}])%list
    else timers w.
Proof.
  destruct (String.eqb selected correct) eqn:Heq.
  - apply String.eqb_eq in Heq as ->. apply checkAnswer_timers_correct.
  - rewrite checkAnswer_split, Heq.
    set (w1 := exec (forEach _ _) w).
    assert (Hloop : timers w1 = timers w).
    { by apply (forEach_update_button_frame timers). }
    rewrite <- Hloop.
    match goal with
    | |- timers (exec ?branch w1) = _ =>
        assert (Hpres : preserves timers branch) by observe
    end.
    apply Hpres.
Qed.

(** X19. The queue of timers changes in two ways only: a correct answer
    (a click on an enabled option button whose listener passes equal
    strings) appends one timer that calls [goNext] after 1000 ms, and a
    timer that expires leaves the queue.  No other event adds, removes or
    reorders a timer. *)
Theorem timers_accounting e w :
  timers (exec (handle surahData e) w)
  = match e with
    | TimerExpires i => delete i (timers w)
    | _ =>
        if answers_correctly e w
        then (timers w
                ++ [{| timer_callback := CallGoNext; timer_delay := 1000 |}])%list
        else timers w
    end.
Proof.
  pose proof (goNext_timers surahData) as Hnext.
  pose proof (goPrev_timers surahData) as Hprev.
  pose proof (switchMode_timers surahData) as Hswitch.
  pose proof flipCard_timers as Hflip.
  pose proof (playRecitation_timers surahData) as Hplay.
  unfold handle. rewrite exec_get_bind.
  destruct e as [| | | | | |i|key|i]; cbn [answers_correctly].
  - apply Hflip.
  - destruct (disabled _); [done|apply Hnext].
  - destruct (disabled _); [done|apply Hprev].
  - apply Hplay.
  - apply Hswitch.
  - apply Hswitch.
  - destruct (optionButtons w !! i) as [b|]; [|done].
    destruct (disabled (button b)); [done|]. cbn [negb andb].
    apply checkAnswer_timers.
  - destruct (String.eqb key "ArrowRight"); [apply Hnext|].
    destruct (String.eqb key "ArrowLeft"); [apply Hprev|].
    destruct (String.eqb key " "); [apply Hflip|done].
  - destruct (timers w !! i) as [[[] delay]|] eqn:Hi.
    + unfold set_timers, run_callback. steps. cbn [timer_callback].
      apply (Hnext (with_timers _ w)).
    + apply lookup_ge_None in Hi. steps.
      rewrite delete_take_drop, take_ge, drop_ge by lia. by rewrite app_nil_r.
Qed.

End Timers.

(** ** The draws of the shuffle *)

Lemma shuffle_loop_draws array i w (xs ys : list string) :
  heap w !! array = Some xs ->
  shuffled (drawn_indices (randomDraws w) i) i xs = Some ys ->
  forall n,
    randomDraws (exec (shuffle_loop array i) w) n = randomDraws w (i + n)%nat.
Proof.
  revert w xs. induction i as [|i IH]; intros w xs Hxs Hrun n; [done|].
  cbn [drawn_indices shuffled] in Hrun.
  destruct (swapped xs (S i) (scaled (randomDraws w 0%nat) (S i)))
    as [xs'|] eqn:Hswap; [|done].
  simpl in Hrun.
  set (w1 := with_randomDraws (fun n => randomDraws w (S n)) w).
  set (w2 := with_heap (<[array := xs']> (heap w1)) w1).
  assert (Hstep : shuffle_loop array (S i) w = shuffle_loop array i w2).
  { assert (Hrand : Math_random w = (w1, Some (randomDraws w 0%nat)))
      by reflexivity.
    cbn [shuffle_loop]. rewrite run_bind, Hrand, run_bind.
    by rewrite (swap_run array (S i) _ w1 xs xs'). }
  unfold exec. rewrite Hstep.
  pose proof (IH w2 xs' (lookup_insert_eq _ _ _) Hrun n) as Hdraws.
  unfold exec in Hdraws. rewrite Hdraws. cbn [randomDraws w2 w1 with_heap
    with_randomDraws]. reflexivity.
Qed.

(** X20. [shuffleArray] on an array of [n] elements, with draws in
    [0, 1), calls [Math.random()] exactly [n - 1] times: the draws that
    remain are those from the [n - 1]-th on.  On an array of at most one
    element it draws nothing and leaves the whole world as it is. *)
Theorem shuffleArray_draws array w (xs : list string) :
  heap w !! array = Some xs ->
  unit_draws (randomDraws w) ->
  (forall n,
     randomDraws (exec (shuffleArray array) w) n
     = randomDraws w ((length xs - 1) + n)%nat)
  /\ ((length xs <= 1)%nat -> exec (shuffleArray array) w = w).
Proof.
  intros Hxs Hdraws. split.
  - intros n. destruct (shuffled_total _ xs Hdraws) as (ys & Hrun & _).
    unfold shuffleArray, read_array. steps. rewrite Hxs. steps.
    rewrite (exec_after (fun w => randomDraws w n))
      by (intros; apply preserves_ret).
    by eapply shuffle_loop_draws.
  - intros Hlen. unfold shuffleArray, read_array. steps. rewrite Hxs. steps.
    by replace (length xs - 1)%nat with 0%nat by lia.
Qed.

(** * The service worker *)

Lemma filter_ext_elem {A} (P Q : A -> Prop) `{!forall x, Decision (P x)}
    `{!forall x, Decision (Q x)} (l : list A) :
  (forall x, x ∈ l -> P x <-> Q x) -> filter P l = filter Q l.
Proof.
  induction l as [|x l IH]; intros Hext; [done|].
  rewrite !filter_cons.
  assert (Hl : filter P l = filter Q l).
  { apply IH. intros y Hy. apply Hext. by right. }
  pose proof (Hext x (list_elem_of_here _ _)) as Hx.
  destruct (decide (P x)), (decide (Q x)); [by rewrite Hl|tauto|tauto|done].
Qed.

Lemma filter_all {A} (P : A -> Prop) `{!forall x, Decision (P x)} (l : list A) :
  (forall x, x ∈ l -> P x) -> filter P l = l.
Proof.
  induction l as [|x l IH]; intros Hall; [done|].
  rewrite filter_cons_True by (apply Hall; by left).
  f_equal. apply IH. intros y Hy. apply Hall. by right.
Qed.

Lemma first_match_None request cs :
  first_match request cs = None <-> Forall (fun c => c.2 !! request = None) cs.
Proof.
  induction cs as [|[name cache] cs IH]; cbn [first_match]; [by split|].
  rewrite Forall_cons. cbn [snd].
  destruct (cache !! request) as [response|]; [|tauto].
  split; [done|]. by intros [? _].
Qed.

(** When every cache holds [response] for the request and there is a cache,
    that is what is found. *)
Lemma first_match_all request response cs :
  cs <> [] -> Forall (fun c => c.2 !! request = Some response) cs ->
  first_match request cs = Some response.
Proof.
  destruct cs as [|[name cache] cs]; [done|].
  intros _ [Hcache _]%Forall_cons. cbn [first_match]. cbn [snd] in Hcache.
  by rewrite Hcache.
Qed.

(** The deletions of [on_activate], for the keys [keys]. *)
Lemma delete_old_caches keys cs :
  Promise_all keys (fun key =>
    if bool_decide (key ≠ CACHE_NAME) then caches_delete key;; mret tt
    else mret tt) cs
  = (filter (fun c => c.1 = CACHE_NAME \/ c.1 ∉ keys) cs, Some tt).
Proof.
  revert cs. induction keys as [|key keys IH]; intros cs.
  { cbn [Promise_all]. unfold mret, Job_ret. f_equal.
    symmetry. apply filter_all. intros c _. right. apply not_elem_of_nil. }
  cbn [Promise_all]. unfold mbind, Job_bind.
  destruct (bool_decide (key ≠ CACHE_NAME)) eqn:Hkey.
  - apply bool_decide_eq_true in Hkey.
    unfold caches_delete, mret, Job_ret. rewrite IH. f_equal.
    etrans; [apply list_filter_filter|]. apply list_filter_iff. intros c.
    rewrite not_elem_of_cons. split.
    + intros [[?|?] ?]; auto.
    + intros [Hname|[? ?]]; [|auto]. split; [by left|congruence].
  - apply bool_decide_eq_false in Hkey. apply dec_stable in Hkey.
    unfold mret, Job_ret. rewrite IH. f_equal.
    apply list_filter_iff. intros c. rewrite not_elem_of_cons, Hkey.
    destruct (decide (c.1 = CACHE_NAME)); tauto.
Qed.

Lemma on_activate_run (cs : CacheStorage) :
  on_activate cs = (filter (fun c => c.1 = CACHE_NAME) cs, Some tt).
Proof.
  unfold on_activate, mbind, Job_bind, caches_keys.
  rewrite delete_old_caches. f_equal.
  apply filter_ext_elem. intros c Hc. split; [|by left].
  intros [?|Hnot]; [done|]. exfalso. apply Hnot.
  apply list_elem_of_fmap. by exists c.
Qed.

(** X21. [on_activate] always resolves, and it leaves exactly the caches
    named [CACHE_NAME], in their order and with their contents: every other
    cache is deleted.  A second run changes nothing. *)
Theorem activate_keeps_current_cache_only (cs : CacheStorage) :
  resolves_to on_activate cs = Some tt
  /\ storage_after on_activate cs = filter (fun c => c.1 = CACHE_NAME) cs
  /\ storage_after on_activate (storage_after on_activate cs)
     = storage_after on_activate cs.
Proof.
  unfold resolves_to, storage_after. rewrite !on_activate_run. cbn [fst snd].
  split_and!; [done..|].
  apply filter_all. by intros c [? _]%list_elem_of_filter.
Qed.

Section Install.

Variable network : Network.

Lemma put_fetched_elsewhere urls cache url :
  url ∉ urls -> foldl (put_fetched network) cache urls !! url = cache !! url.
Proof.
  revert cache. induction urls as [|u urls IH]; intros cache Hnot; [done|].
  apply not_elem_of_cons in Hnot as [Hne Hnot]. cbn [foldl].
  rewrite IH by done. unfold put_fetched.
  destruct (network u); [|done]. by rewrite lookup_insert_ne.
Qed.

Lemma put_fetched_lookup urls cache url response :
  url ∈ urls -> network url = Some response ->
  foldl (put_fetched network) cache urls !! url = Some response.
Proof.
  intros Hin Hfetched. revert cache Hin.
  induction urls as [|u urls IH]; intros cache Hin.
  { by apply elem_of_nil in Hin. }
  cbn [foldl]. destruct (decide (url ∈ urls)) as [Hlater|Hlater].
  { by apply IH. }
  apply elem_of_cons in Hin as [->|Hin]; [|done].
  rewrite put_fetched_elsewhere by done.
  unfold put_fetched. rewrite Hfetched. apply lookup_insert_eq.
Qed.

(** What [on_install] does: the cache is opened, and filled when every
    file could be fetched. *)
Lemma on_install_run (cs : CacheStorage) :
  on_install network cs
  = let opened :=
      if bool_decide (CACHE_NAME ∈ cs.*1) then cs
      else (cs ++ [(CACHE_NAME, ∅)])%list in
    if forallb (fetched_ok network) FILES_TO_CACHE then
      ((fun c => if decide (c.1 = CACHE_NAME)
                 then (c.1, foldl (put_fetched network) c.2 FILES_TO_CACHE)
                 else c) <$> opened,
       Some tt)
    else (opened, None).
Proof. reflexivity. Qed.

Lemma opened_has_cache (cs : CacheStorage) :
  CACHE_NAME
  ∈ (if bool_decide (CACHE_NAME ∈ cs.*1) then cs
     else (cs ++ [(CACHE_NAME, ∅)])%list).*1.
Proof.
  destruct (bool_decide (CACHE_NAME ∈ cs.*1)) eqn:Hin.
  - by apply bool_decide_eq_true in Hin.
  - rewrite fmap_app. apply elem_of_app. right. by left.
Qed.

(** X22. Once installed, the files of the app are served without the
    network.  When [on_install] has resolved and [on_activate] has run,
    [on_fetch] answers a request for any of the files of [FILES_TO_CACHE]
    with the response the network gave during the installation, a response
    with a status in 200-299, whatever the network is by then; and
    it leaves the caches as they are. *)
Theorem installed_files_served_offline (later : Network) cs url :
  resolves_to (on_install network) cs = Some tt ->
  url ∈ FILES_TO_CACHE ->
  let installed :=
    storage_after on_activate (storage_after (on_install network) cs) in
  exists response,
    network url = Some response
    /\ response_ok response = true
    /\ resolves_to (on_fetch later url) installed = Some response
    /\ storage_after (on_fetch later url) installed = installed.
Proof.
  intros Hinstalled Hurl installed.
  unfold resolves_to in Hinstalled.
  unfold installed, storage_after at 2. rewrite on_install_run in Hinstalled |- *.
  cbn zeta in *.
  pose proof (opened_has_cache cs) as Hopened.
  set (opened := if bool_decide _ then _ else _) in *.
  destruct (forallb (fetched_ok network) FILES_TO_CACHE) eqn:Hall; [|done].
  cbn [fst].
  rewrite forallb_forall in Hall.
  assert (Hok : fetched_ok network url = true).
  { apply Hall. by apply list_elem_of_In. }
  unfold fetched_ok in Hok.
  destruct (network url) as [response|] eqn:Hfetched; [|done].
  exists response. split_and!; [done..| |].
  - unfold storage_after at 1. rewrite on_activate_run. cbn [fst].
    unfold resolves_to, on_fetch, mbind, Job_bind, caches_match.
    rewrite (first_match_all url response); [done| |].
    + apply list_elem_of_fmap in Hopened as ([name cache] & Hname & Hc).
      cbn [fst] in Hname. subst name.
      intros Hnil.
      assert (Hin : (CACHE_NAME, foldl (put_fetched network) cache FILES_TO_CACHE)
                ∈ @nil (string * Cache)); [|by apply elem_of_nil in Hin].
      rewrite <- Hnil. apply list_elem_of_filter. split; [done|].
      apply list_elem_of_fmap. exists (CACHE_NAME, cache).
      cbn [fst snd]. by rewrite decide_True.
    + apply Forall_forall. intros c [Hname Hc]%list_elem_of_filter.
      apply list_elem_of_fmap in Hc as ([name cache] & -> & _).
      cbn [fst snd] in *. destruct (decide (name = CACHE_NAME)); [|done].
      cbn [snd]. by apply put_fetched_lookup.
  - unfold storage_after, on_fetch, mbind, Job_bind, caches_match.
    by destruct (first_match url _).
Qed.

(** X23. An installation that cannot fetch all files stores none.  When
    the fetch of one of the files rejects or answers with a status outside
    200-299, [on_install] rejects, and no request finds a response that it
    did not find before. *)
Theorem failed_install_stores_nothing cs url :
  url ∈ FILES_TO_CACHE ->
  fetched_ok network url = false ->
  resolves_to (on_install network) cs = None
  /\ forall request,
       first_match request (storage_after (on_install network) cs)
       = first_match request cs.
Proof.
  intros Hurl Hfailed.
  unfold resolves_to, storage_after. rewrite on_install_run. cbn zeta.
  destruct (forallb (fetched_ok network) FILES_TO_CACHE) eqn:Hall.
  { rewrite forallb_forall in Hall.
    rewrite Hall in Hfailed by by apply list_elem_of_In. done. }
  split; [done|]. intros request. cbn [fst].
  destruct (bool_decide (CACHE_NAME ∈ cs.*1)); [done|].
  induction cs as [|[name cache] cs IH]; [done|].
  cbn [first_match app]. by rewrite IH.
Qed.

Lemma on_install_unlisted (cs : CacheStorage) url :
  url ∉ FILES_TO_CACHE ->
  first_match url cs = None ->
  first_match url (storage_after (on_install network) cs) = None.
Proof.
  intros Hurl Hnone.
  apply first_match_None in Hnone. apply first_match_None.
  unfold storage_after. rewrite on_install_run. cbn zeta.
  assert (Hopened : Forall (fun c : string * Cache => c.2 !! url = None)
            (if bool_decide (CACHE_NAME ∈ cs.*1) then cs
             else (cs ++ [(CACHE_NAME, ∅)])%list)).
  { destruct (bool_decide _); [done|].
    apply Forall_app. split; [done|]. by apply Forall_singleton. }
  destruct (forallb _ _); cbn [fst]; [|done].
  apply Forall_fmap. eapply Forall_impl; [exact Hopened|].
  intros [name cache] Hcache. cbn [snd fst compose] in *.
  destruct (decide (name = CACHE_NAME)); [|done].
  cbn [snd]. by rewrite put_fetched_elsewhere.
Qed.

Lemma on_activate_unlisted (cs : CacheStorage) url :
  first_match url cs = None ->
  first_match url (storage_after on_activate cs) = None.
Proof.
  intros Hnone. unfold storage_after. rewrite on_activate_run. cbn [fst].
  apply first_match_None in Hnone. apply first_match_None.
  apply Forall_forall. intros c [_ Hc]%list_elem_of_filter.
  by eapply Forall_forall in Hnone.
Qed.

(** X24. The worker caches the listed files only.  A request that is not
    for one of the files of [FILES_TO_CACHE] and finds no response in the
    caches finds none after [on_install] or [on_activate] either, and
    [on_fetch] never changes the caches, for any request; so such a request
    is always answered by the network. *)
Theorem worker_caches_listed_files_only (cs : CacheStorage) url :
  url ∉ FILES_TO_CACHE ->
  first_match url cs = None ->
  first_match url (storage_after (on_install network) cs) = None
  /\ first_match url (storage_after on_activate cs) = None
  /\ (forall request, storage_after (on_fetch network request) cs = cs)
  /\ resolves_to (on_fetch network url) cs = network url.
Proof.
  intros Hurl Hnone. split_and!.
  - by apply on_install_unlisted.
  - by apply on_activate_unlisted.
  - intros request.
    unfold storage_after, on_fetch, mbind, Job_bind, caches_match.
    by destruct (first_match request cs).
  - unfold resolves_to, on_fetch, mbind, Job_bind, caches_match.
    by rewrite Hnone.
Qed.

End Install.

Lemma recitationUrl_not_listed surahNumber ayahNumber :
  recitationUrl surahNumber ayahNumber ∉ FILES_TO_CACHE.
Proof.
  unfold FILES_TO_CACHE, recitationUrl. intros Hin.
  repeat (apply elem_of_cons in Hin as [Heq|Hin]; [by simplify_eq/=|]).
  by apply elem_of_nil in Hin.
Qed.

(** X25. The recitations are never served from the cache.  Their addresses
    are not among the files of [FILES_TO_CACHE]; so when the caches hold no
    response for the recitation of a verse, they hold none after the
    installation and the activation of the worker, and the request that
    [playRecitation] causes is answered by the network, or fails with it. *)
Theorem recitation_needs_network (network later : Network) (cs : CacheStorage)
    surahNumber ayahNumber :
  first_match (recitationUrl surahNumber ayahNumber) cs = None ->
  resolves_to (on_fetch later (recitationUrl surahNumber ayahNumber))
    (storage_after on_activate (storage_after (on_install network) cs))
  = later (recitationUrl surahNumber ayahNumber).
Proof.
  intros Hnone.
  pose proof (on_activate_unlisted _ _
    (on_install_unlisted network cs _
       (recitationUrl_not_listed surahNumber ayahNumber) Hnone)) as Hafter.
  unfold resolves_to, on_fetch, mbind, Job_bind, caches_match.
  by rewrite Hafter.
Qed.

(** ** The labels *)

Section Labels.

Variable surahData : Surah.

Lemma updateButtons_label w ayah :
  index (surah_ayahs surahData) (currentAyahIndex w) = Some ayah ->
  textContent (page (exec (updateButtons surahData) w) nextBtn)
  = if negb (isMcqMode w) && (currentAyahIndex w =? lastAyahIndex surahData)
    then "↺ Restart" else "Next →".
Proof.
  intros Hayah. unfold updateButtons, currentAyah, update_element, lastAyahIndex.
  steps. destruct (isMcqMode w); steps; rewrite ?Hayah; steps; cbn [negb andb].
  - reflexivity.
  - cbn [page with_element with_page]. rewrite decide_True by done.
    by destruct (currentAyahIndex w =? _).
Qed.

Lemma handle_totalAyahsSpan e :
  preserves (fun w => page w totalAyahsSpan) (handle surahData e).
Proof.
  unfold handle. apply preserves_bind; [apply preserves_get|intros w].
  destruct e as [| | | | | |i|key|i]; unfold run_callback;
    try (destruct (timers w !! i) as [[[] delay]|]);
    cbn [timer_callback]; observe.
Qed.

(** X26. Once the data is loaded, whatever the events, the Next button
    announces a restart exactly where a click on it restarts: its label is
    "↺ Restart" in flashcard mode at the last verse, where [goNext] leads to
    the first verse, and "Next →" everywhere else; and the total written
    beside the progress stays the number of verses. *)
Theorem labels_follow_position es w :
  well_formed surahData = true ->
  session_ok surahData w ->
  let w' := run surahData es (exec (loadSurahData surahData) w) in
  textContent (page w' nextBtn)
  = (if negb (isMcqMode w') && (currentAyahIndex w' =? lastAyahIndex surahData)
     then "↺ Restart" else "Next →")
  /\ (textContent (page w' nextBtn) = "↺ Restart" ->
      position (exec (goNext surahData) w') = (0, currentWordIndex w', false))
  /\ textContent (page w' totalAyahsSpan)
     = pretty (len (surah_ayahs surahData)).
Proof.
  intros Hwf Hsession w'.
  assert (Hlabel : textContent (page w' nextBtn)
            = if negb (isMcqMode w')
                 && (currentAyahIndex w' =? lastAyahIndex surahData)
              then "↺ Restart" else "Next →").
  { assert (Hcongr : forall w0 w1,
              position w1 = position w0 -> page w1 nextBtn = page w0 nextBtn ->
              textContent (page w0 nextBtn)
              = (if negb (isMcqMode w0)
                    && (currentAyahIndex w0 =? lastAyahIndex surahData)
                 then "↺ Restart" else "Next →") ->
              textContent (page w1 nextBtn)
              = (if negb (isMcqMode w1)
                    && (currentAyahIndex w1 =? lastAyahIndex surahData)
                 then "↺ Restart" else "Next →")).
    { intros w0 w1 (-> & _ & ->)%position_eq ->. done. }
    apply (loaded_invariant surahData Hwf (fun w' =>
             textContent (page w' nextBtn)
             = if negb (isMcqMode w')
                  && (currentAyahIndex w' =? lastAyahIndex surahData)
               then "↺ Restart" else "Next →"));
      [| | | | |exact Hsession].
    - intros a w0 Hsession0.
      destruct (displayCurrentContent_run surahData a w0 Hsession0) as [Hpos ->].
      destruct Hsession0 as [(ayah & Hayah & _)%position_ok_iff _].
      match goal with
      | |- context [exec (updateProgress surahData) ?shown] =>
          pose proof (updateProgress_position surahData shown)
            as (Ha & _ & Hm)%position_eq;
          pose proof (updateButtons_position surahData
                        (exec (updateProgress surahData) shown))
            as (Ha' & _ & Hm')%position_eq
      end.
      apply position_eq in Hpos as (Ha0 & _ & Hm0).
      rewrite Ha', Hm'. apply (updateButtons_label _ ayah).
      by rewrite Ha, Ha0.
    - intros w0. apply Hcongr; [apply flipCard_position|].
      assert (Hpres : preserves (fun w => page w nextBtn) flipCard) by observe.
      apply Hpres.
    - intros selected correct buttonElement w0.
      apply Hcongr; [apply checkAnswer_position|].
      assert (Hpres : preserves (fun w => page w nextBtn)
                (checkAnswer selected correct buttonElement)) by observe.
      apply Hpres.
    - intros w0. apply Hcongr; [apply playRecitation_position|].
      assert (Hpres : preserves (fun w => page w nextBtn)
                (playRecitation surahData)) by observe.
      apply Hpres.
    - intros ts w0. by apply Hcongr. }
  split_and!; [exact Hlabel| |].
  - rewrite Hlabel. intros Hrestart.
    destruct (isMcqMode w') eqn:Hmode; [done|]. cbn [negb andb] in Hrestart.
    destruct (currentAyahIndex w' =? lastAyahIndex surahData) eqn:Hlast;
      [|done].
    apply Z.eqb_eq in Hlast. unfold lastAyahIndex in Hlast.
    rewrite goNext_position, Hmode.
    rewrite (proj2 (Z.ltb_ge _ _)) by lia. reflexivity.
  - unfold w'. clear Hlabel.
    assert (Hrun : forall w0,
              page (run surahData es w0) totalAyahsSpan = page w0 totalAyahsSpan).
    { induction es as [|e es' IH]; intros w0; [done|].
      change (page (run surahData es' (exec (handle surahData e) w0))
                totalAyahsSpan = page w0 totalAyahsSpan).
      rewrite IH. apply handle_totalAyahsSpan. }
    rewrite Hrun. unfold loadSurahData, update_element. steps.
    assert (Hpres : preserves (fun w => page w totalAyahsSpan)
              (displayCurrentContent surahData true)) by observe.
    rewrite Hpres. cbn [page with_element with_page].
    by rewrite decide_True.
Qed.

End Labels.

(** * The further properties on the small session *)

Lemma recitation_not_started_witness :
  isMcqMode (sample_at 0 0 true) = true
  /\ audio (exec (goNext two_verses) (sample_at 0 0 true))
     = audio (sample_at 0 0 true)
  /\ audio (exec (goPrev two_verses) (sample_at 0 0 true))
     = audio (sample_at 0 0 true).
Proof.
  destruct (recitation_not_started two_verses (sample_at 0 0 true))
    as (_ & Hquiz & _).
  split; [reflexivity|]. exact (Hquiz eq_refl).
Defined.

Lemma flipCard_effect_witness :
  isMcqMode sample_start = false
  /\ isMcqMode (sample_at 0 0 true) = true
  /\ has_class "flipped" (page (exec flipCard sample_start) flashcard)
     = negb (has_class "flipped" (page sample_start flashcard))
  /\ exec flipCard (sample_at 0 0 true) = sample_at 0 0 true.
Proof.
  destruct (flipCard_effect sample_start) as (_ & Hcard & _).
  destruct (flipCard_effect (sample_at 0 0 true)) as (Hquiz & _).
  split; [reflexivity|]. split; [reflexivity|].
  split; [exact (proj1 (Hcard eq_refl))|exact (Hquiz eq_refl)].
Defined.

Lemma navigation_shows_front_witness :
  ayahIndex_valid two_verses (sample_at 1 0 false) = true
  /\ isMcqMode (sample_at 1 0 false) = false
  /\ 0 < currentAyahIndex (sample_at 1 0 false)
  /\ has_class "flipped"
       (page (exec (goNext two_verses) (sample_at 1 0 false)) flashcard) = false
  /\ has_class "flipped"
       (page (exec (goPrev two_verses) (sample_at 1 0 false)) flashcard) = false.
Proof.
  destruct (navigation_shows_front two_verses (sample_at 1 0 false) eq_refl)
    as [Hcard _].
  destruct (Hcard eq_refl) as [Hnext Hprev].
  split; [reflexivity|]. split; [reflexivity|]. split; [reflexivity|].
  split; [exact Hnext|exact (Hprev eq_refl)].
Defined.

Lemma quiz_walks_the_words_witness :
  let ahead := Nat.iter 5 (exec (goNext two_verses)) (sample_at 0 1 true) in
  well_formed two_verses = true
  /\ isMcqMode (sample_at 0 1 true) = true
  /\ wordIndex_valid two_verses (sample_at 0 1 true) = true
  /\ isMcqMode ahead = true
  /\ wordIndex_valid two_verses ahead = true
  /\ wordNumber two_verses ahead
     = Z.min (wordNumber two_verses (sample_at 0 1 true) + Z.of_nat 5)
         (totalWords two_verses - 1).
Proof.
  intros ahead.
  split; [reflexivity|]. split; [reflexivity|]. split; [reflexivity|].
  exact (proj1 (quiz_walks_the_words two_verses 5 (sample_at 0 1 true)
                  eq_refl eq_refl eq_refl)).
Defined.

(** Five calls of [goNext] from the second word of [two_verses] stop at its
    third and last word, the one word of the second verse. *)
Example quiz_walk_ends :
  position (Nat.iter 5 (exec (goNext two_verses)) (sample_at 0 1 true))
  = (1, 0, true).
Proof. vm_compute. reflexivity. Qed.

Lemma review_goes_round_witness :
  isMcqMode (sample_at 1 0 false) = false
  /\ ayahIndex_valid three_verses (sample_at 1 0 false) = true
  /\ position (Nat.iter 4 (exec (goNext three_verses)) (sample_at 1 0 false))
     = ((currentAyahIndex (sample_at 1 0 false) + Z.of_nat 4)
          mod len (surah_ayahs three_verses),
        currentWordIndex (sample_at 1 0 false), false)
  /\ position (Nat.iter (length (surah_ayahs three_verses))
                 (exec (goNext three_verses)) (sample_at 1 0 false))
     = position (sample_at 1 0 false).
Proof.
  split; [reflexivity|]. split; [reflexivity|].
  exact (review_goes_round three_verses 4 (sample_at 1 0 false) eq_refl eq_refl).
Defined.

Lemma recitationUrl_inj_witness :
  0 <= 1 < 1000 /\ 0 <= 7 < 1000
  /\ recitationUrl 1 7 = recitationUrl 1 7
  /\ 1 = 1 /\ 7 = 7.
Proof.
  assert (Hs : 0 <= 1 < 1000) by lia.
  assert (Ha : 0 <= 7 < 1000) by lia.
  split; [exact Hs|]. split; [exact Ha|]. split; [reflexivity|].
  exact (recitationUrl_inj 1 7 1 7 Hs Ha Hs Ha eq_refl).
Defined.

Lemma recitation_follows_verse_witness :
  numbers_safe two_verses = true
  /\ isMcqMode sample_start = false
  /\ ayahIndex_valid two_verses sample_start = true
  /\ exists ayah,
       index (surah_ayahs two_verses)
         (currentAyahIndex (exec (goNext two_verses) sample_start)) = Some ayah
       /\ audio (exec (goNext two_verses) sample_start)
          = Some {| player_src :=
                      recitationUrl (surah_number two_verses) (ayah_number ayah);
                    player_playing := true |}.
Proof.
  split; [reflexivity|]. split; [reflexivity|]. split; [reflexivity|].
  exact (proj1 (recitation_follows_verse two_verses sample_start
                  eq_refl eq_refl eq_refl)).
Defined.

Lemma buttons_follow_position_witness :
  well_formed two_verses = true
  /\ session_ok two_verses sample_start
  /\ buttons_agree two_verses
       (run two_verses [ClickTabMcq; ClickNext; ClickOption 0]
          (exec (loadSurahData two_verses) sample_start)).
Proof.
  destruct sample_session_ok as [Hwf Hsession].
  split; [exact Hwf|]. split; [exact Hsession|].
  exact (buttons_follow_position two_verses
           [ClickTabMcq; ClickNext; ClickOption 0] sample_start Hwf Hsession).
Defined.

Lemma keys_match_buttons_witness :
  position_ok two_verses (exec (loadSurahData two_verses) sample_start)
  /\ buttons_agree two_verses (exec (loadSurahData two_verses) sample_start)
  /\ exec (handle two_verses ClickPrev)
       (exec (loadSurahData two_verses) sample_start)
     = exec (handle two_verses (KeyDown "ArrowLeft"))
         (exec (loadSurahData two_verses) sample_start).
Proof.
  assert (Hok : position_ok two_verses
                  (exec (loadSurahData two_verses) sample_start)).
  { split; [vm_compute; reflexivity|intros _; vm_compute; reflexivity]. }
  assert (Hagree : buttons_agree two_verses
                     (exec (loadSurahData two_verses) sample_start)).
  { split; vm_compute; reflexivity. }
  split; [exact Hok|]. split; [exact Hagree|].
  exact (proj2 (keys_match_buttons two_verses _ Hok Hagree)).
Defined.

Lemma page_follows_position_witness :
  well_formed two_verses = true
  /\ session_ok two_verses sample_start
  /\ page_current two_verses
       (run two_verses [ClickTabMcq; ClickNext; ClickOption 0]
          (exec (loadSurahData two_verses) sample_start)).
Proof.
  destruct sample_session_ok as [Hwf Hsession].
  split; [exact Hwf|]. split; [exact Hsession|].
  exact (page_follows_position two_verses
           [ClickTabMcq; ClickNext; ClickOption 0] sample_start Hwf Hsession).
Defined.

Lemma answer_given_once_witness :
  let w := exec (switchMode two_verses true) sample_start in
  let w' := exec (checkAnswer "Mercy" "In the name" 1) w in
  Forall (fun b => has_class "mcq-option" (button b) = true) (optionButtons w)
  /\ exec (handle two_verses (ClickOption 0)) w' = w'.
Proof.
  intros w w'.
  assert (Hclass : Forall (fun b => has_class "mcq-option" (button b) = true)
                     (optionButtons w)).
  { apply (bool_decide_unpack _). vm_compute. exact I. }
  split; [exact Hclass|].
  exact (proj2 (proj2 (answer_given_once two_verses "Mercy" "In the name" 1 w))
           Hclass 0%nat).
Defined.

Lemma options_follow_position_witness :
  well_formed two_verses = true
  /\ session_ok two_verses sample_start
  /\ options_current two_verses
       (run two_verses [ClickTabMcq; ClickNext; ClickOption 0]
          (exec (loadSurahData two_verses) sample_start)).
Proof.
  destruct sample_session_ok as [Hwf Hsession].
  split; [exact Hwf|]. split; [exact Hsession|].
  exact (options_follow_position two_verses
           [ClickTabMcq; ClickNext; ClickOption 0] sample_start Hwf Hsession).
Defined.

Lemma navigation_poses_fresh_question_witness :
  well_formed two_verses = true
  /\ session_ok two_verses sample_start
  /\ isMcqMode (exec (navigate two_verses (Switch true)) sample_start) = true
  /\ (exec (navigate two_verses (Switch true)) sample_start = sample_start
      \/ fresh_question (exec (navigate two_verses (Switch true)) sample_start)).
Proof.
  destruct sample_session_ok as [Hwf Hsession].
  assert (Hmode : isMcqMode (exec (navigate two_verses (Switch true))
                               sample_start) = true)
    by (vm_compute; reflexivity).
  split; [exact Hwf|]. split; [exact Hsession|]. split; [exact Hmode|].
  exact (navigation_poses_fresh_question two_verses (Switch true) sample_start
           Hwf Hsession Hmode).
Defined.

Lemma session_never_raises_witness :
  well_formed two_verses = true
  /\ session_ok two_verses sample_start
  /\ returns (loadSurahData two_verses) sample_start = true
  /\ returns (handle two_verses (TimerExpires 0))
       (run two_verses [ClickTabMcq; ClickOption 2]
          (exec (loadSurahData two_verses) sample_start)) = true.
Proof.
  destruct sample_session_ok as [Hwf Hsession].
  split; [exact Hwf|]. split; [exact Hsession|].
  exact (session_never_raises two_verses Hwf [ClickTabMcq; ClickOption 2]
           (TimerExpires 0) sample_start Hsession).
Defined.

Lemma shuffleArray_draws_witness :
  heap sample_start !! 1%positive = Some sample_options
  /\ unit_draws (randomDraws sample_start)
  /\ forall n,
       randomDraws (exec (shuffleArray 1%positive) sample_start) n
       = randomDraws sample_start ((length sample_options - 1) + n)%nat.
Proof.
  split; [reflexivity|]. split; [exact half_draws_unit|].
  exact (proj1 (shuffleArray_draws 1%positive sample_start sample_options
                  eq_refl half_draws_unit)).
Defined.

(** A network on which every fetch succeeds, and one that is down. *)
Lemma installed_files_served_offline_witness :
  let up : Network := fun url => Some {| response_ok := true; response_body := url |} in
  let down : Network := fun _ => None in
  let installed := storage_after on_activate (storage_after (on_install up) []) in
  resolves_to (on_install up) [] = Some tt
  /\ ("/app.js" ∈ FILES_TO_CACHE)
  /\ exists response,
       up "/app.js" = Some response
       /\ response_ok response = true
       /\ resolves_to (on_fetch down "/app.js") installed = Some response
       /\ storage_after (on_fetch down "/app.js") installed = installed.
Proof.
  intros up down installed.
  assert (Hin : "/app.js" ∈ FILES_TO_CACHE).
  { apply (bool_decide_unpack _). vm_compute. exact I. }
  split; [reflexivity|]. split; [exact Hin|].
  exact (installed_files_served_offline up down [] "/app.js" eq_refl Hin).
Defined.

Lemma failed_install_stores_nothing_witness :
  let down : Network := fun _ => None in
  ("/app.js" ∈ FILES_TO_CACHE)
  /\ fetched_ok down "/app.js" = false
  /\ resolves_to (on_install down) [] = None
  /\ forall request,
       first_match request (storage_after (on_install down) [])
       = first_match request [].
Proof.
  intros down.
  assert (Hin : "/app.js" ∈ FILES_TO_CACHE).
  { apply (bool_decide_unpack _). vm_compute. exact I. }
  split; [exact Hin|]. split; [reflexivity|].
  exact (failed_install_stores_nothing down [] "/app.js" Hin eq_refl).
Defined.

Lemma worker_caches_listed_files_only_witness :
  let up : Network := fun url => Some {| response_ok := true; response_body := url |} in
  ("/audio.mp3" ∉ FILES_TO_CACHE)
  /\ first_match "/audio.mp3" [] = None
  /\ first_match "/audio.mp3" (storage_after (on_install up) []) = None
  /\ resolves_to (on_fetch up "/audio.mp3") [] = up "/audio.mp3".
Proof.
  intros up.
  assert (Hnot : "/audio.mp3" ∉ FILES_TO_CACHE).
  { apply (bool_decide_unpack _). vm_compute. exact I. }
  destruct (worker_caches_listed_files_only up [] "/audio.mp3" Hnot eq_refl)
    as (Hinstall & _ & _ & Hfetch).
  split; [exact Hnot|]. split; [reflexivity|].
  split; [exact Hinstall|exact Hfetch].
Defined.

Lemma recitation_needs_network_witness :
  let up : Network := fun url => Some {| response_ok := true; response_body := url |} in
  let down : Network := fun _ => None in
  first_match (recitationUrl 1 1) [] = None
  /\ resolves_to (on_fetch down (recitationUrl 1 1))
       (storage_after on_activate (storage_after (on_install up) []))
     = down (recitationUrl 1 1).
Proof.
  intros up down. split; [reflexivity|].
  exact (recitation_needs_network up down [] 1 1 eq_refl).
Defined.

Lemma labels_follow_position_witness :
  let w' :=
    run two_verses [ClickNext] (exec (loadSurahData two_verses) sample_start) in
  well_formed two_verses = true
  /\ session_ok two_verses sample_start
  /\ textContent (page w' nextBtn) = "↺ Restart"
  /\ position (exec (goNext two_verses) w') = (0, currentWordIndex w', false).
Proof.
  intros w'. destruct sample_session_ok as [Hwf Hsession].
  assert (Htext : textContent (page w' nextBtn) = "↺ Restart")
    by (vm_compute; reflexivity).
  destruct (labels_follow_position two_verses [ClickNext] sample_start
              Hwf Hsession) as (_ & Hrestart & _).
  split; [exact Hwf|]. split; [exact Hsession|]. split; [exact Htext|].
  exact (Hrestart Htext).
Defined.
